(** * Ranked-ballot elections: Ballot, head-to-head matrix, Schulze,
      tactical-voting simulation.

    A shallow embedding of [ballot.py], [algorithms.py] and
    [tactical_voting.py] of lab04-comp-social-choice.  Candidates are Python
    strings, counts are Python ints that only ever grow from 0 (hence [nat]),
    dictionaries that are only read by key are [gmap]s, the one dictionary
    whose iteration order is observed ([scores] in [schulze]) is an
    insertion-ordered association list, and every operation that can raise
    returns a [result]. *)

From stdpp Require Import base decidable option list gmap strings sorting pretty.
From Stdlib Require Import Lia Ascii.

Open Scope string_scope.
Open Scope list_scope.
Open Scope nat_scope.

(** ** Python exceptions as a result type *)

Inductive exn : Type :=
| ValueError (msg : string)
| KeyError
| NotImplementedError (msg : string).

Inductive result (A : Type) : Type :=
| Ok (a : A)
| Raise (e : exn).
Arguments Ok {A} a.
Arguments Raise {A} e.

#[global] Instance result_ret : MRet result := fun _ a => Ok a.
#[global] Instance result_bind : MBind result := fun _ _ f m =>
  match m with
  | Ok a => f a
  | Raise e => Raise e
  end.

(** A [for x in xs: body] loop over a state [S]; [continue] is a body that
    returns the state unchanged, a raise inside the body leaves the loop. *)
Fixpoint for_each {S A : Type} (body : S → A → result S) (xs : list A) (s : S)
  : result S :=
  match xs with
  | [] => Ok s
  | x :: xs' => s' ← body s x; for_each body xs' s'
  end.

(** A generator expression [f(x) for x in xs] consumed eagerly. *)
Fixpoint gen_map {A B : Type} (f : A → result B) (xs : list A) : result (list B) :=
  match xs with
  | [] => Ok []
  | x :: xs' => y ← f x; ys ← gen_map f xs'; Ok (y :: ys)
  end.

(** [seq.index(x)]: position of the first occurrence, [ValueError] when absent. *)
Fixpoint index (x : string) (l : list string) : result nat :=
  match l with
  | [] => Raise (ValueError "x not in sequence")
  | y :: l' => if decide (y = x) then Ok 0 else n ← index x l'; Ok (S n)
  end.

(** [min(iterable)] and [max(iterable)] on ints. *)
Definition py_min (l : list nat) : result nat :=
  match l with
  | [] => Raise (ValueError "min() arg is an empty sequence")
  | x :: l' => Ok (foldl Nat.min x l')
  end.

Definition py_max (l : list nat) : result nat :=
  match l with
  | [] => Raise (ValueError "max() arg is an empty sequence")
  | x :: l' => Ok (foldl Nat.max x l')
  end.

(** [d[k]] on a dictionary that is only ever read by key. *)
Definition dget {K V : Type} `{Countable K} (d : gmap K V) (k : K) : result V :=
  match d !! k with
  | Some v => Ok v
  | None => Raise KeyError
  end.
Arguments dget : simpl never.

(** ** ballot.py *)

Module Ballot.

Record t : Type := mk { ranking : list string }.

#[global] Instance eq_dec : EqDecision t.
Proof. solve_decision. Defined.

#[global] Instance countable : Countable t :=
  inj_countable' ranking mk (fun b => match b with mk r => eq_refl end).

Definition msg_empty : string := "Ranking cannot be empty".
Definition msg_duplicate : string := "Ranking contains duplicate candidates".
Definition msg_unknown (c : string) : string :=
  ("Candidate '" ++ c ++ "' not in ballot")%string.

(** [Ballot.__init__] *)
Definition init (ranking : list string) : result t :=
  if decide (ranking = []) then Raise (ValueError msg_empty)
  else if decide (length ranking ≠ size (list_to_set ranking : gset string))
  then Raise (ValueError msg_duplicate)
  else Ok (mk ranking).

(** [Ballot.prefers] *)
Definition prefers (self : t) (cand_a cand_b : string) : result bool :=
  if decide (cand_a ∉ ranking self) then Raise (ValueError (msg_unknown cand_a))
  else if decide (cand_b ∉ ranking self) then Raise (ValueError (msg_unknown cand_b))
  else ia ← index cand_a (ranking self);
       ib ← index cand_b (ranking self);
       Ok (bool_decide (ia < ib)).

(** [Ballot.get_ranking] *)
Definition get_ranking (self : t) : list string := ranking self.

(** The two error families of the specification, both [ValueError] in the
    code and told apart by their message. *)
Definition InvalidBallot (e : exn) : Prop :=
  e = ValueError msg_empty ∨ e = ValueError msg_duplicate.
Definition UnknownCandidate (e : exn) : Prop :=
  ∃ c, e = ValueError (msg_unknown c).

(** What [init] guarantees of every ballot it returns. *)
Definition wf (b : t) : Prop := ranking b ≠ [] ∧ NoDup (ranking b).

End Ballot.

(** [aggregate_ballot_types]: ballots hash and compare by ranking. *)
Definition aggregate_ballot_types (ballots : list Ballot.t) : gmap Ballot.t nat :=
  foldl (fun type_counts ballot =>
           <[ballot := default 0 (type_counts !! ballot) + 1]> type_counts)
        ∅ ballots.

(** ** algorithms.py *)

Definition count_prefers (ballots : list Ballot.t) (cand_a cand_b : string)
  : result nat :=
  for_each (fun count ballot =>
              pr ← Ballot.prefers ballot cand_a cand_b;
              Ok (if pr : bool then count + 1 else count))
           ballots 0.

Definition get_head_to_head_matrix (ballots : list Ballot.t) (candidates : list string)
  : result (gmap (string * string) nat) :=
  for_each (fun h2h cand_a =>
    for_each (fun h2h cand_b =>
      if decide (cand_a = cand_b) then Ok h2h
      else count ← count_prefers ballots cand_a cand_b;
           Ok (<[(cand_a, cand_b) := count]> h2h))
      candidates h2h)
    candidates ∅.

Definition msg_condorcet : string := "Condorcet winner detection not yet implemented".

Definition find_condorcet_winner (ballots : list Ballot.t) (candidates : list string)
  : result (option string) :=
  Raise (NotImplementedError msg_condorcet).

(** The insertion-ordered dictionary [scores]: keys stay where they were first
    inserted, [d[k] = v] on a present key replaces the value in place. *)
Fixpoint od_get (k : string) (d : list (string * nat)) : result nat :=
  match d with
  | [] => Raise KeyError
  | (k', v) :: d' => if decide (k' = k) then Ok v else od_get k d'
  end.

Fixpoint od_set (k : string) (v : nat) (d : list (string * nat)) : list (string * nat) :=
  match d with
  | [] => [(k, v)]
  | (k', v') :: d' => if decide (k' = k) then (k, v) :: d' else (k', v') :: od_set k v d'
  end.

(** [schulze], lines 171-179: the direct-defeat strengths. *)
Definition initial_strengths (h2h : gmap (string * string) nat) (candidates : list string)
  : result (gmap (string * string) nat) :=
  for_each (fun p cand_i =>
    for_each (fun p cand_j =>
      if decide (cand_i ≠ cand_j) then
        a ← dget h2h (cand_i, cand_j);
        b ← dget h2h (cand_j, cand_i);
        if decide (b < a) then
          a' ← dget h2h (cand_i, cand_j); Ok (<[(cand_i, cand_j) := a']> p)
        else Ok (<[(cand_i, cand_j) := 0]> p)
      else Ok p)
      candidates p)
    candidates ∅.

(** [schulze], lines 191-194: one update of [p[(i, j)]] through [k]. *)
Definition relax (cand_k cand_i cand_j : string) (p : gmap (string * string) nat)
  : result (gmap (string * string) nat) :=
  pik ← dget p (cand_i, cand_k);
  pkj ← dget p (cand_k, cand_j);
  let path_strength := Nat.min pik pkj in
  pij ← dget p (cand_i, cand_j);
  Ok (<[(cand_i, cand_j) := Nat.max pij path_strength]> p).

Definition closure_row (candidates : list string) (cand_k cand_i : string)
  (p : gmap (string * string) nat) : result (gmap (string * string) nat) :=
  for_each (fun p cand_j =>
    if decide (cand_j = cand_i ∨ cand_j = cand_k) then Ok p
    else relax cand_k cand_i cand_j p)
    candidates p.

Definition closure_pass (candidates : list string) (cand_k : string)
  (p : gmap (string * string) nat) : result (gmap (string * string) nat) :=
  for_each (fun p cand_i =>
    if decide (cand_i = cand_k) then Ok p
    else closure_row candidates cand_k cand_i p)
    candidates p.

(** [schulze], lines 182-194: the in-place closure loop. *)
Definition closure (candidates : list string) (p : gmap (string * string) nat)
  : result (gmap (string * string) nat) :=
  for_each (fun p cand_k => closure_pass candidates cand_k p) candidates p.

(** [schulze], lines 166-194: the strengths when the closure loop finishes. *)
Definition beatpath_strengths (ballots : list Ballot.t) (candidates : list string)
  : result (gmap (string * string) nat) :=
  h2h ← get_head_to_head_matrix ballots candidates;
  p ← initial_strengths h2h candidates;
  closure candidates p.

(** [schulze], lines 198-203. *)
Definition beatpath_scores (candidates : list string) (p : gmap (string * string) nat)
  : result (list (string * nat)) :=
  let scores := foldl (fun scores candidate => od_set candidate 0 scores) [] candidates in
  for_each (fun scores cand_i =>
    for_each (fun scores cand_j =>
      if decide (cand_i ≠ cand_j) then
        pij ← dget p (cand_i, cand_j);
        pji ← dget p (cand_j, cand_i);
        if decide (pji < pij) then
          s ← od_get cand_i scores; Ok (od_set cand_i (s + 1) scores)
        else Ok scores
      else Ok scores)
      candidates scores)
    candidates scores.

Definition schulze (ballots : list Ballot.t) (candidates : list string)
  : result (list string * list (string * nat)) :=
  p ← beatpath_strengths ballots candidates;
  scores ← beatpath_scores candidates p;
  max_score ← py_max (scores.*2);
  let winners := (filter (fun cs => cs.2 = max_score) scores).*1 in
  Ok (winners, scores).

(** ** tactical_voting.py *)

Definition replace_type (voter_type new_ballot : Ballot.t)
  (original_ballots : list Ballot.t) : list Ballot.t :=
  foldl (fun modified_ballots ballot =>
           if decide (ballot = voter_type) then modified_ballots ++ [new_ballot]
           else modified_ballots ++ [ballot])
        [] original_ballots.

Definition simulate_election_with_modified_ballots {R : Type}
  (original_ballots : list Ballot.t) (voter_type : Ballot.t) (new_ranking : list string)
  (voting_system : list Ballot.t → list string → result R) (candidates : list string)
  : result R :=
  let type_counts := aggregate_ballot_types original_ballots in
  let num_of_type := default 0 (type_counts !! voter_type) in
  if decide (num_of_type = 0) then voting_system original_ballots candidates
  else
    new_ballot ← Ballot.init new_ranking;
    voting_system (replace_type voter_type new_ballot original_ballots) candidates.

(** [min(true_ranking.index(w) for w in winners if w in true_ranking)] *)
Definition best_position (true_ranking winners : list string) : result nat :=
  positions ← gen_map (fun w => index w true_ranking)
                      (filter (fun w => w ∈ true_ranking) winners);
  py_min positions.

Definition is_better_outcome (true_ranking original_winners new_winners : list string)
  : result bool :=
  original_best_position ← best_position true_ranking original_winners;
  new_best_position ← best_position true_ranking new_winners;
  Ok (bool_decide (new_best_position < original_best_position)).

(** [min(iterable, key=key)] on candidates: the first item whose key is least.
    The keys are computed item by item, so the first failing key raises. *)
Fixpoint min_by_from (key : string → result nat) (best : string) (best_key : nat)
  (rest : list string) : result string :=
  match rest with
  | [] => Ok best
  | x :: rest' =>
      k ← key x;
      if decide (k < best_key) then min_by_from key x k rest'
      else min_by_from key best best_key rest'
  end.

Definition py_min_by (key : string → result nat) (l : list string) : result string :=
  match l with
  | [] => Raise (ValueError "min() arg is an empty sequence")
  | x :: rest => k ← key x; min_by_from key x k rest
  end.

(** [_ordinal]; [n % m] is Python's floor remainder, [f"{n}"] the decimal. *)
Definition _ordinal (n : Z) : string :=
  let suffix :=
    if decide (10 ≤ n `mod` 100 ∧ n `mod` 100 ≤ 20)%Z then "th"
    else match (n `mod` 10)%Z with
         | 1%Z => "st"
         | 2%Z => "nd"
         | 3%Z => "rd"
         | _ => "th"
         end in
  (pretty n ++ suffix)%string.

Definition describe_benefit (true_ranking original_winners new_winners : list string)
  : result string :=
  new_best ← py_min_by (fun c => index c true_ranking) new_winners;
  new_position ← index new_best true_ranking;
  orig_best ← py_min_by (fun c => index c true_ranking) original_winners;
  orig_position ← index orig_best true_ranking;
  Ok ("Voter's " ++ _ordinal (Z.of_nat new_position + 1) ++ " choice (" ++ new_best
      ++ ") wins instead of " ++ _ordinal (Z.of_nat orig_position + 1)
      ++ " choice (" ++ orig_best ++ ")")%string.

(** ** experiments.py: [print_line_wrap]

    A Python [str] is a sequence of code points; the function only measures,
    slices and strips it, so the code points stay abstract: [space] is the
    character searched by [rfind(' ')] and repeated by [' ' * indent],
    [isspace] tells the characters that [lstrip()] removes.  The lines passed
    to [print] are collected in order; the [while] loop runs on fuel.  The
    second length test of lines 303-305 repeats the first and is never
    reached with a true condition. *)

Section LineWrap.
Context {char : Type} `{EqDecision char} (space : char) (isspace : char → bool).

(** [s[:n]] and [s[n:]]: a negative [n] counts from the end. *)
Definition py_upto (s : list char) (n : Z) : list char :=
  if decide (0 ≤ n)%Z then take (Z.to_nat n) s
  else take (Z.to_nat (Z.of_nat (length s) + n)) s.

Definition py_from (s : list char) (n : Z) : list char :=
  if decide (0 ≤ n)%Z then drop (Z.to_nat n) s
  else drop (Z.to_nat (Z.of_nat (length s) + n)) s.

(** [s.rfind(' ')]: the highest index of a space, -1 without one. *)
Fixpoint rfind (s : list char) : Z :=
  match s with
  | [] => (-1)%Z
  | x :: s' =>
      let r := rfind s' in
      if decide (r = -1)%Z then (if decide (x = space) then 0%Z else (-1)%Z)
      else (r + 1)%Z
  end.

(** [s.lstrip()] *)
Fixpoint lstrip (s : list char) : list char :=
  match s with
  | [] => []
  | x :: s' => if isspace x then lstrip s' else s
  end.

(** [' ' * indent] *)
Definition pad (indent : Z) : list char := replicate (Z.to_nat indent) space.

(** The [while remaining:] loop of lines 316-327. *)
Fixpoint wrap_remaining (fuel : nat) (indent max_length : Z) (remaining : list char)
  : option (list (list char)) :=
  match fuel with
  | 0 => None
  | S fuel' =>
      if decide (remaining = []) then Some []
      else if decide (Z.of_nat (length remaining) ≤ max_length - indent)%Z
      then Some [pad indent ++ remaining]
      else
        let break_point := rfind (py_upto remaining (max_length - indent)) in
        let break_point :=
          if decide (break_point = -1)%Z then (max_length - indent)%Z
          else break_point in
        lines ← wrap_remaining fuel' indent max_length
                  (lstrip (py_from remaining break_point));
        Some ((pad indent ++ py_upto remaining break_point) :: lines)
  end.

Definition print_line_wrap (fuel : nat) (text : list char) (indent max_length : Z)
  : option (list (list char)) :=
  if decide (Z.of_nat (length text) ≤ max_length)%Z then Some [text]
  else
    let break_point := rfind (py_upto text max_length) in
    let break_point :=
      if decide (break_point = -1)%Z then max_length else break_point in
    lines ← wrap_remaining fuel indent max_length (lstrip (py_from text break_point));
    Some (py_upto text break_point :: lines).

End LineWrap.

(** The characters of a string literal, with the ASCII white space. *)
Definition chars (s : string) : list ascii := String.list_ascii_of_string s.

Definition ascii_isspace (c : ascii) : bool :=
  bool_decide (c ∈ [" "; "009"; "010"; "011"; "012"; "013"]%char).

(** ** Test scenarios of tests.py *)

Definition B (r : list string) : Ballot.t := Ballot.mk r.

Definition ballots_condorcet : list Ballot.t :=
  [B ["A"; "B"; "C"]; B ["A"; "B"; "C"]; B ["A"; "C"; "B"]; B ["B"; "A"; "C"];
   B ["C"; "A"; "B"]].

Definition ballots_cycle : list Ballot.t :=
  [B ["A"; "B"; "C"]; B ["A"; "B"; "C"]; B ["B"; "C"; "A"]; B ["B"; "C"; "A"];
   B ["C"; "A"; "B"]; B ["C"; "A"; "B"]].

Definition ballots_unanimous : list Ballot.t :=
  [B ["A"; "B"; "C"]; B ["A"; "B"; "C"]; B ["A"; "B"; "C"]].

Definition ballots_tactical : list Ballot.t :=
  [B ["A"; "B"; "C"]; B ["A"; "B"; "C"]; B ["B"; "C"; "A"]; B ["B"; "C"; "A"];
   B ["C"; "A"; "B"]].

Definition candidates_abc : list string := ["A"; "B"; "C"].

(** The matrices and strengths of two of the scenarios. *)
Definition h2h_condorcet : gmap (string * string) nat :=
  list_to_map [(("A", "B"), 4); (("B", "A"), 1); (("A", "C"), 4); (("C", "A"), 1);
               (("B", "C"), 3); (("C", "B"), 2)].

Definition strengths_condorcet : gmap (string * string) nat :=
  list_to_map [(("A", "B"), 4); (("B", "A"), 0); (("A", "C"), 4); (("C", "A"), 0);
               (("B", "C"), 3); (("C", "B"), 0)].

Definition h2h_cycle : gmap (string * string) nat :=
  list_to_map [(("A", "B"), 4); (("B", "A"), 2); (("B", "C"), 4); (("C", "B"), 2);
               (("C", "A"), 4); (("A", "C"), 2)].

Definition strengths_cycle : gmap (string * string) nat :=
  list_to_map [(("A", "B"), 4); (("B", "A"), 4); (("B", "C"), 4); (("C", "B"), 4);
               (("C", "A"), 4); (("A", "C"), 4)].

(** * Specification vocabulary *)

(** The election inputs the rules are specified for: a non-empty candidate
    list and ballots, as built by the constructor, that each rank exactly the
    candidates of the list. *)
Definition valid_election (ballots : list Ballot.t) (candidates : list string) : Prop :=
  candidates ≠ [] ∧
  Forall (fun b => Ballot.wf b ∧ Ballot.ranking b ≡ₚ candidates) ballots.

Definition ranks_both (x y : string) (b : Ballot.t) : Prop :=
  x ∈ Ballot.ranking b ∧ y ∈ Ballot.ranking b.

(** Every entry of the matrix is the count of the corresponding pair, and all
    pairs of distinct candidates have an entry. *)
Definition h2h_inv (ballots : list Ballot.t) (D : string → string → Prop)
  (h2h : gmap (string * string) nat) : Prop :=
  (∀ a b n, h2h !! (a, b) = Some n → a ≠ b ∧ count_prefers ballots a b = Ok n) ∧
  (∀ a b, D a b → a ≠ b → is_Some (h2h !! (a, b))).

(** A dictionary over ordered pairs read as a function, 0 off its keys. *)
Definition pf (p : gmap (string * string) nat) (x y : string) : nat :=
  default 0 (p !! (x, y)).

Definition complete_keys (candidates : list string) (p : gmap (string * string) nat)
  : Prop :=
  ∀ x y, x ∈ candidates → y ∈ candidates → x ≠ y → is_Some (p !! (x, y)).

(** The margin of the hop (x, y): count(x, y) when it exceeds count(y, x). *)
Definition margin (h2h : gmap (string * string) nat) (x y : string) : nat :=
  if decide (pf h2h y x < pf h2h x y) then pf h2h x y else 0.

(** The directed path a → via_1 → ... → via_n → b: its hops join distinct
    candidates, its width is the least margin of its hops. *)
Fixpoint hops_distinct (a : string) (via : list string) (b : string) : Prop :=
  match via with
  | [] => a ≠ b
  | x :: via' => a ≠ x ∧ hops_distinct x via' b
  end.

Fixpoint width (h2h : gmap (string * string) nat) (a : string) (via : list string)
  (b : string) : nat :=
  match via with
  | [] => margin h2h a b
  | x :: via' => Nat.min (margin h2h a x) (width h2h x via' b)
  end.

Definition is_path (candidates : list string) (a : string) (via : list string)
  (b : string) : Prop :=
  a ∈ candidates ∧ b ∈ candidates ∧ Forall (fun x => x ∈ candidates) via ∧
  hops_distinct a via b.

(** Every strength is the width of some path. *)
Definition attained (candidates : list string) (h2h p : gmap (string * string) nat)
  : Prop :=
  ∀ x y, x ∈ candidates → y ∈ candidates → x ≠ y →
    ∃ via, is_path candidates x via y ∧ width h2h x via y = pf p x y.

(** No path whose intermediate candidates are among [K] is wider than the
    strength of its end points. *)
Definition bounded (candidates : list string) (h2h : gmap (string * string) nat)
  (K : list string) (p : gmap (string * string) nat) : Prop :=
  ∀ x y via, is_path candidates x via y → x ≠ y → Forall (fun z => z ∈ K) via →
    width h2h x via y ≤ pf p x y.

(** State of pass [k] started from [p0]: the pairs in [D] have been relaxed. *)
Record pass_inv (candidates : list string) (h2h p0 : gmap (string * string) nat)
  (k : string) (D : string → string → Prop) (p : gmap (string * string) nat)
  : Prop := {
  pass_keys : complete_keys candidates p;
  pass_mono : ∀ x y, pf p0 x y ≤ pf p x y;
  pass_col : ∀ x, pf p x k = pf p0 x k;
  pass_row : ∀ y, pf p k y = pf p0 k y;
  pass_done : ∀ x y, D x y → Nat.min (pf p0 x k) (pf p0 k y) ≤ pf p x y;
  pass_attained : attained candidates h2h p
}.

(** How many candidates [c] beats on beatpath strengths. *)
Definition wins (p : gmap (string * string) nat) (candidates : list string) (c : string)
  : nat :=
  length (filter (fun j => c ≠ j ∧ pf p j c < pf p c j) candidates).

Definition occurrences (c : string) (l : list string) : nat :=
  length (filter (fun i => i = c) l).

(** [m] is the least position of [true_ranking] held by a member of [winners]. *)
Definition least_position (true_ranking winners : list string) (m : nat) : Prop :=
  (∃ w, w ∈ winners ∧ true_ranking !! m = Some w) ∧
  (∀ m' w', w' ∈ winners → true_ranking !! m' = Some w' → m ≤ m').

(** [sum(type_counts.values())] *)
Definition total_count (type_counts : gmap Ballot.t nat) : nat :=
  map_fold (fun _ count acc => count + acc) 0 type_counts.

#[global] Instance exn_eq_dec : EqDecision exn.
Proof. solve_decision. Defined.

#[global] Instance result_eq_dec {A : Type} `{EqDecision A} : EqDecision (result A).
Proof. solve_decision. Defined.

(** The ballots that rank [x] above [y]. *)
Definition supporters (ballots : list Ballot.t) (x y : string) : list Ballot.t :=
  filter (fun b => Ballot.prefers b x y = Ok true) ballots.

(** The ballots whose first choice is [c]. *)
Definition first_choices (ballots : list Ballot.t) (c : string) : list Ballot.t :=
  filter (fun b => head (Ballot.ranking b) = Some c) ballots.

(** Closed decidable facts about concrete scenarios, settled by evaluation. *)
Ltac by_evaluation :=
  lazymatch goal with
  | |- ¬ ?P => apply (bool_decide_eq_false_1 P); vm_compute; reflexivity
  | |- ?P => apply (bool_decide_unpack P); vm_compute; exact I
  end.

(** Membership in a concrete list, case by case. *)
Ltac by_evaluation_in H :=
  repeat (apply elem_of_cons in H as [->|H]; [by_evaluation|]);
  by apply elem_of_nil in H.

(** * The scenarios of tests.py, by evaluation *)

Example head_to_head_condorcet :
  (h2h ← get_head_to_head_matrix ballots_condorcet candidates_abc;
   Ok (h2h !! ("A", "B"), h2h !! ("B", "A"), h2h !! ("A", "C"), h2h !! ("C", "A")))
  = Ok (Some 4, Some 1, Some 4, Some 1).
Proof. vm_compute. reflexivity. Qed.

Example head_to_head_cycle :
  (h2h ← get_head_to_head_matrix ballots_cycle candidates_abc;
   Ok (h2h !! ("A", "B"), h2h !! ("B", "C"), h2h !! ("C", "A")))
  = Ok (Some 4, Some 4, Some 4).
Proof. vm_compute. reflexivity. Qed.

Example schulze_condorcet :
  schulze ballots_condorcet candidates_abc
  = Ok (["A"], [("A", 2); ("B", 1); ("C", 0)]).
Proof. vm_compute. reflexivity. Qed.

Example schulze_cycle :
  schulze ballots_cycle candidates_abc
  = Ok (["A"; "B"; "C"], [("A", 0); ("B", 0); ("C", 0)]).
Proof. vm_compute. reflexivity. Qed.

Example schulze_unanimous :
  schulze ballots_unanimous candidates_abc
  = Ok (["A"], [("A", 2); ("B", 1); ("C", 0)]).
Proof. vm_compute. reflexivity. Qed.

Example schulze_no_candidates :
  schulze [] [] = Raise (ValueError "max() arg is an empty sequence").
Proof. vm_compute. reflexivity. Qed.

Example simulate_replaces_type :
  simulate_election_with_modified_ballots
    ballots_tactical (B ["A"; "B"; "C"]) ["C"; "B"; "A"] schulze candidates_abc
  = schulze [B ["C"; "B"; "A"]; B ["C"; "B"; "A"]; B ["B"; "C"; "A"];
             B ["B"; "C"; "A"]; B ["C"; "A"; "B"]] candidates_abc.
Proof. vm_compute. reflexivity. Qed.

(** * Reasoning about loops and the Python built-ins *)

Section Loops.
Context {S A : Type} (body : S → A → result S).

Lemma for_each_app (xs ys : list A) (s : S) :
  for_each body (xs ++ ys) s = s' ← for_each body xs s; for_each body ys s'.
Proof.
  revert s. induction xs as [|x xs IH]; intros s; simpl; [done|].
  destruct (body s x) as [s1|e]; simpl; [apply IH | done].
Qed.

(** Total correctness: an invariant indexed by the items already visited that
    every iteration re-establishes without raising. *)
Lemma for_each_total (P : list A → S → Prop) (xs : list A) (s0 : S) :
  P [] s0 →
  (∀ done x s, (∃ rest, xs = done ++ x :: rest) → P done s →
     ∃ s', body s x = Ok s' ∧ P (done ++ [x]) s') →
  ∃ s', for_each body xs s0 = Ok s' ∧ P xs s'.
Proof.
  intros H0 Hstep.
  assert (Hgen : ∀ rest done s, xs = done ++ rest → P done s →
            ∃ s', for_each body rest s = Ok s' ∧ P xs s').
  { induction rest as [|x rest IH]; intros done s Hxs HP.
    - rewrite app_nil_r in Hxs. subst done. by exists s.
    - destruct (Hstep done x s) as (s1 & Hb & HP1); [by exists rest | done |].
      simpl. rewrite Hb. simpl.
      apply (IH (done ++ [x])); [by rewrite <- app_assoc | done]. }
  by apply (Hgen xs []).
Qed.

(** Partial correctness: what a loop that did finish has established. *)
Lemma for_each_partial (P : list A → S → Prop) (xs : list A) (s0 s' : S) :
  for_each body xs s0 = Ok s' →
  P [] s0 →
  (∀ done x s s1, (∃ rest, xs = done ++ x :: rest) → P done s →
     body s x = Ok s1 → P (done ++ [x]) s1) →
  P xs s'.
Proof.
  intros Hrun H0 Hstep.
  assert (Hgen : ∀ rest done s, xs = done ++ rest → P done s →
            for_each body rest s = Ok s' → P xs s').
  { induction rest as [|x rest IH]; intros done s Hxs HP Hr.
    - rewrite app_nil_r in Hxs. subst done. simpl in Hr. congruence.
    - simpl in Hr. destruct (body s x) as [s1|e] eqn:Hb; simpl in Hr; [|done].
      apply (IH (done ++ [x]) s1); [by rewrite <- app_assoc | | done].
      apply (Hstep done x s s1); [by exists rest | done | done]. }
  by apply (Hgen xs [] s0).
Qed.

Lemma for_each_Ok (xs : list A) (s0 : S) :
  (∀ x s, x ∈ xs → ∃ s', body s x = Ok s') → ∃ s', for_each body xs s0 = Ok s'.
Proof.
  intros Hstep.
  destruct (for_each_total (fun _ _ => True) xs s0) as (s' & Hs' & _);
    [done | | by exists s'].
  intros done x s [rest ->] _. destruct (Hstep x s) as [s' Hs']; [|by exists s'].
  apply elem_of_app. right. by left.
Qed.

End Loops.

Lemma bind_Ok {A B : Type} (m : result A) (f : A → result B) (b : B) :
  (m ≫= f) = Ok b → ∃ a, m = Ok a ∧ f a = Ok b.
Proof. destruct m as [a|e]; simpl; [eauto | done]. Qed.

Lemma index_Ok (x : string) (l : list string) :
  x ∈ l →
  ∃ n, index x l = Ok n ∧ l !! n = Some x ∧ ∀ m, l !! m = Some x → n ≤ m.
Proof.
  induction l as [|y l IH]; intros Hin; [by apply elem_of_nil in Hin|].
  simpl. destruct (decide (y = x)) as [->|Hne].
  - exists 0. split_and!; [done | done | lia].
  - apply elem_of_cons in Hin as [->|Hin]; [done|].
    destruct (IH Hin) as (n & Hn & Hl & Hmin). exists (S n).
    rewrite Hn. split_and!; [done | done |].
    intros [|m] Hm; simpl in Hm; [congruence|]. specialize (Hmin m Hm). lia.
Qed.

Lemma index_lookup (x : string) (l : list string) (n : nat) :
  index x l = Ok n → l !! n = Some x.
Proof.
  revert n. induction l as [|y l IH]; intros n; simpl; [done|].
  destruct (decide (y = x)) as [->|Hne].
  - by intros [= <-].
  - intros H. apply bind_Ok in H as (m & Hm & [= <-]). by apply IH.
Qed.

Lemma foldl_min_spec (x : nat) (l : list nat) :
  foldl Nat.min x l ∈ x :: l ∧ ∀ y, y ∈ x :: l → foldl Nat.min x l ≤ y.
Proof.
  revert x. induction l as [|z l IH]; intros x; simpl.
  - split; [by left|]. intros y Hy. apply list_elem_of_singleton in Hy. lia.
  - destruct (IH (Nat.min x z)) as [Hin Hle]. split.
    + apply elem_of_cons in Hin as [Heq|Hin].
      * rewrite Heq. destruct (Nat.min_spec x z) as [[_ ->]|[_ ->]];
          [by left | right; by left].
      * right; by right.
    + intros y Hy. apply elem_of_cons in Hy as [->|Hy].
      * pose proof (Hle (Nat.min x z) (ltac:(by left))). lia.
      * apply elem_of_cons in Hy as [->|Hy].
        -- pose proof (Hle (Nat.min x z) (ltac:(by left))). lia.
        -- apply Hle. by right.
Qed.

Lemma foldl_max_spec (x : nat) (l : list nat) :
  foldl Nat.max x l ∈ x :: l ∧ ∀ y, y ∈ x :: l → y ≤ foldl Nat.max x l.
Proof.
  revert x. induction l as [|z l IH]; intros x; simpl.
  - split; [by left|]. intros y Hy. apply list_elem_of_singleton in Hy. lia.
  - destruct (IH (Nat.max x z)) as [Hin Hle]. split.
    + apply elem_of_cons in Hin as [Heq|Hin].
      * rewrite Heq. destruct (Nat.max_spec x z) as [[_ ->]|[_ ->]];
          [right; by left | by left].
      * right; by right.
    + intros y Hy. apply elem_of_cons in Hy as [->|Hy].
      * pose proof (Hle (Nat.max x z) (ltac:(by left))). lia.
      * apply elem_of_cons in Hy as [->|Hy].
        -- pose proof (Hle (Nat.max x z) (ltac:(by left))). lia.
        -- apply Hle. by right.
Qed.

Lemma size_list_to_set_cons (x : string) (l : list string) :
  size (list_to_set (x :: l) : gset string)
  = if decide (x ∈ l) then size (list_to_set l : gset string)
    else S (size (list_to_set l : gset string)).
Proof.
  rewrite list_to_set_cons. destruct (decide (x ∈ l)) as [Hin|Hnin].
  - f_equal. apply subseteq_union_1_L, singleton_subseteq_l.
    by apply elem_of_list_to_set.
  - rewrite size_union, size_singleton; [done|].
    apply disjoint_singleton_l. by rewrite elem_of_list_to_set.
Qed.

Lemma size_list_to_set_le (l : list string) :
  size (list_to_set l : gset string) ≤ length l.
Proof.
  induction l as [|x l IH]; [by rewrite list_to_set_nil, size_empty|].
  rewrite size_list_to_set_cons. simpl. destruct (decide (x ∈ l)); lia.
Qed.

Lemma length_size_NoDup (l : list string) :
  length l = size (list_to_set l : gset string) ↔ NoDup l.
Proof.
  split; [|intros; symmetry; by apply size_list_to_set].
  induction l as [|x l IH]; [constructor|].
  rewrite size_list_to_set_cons. simpl.
  intros Hlen. pose proof (size_list_to_set_le l) as Hle.
  destruct (decide (x ∈ l)) as [Hin|Hnin]; [lia|].
  constructor; [done|]. apply IH. lia.
Qed.

(** * ballot.py: construction and preference queries *)

Lemma init_Ok (l : list string) :
  l ≠ [] → NoDup l → Ballot.init l = Ok (Ballot.mk l).
Proof.
  intros Hne Hnd. unfold Ballot.init.
  destruct (decide (l = [])) as [?|_]; [done|].
  destruct (decide (length l ≠ size (list_to_set l : gset string))) as [Hd|_]; [|done].
  destruct Hd. by apply length_size_NoDup.
Qed.

Lemma init_Raise (l : list string) :
  l = [] ∨ ¬ NoDup l → ∃ e, Ballot.init l = Raise e ∧ Ballot.InvalidBallot e.
Proof.
  intros Hbad. unfold Ballot.init, Ballot.InvalidBallot.
  destruct (decide (l = [])) as [?|Hne]; [eauto|].
  destruct (decide (length l ≠ size (list_to_set l : gset string))) as [Hd|Hd]; [eauto|].
  destruct Hbad as [?|Hdup]; [done|]. destruct Hdup.
  apply length_size_NoDup. by apply dec_stable.
Qed.

Lemma init_wf (l : list string) (b : Ballot.t) :
  Ballot.init l = Ok b → Ballot.wf b ∧ Ballot.ranking b = l.
Proof.
  unfold Ballot.init, Ballot.wf.
  destruct (decide (l = [])) as [?|Hne]; [done|].
  destruct (decide (length l ≠ size (list_to_set l : gset string))) as [Hd|Hd]; [done|].
  intros [= <-]. simpl. split_and!; [done | | done].
  apply length_size_NoDup. by apply dec_stable.
Qed.

(** C9. Constructing a ballot raises exactly when the sequence is empty or has
    a duplicate, the error is then an InvalidBallot one, and every other
    sequence is stored unchanged as the ranking of the new ballot. *)
Theorem init_spec (l : list string) :
  ((∃ e, Ballot.init l = Raise e ∧ Ballot.InvalidBallot e) ↔ (l = [] ∨ ¬ NoDup l)) ∧
  (∀ e, Ballot.init l = Raise e → Ballot.InvalidBallot e) ∧
  (¬ (l = [] ∨ ¬ NoDup l) →
     ∃ b, Ballot.init l = Ok b ∧ Ballot.ranking b = l).
Proof.
  destruct (decide (l = [] ∨ ¬ NoDup l)) as [Hbad|Hgood].
  - destruct (init_Raise l Hbad) as (e & He & Hinv).
    split_and!; [split; eauto | | done].
    intros e' He'. rewrite He in He'. by injection He' as <-.
  - assert (l ≠ [] ∧ NoDup l) as [Hne Hnd].
    { split; [tauto|]. apply dec_stable. tauto. }
    pose proof (init_Ok l Hne Hnd) as HOk.
    split_and!.
    + split; [|done]. intros (e & He & _). congruence.
    + intros e He. congruence.
    + intros _. by exists (Ballot.mk l).
Qed.

Lemma init_spec_witness :
  (∃ b, Ballot.init ["A"; "B"; "C"] = Ok b ∧ Ballot.ranking b = ["A"; "B"; "C"]) ∧
  (∃ e, Ballot.init ["A"; "B"; "A"] = Raise e ∧ Ballot.InvalidBallot e) ∧
  (∃ e, Ballot.init [] = Raise e ∧ Ballot.InvalidBallot e).
Proof.
  split_and!.
  - apply (init_spec ["A"; "B"; "C"]).
    intros [?|Hd]; [done|]. apply Hd. by_evaluation.
  - apply (init_spec ["A"; "B"; "A"]). right.
    by_evaluation.
  - apply (init_spec []). by left.
Defined.

Lemma prefers_Ok (b : Ballot.t) (x y : string) :
  x ∈ Ballot.ranking b → y ∈ Ballot.ranking b →
  ∃ i j, index x (Ballot.ranking b) = Ok i ∧ index y (Ballot.ranking b) = Ok j ∧
         Ballot.prefers b x y = Ok (bool_decide (i < j)).
Proof.
  intros Hx Hy. unfold Ballot.prefers.
  destruct (index_Ok x _ Hx) as (i & Hi & _), (index_Ok y _ Hy) as (j & Hj & _).
  exists i, j. rewrite !decide_False by (intros ?; done).
  rewrite Hi, Hj. done.
Qed.

Lemma prefers_Raise (b : Ballot.t) (x y : string) :
  x ∉ Ballot.ranking b ∨ y ∉ Ballot.ranking b →
  ∃ e, Ballot.prefers b x y = Raise e ∧ Ballot.UnknownCandidate e.
Proof.
  intros Habs. unfold Ballot.prefers, Ballot.UnknownCandidate.
  destruct (decide (x ∉ Ballot.ranking b)) as [?|Hx]; [eauto|].
  destruct (decide (y ∉ Ballot.ranking b)) as [?|Hy]; [eauto|].
  tauto.
Qed.

(** C8. On a ballot built by the constructor, [prefers a b] with both
    candidates ranked answers whether [a] stands at an earlier position than
    [b]; it raises, and then an UnknownCandidate error, exactly when one of
    the two is not ranked. *)
Theorem prefers_spec (l : list string) (b : Ballot.t) (x y : string) :
  Ballot.init l = Ok b →
  (x ∈ Ballot.ranking b → y ∈ Ballot.ranking b →
     ∃ r, Ballot.prefers b x y = Ok r ∧
          (r = true ↔ ∃ i j, Ballot.ranking b !! i = Some x ∧
                              Ballot.ranking b !! j = Some y ∧ i < j)) ∧
  ((∃ e, Ballot.prefers b x y = Raise e ∧ Ballot.UnknownCandidate e) ↔
     (x ∉ Ballot.ranking b ∨ y ∉ Ballot.ranking b)) ∧
  (∀ e, Ballot.prefers b x y = Raise e → Ballot.UnknownCandidate e).
Proof.
  intros Hinit. apply init_wf in Hinit as [[_ Hnd] _].
  assert (Hboth : x ∈ Ballot.ranking b → y ∈ Ballot.ranking b →
            ∃ r, Ballot.prefers b x y = Ok r ∧
              (r = true ↔ ∃ i j, Ballot.ranking b !! i = Some x ∧
                                  Ballot.ranking b !! j = Some y ∧ i < j)).
  { intros Hx Hy. destruct (prefers_Ok b x y Hx Hy) as (i & j & Hi & Hj & Hp).
    apply index_lookup in Hi, Hj. exists (bool_decide (i < j)). split; [done|].
    rewrite bool_decide_eq_true. split; [by exists i, j|].
    intros (i' & j' & Hi' & Hj' & Hlt).
    by rewrite (NoDup_lookup _ _ _ _ Hnd Hi Hi'), (NoDup_lookup _ _ _ _ Hnd Hj Hj'). }
  split_and!; [done | |].
  - split; [|apply prefers_Raise].
    intros (e & He & _).
    destruct (decide (x ∈ Ballot.ranking b)) as [Hx|Hx]; [|by left].
    destruct (decide (y ∈ Ballot.ranking b)) as [Hy|Hy]; [|by right].
    destruct (Hboth Hx Hy) as (r & Hr & _). congruence.
  - intros e He.
    destruct (decide (x ∈ Ballot.ranking b)) as [Hx|Hx];
      [destruct (decide (y ∈ Ballot.ranking b)) as [Hy|Hy]|].
    + destruct (Hboth Hx Hy) as (r & Hr & _). congruence.
    + destruct (prefers_Raise b x y (or_intror Hy)) as (e' & He' & HU). congruence.
    + destruct (prefers_Raise b x y (or_introl Hx)) as (e' & He' & HU). congruence.
Qed.

Lemma prefers_spec_witness :
  (∃ r, Ballot.prefers (B ["A"; "B"; "C"]) "A" "C" = Ok r ∧
        (r = true ↔ ∃ i j, ["A"; "B"; "C"] !! i = Some "A" ∧
                            ["A"; "B"; "C"] !! j = Some "C" ∧ i < j)) ∧
  (∃ e, Ballot.prefers (B ["A"; "B"; "C"]) "A" "X" = Raise e ∧
        Ballot.UnknownCandidate e).
Proof.
  pose proof (prefers_spec ["A"; "B"; "C"] (B ["A"; "B"; "C"])) as Hs.
  split.
  - apply (Hs "A" "C"); [reflexivity | |].
    + by_evaluation.
    + by_evaluation.
  - apply (Hs "A" "X"); [reflexivity|]. right.
    by_evaluation.
Defined.

(** * algorithms.py: the head-to-head matrix *)

Lemma prefers_flip (b : Ballot.t) (x y : string) :
  x ∈ Ballot.ranking b → y ∈ Ballot.ranking b → x ≠ y →
  ∃ r, Ballot.prefers b x y = Ok r ∧ Ballot.prefers b y x = Ok (negb r).
Proof.
  intros Hx Hy Hne.
  destruct (prefers_Ok b x y Hx Hy) as (i & j & Hi & Hj & Hxy).
  destruct (prefers_Ok b y x Hy Hx) as (j' & i' & Hj' & Hi' & Hyx).
  assert (j' = j) as -> by congruence. assert (i' = i) as -> by congruence.
  apply index_lookup in Hi, Hj.
  assert (i ≠ j) by (intros ->; congruence).
  exists (bool_decide (i < j)). split; [done|]. rewrite Hyx. f_equal.
  destruct (decide (i < j)) as [Hlt|Hge].
  - rewrite (bool_decide_eq_true_2 _ Hlt). apply bool_decide_eq_false_2. lia.
  - rewrite (bool_decide_eq_false_2 _ Hge). apply bool_decide_eq_true_2. lia.
Qed.

Lemma count_prefers_Ok (ballots : list Ballot.t) (x y : string) :
  Forall (ranks_both x y) ballots → ∃ n, count_prefers ballots x y = Ok n.
Proof.
  intros Hall. unfold count_prefers.
  destruct (for_each_total
    (fun count ballot => pr ← Ballot.prefers ballot x y;
                         Ok (if pr : bool then count + 1 else count))
    (fun _ _ => True) ballots 0) as (n & Hn & _); [done | | by exists n].
  intros done b c [rest ->] _.
  apply Forall_app in Hall as [_ Hall]. apply Forall_cons in Hall as [[Hx Hy] _].
  destruct (prefers_Ok b x y Hx Hy) as (i & j & _ & _ & ->). simpl. eauto.
Qed.

Lemma count_prefers_sum (ballots : list Ballot.t) (x y : string) :
  Forall (ranks_both x y) ballots → x ≠ y →
  ∃ n m, count_prefers ballots x y = Ok n ∧ count_prefers ballots y x = Ok m ∧
         n + m = length ballots.
Proof.
  intros Hall Hne. unfold count_prefers.
  assert (Hgen : ∀ c d, ∃ n m,
    for_each (fun count ballot => pr ← Ballot.prefers ballot x y;
                Ok (if pr : bool then count + 1 else count)) ballots c = Ok n ∧
    for_each (fun count ballot => pr ← Ballot.prefers ballot y x;
                Ok (if pr : bool then count + 1 else count)) ballots d = Ok m ∧
    n + m = c + d + length ballots).
  { induction Hall as [|b bs [Hx Hy] _ IH]; intros c d.
    - exists c, d. simpl. split_and!; [done | done | lia].
    - destruct (prefers_flip b x y Hx Hy Hne) as (r & Hxy & Hyx).
      simpl. rewrite Hxy, Hyx. simpl.
      destruct (IH (if r then c + 1 else c) (if negb r then d + 1 else d))
        as (n & m & Hn & Hm & Hsum).
      exists n, m. split_and!; [done | done |]. destruct r; simpl in *; lia. }
  destruct (Hgen 0 0) as (n & m & ? & ? & ?). exists n, m. split_and!; [done..|lia].
Qed.

Lemma get_head_to_head_matrix_inv (ballots : list Ballot.t) (candidates : list string)
  (h2h : gmap (string * string) nat) :
  get_head_to_head_matrix ballots candidates = Ok h2h →
  h2h_inv ballots (fun a b => a ∈ candidates ∧ b ∈ candidates) h2h.
Proof.
  intros Hrun. unfold get_head_to_head_matrix in Hrun.
  eapply (for_each_partial _
    (fun done m => h2h_inv ballots (fun a b => a ∈ done ∧ b ∈ candidates) m))
    in Hrun; [exact Hrun | |].
  - split; [intros a b n Hl; by rewrite lookup_empty in Hl|].
    intros a b [Ha _]. by apply elem_of_nil in Ha.
  - clear Hrun h2h. intros done a m m1 _ Hinv Hrow.
    eapply (for_each_partial _
      (fun doneb m => h2h_inv ballots
         (fun a' b => (a' ∈ done ∧ b ∈ candidates) ∨ (a' = a ∧ b ∈ doneb)) m))
      in Hrow.
    + destruct Hrow as [Hs Hc]. split; [done|].
      intros a' b [Ha' Hb] Hne. apply Hc; [|done].
      apply elem_of_app in Ha' as [?|Ha']; [by left|].
      apply list_elem_of_singleton in Ha'. by right.
    + destruct Hinv as [Hs Hc]. split; [done|].
      intros a' b [?|[_ Hb]] Hne; [by apply Hc | by apply elem_of_nil in Hb].
    + clear. intros doneb b m m1 _ [Hs Hc] Hstep.
      destruct (decide (a = b)) as [->|Hab].
      * injection Hstep as <-. split; [done|].
        intros a' b' [?|[-> Hb']] Hne; [apply Hc; [by left|done]|].
        apply elem_of_app in Hb' as [?|Hb']; [apply Hc; [by right|done]|].
        by apply list_elem_of_singleton in Hb'.
      * apply bind_Ok in Hstep as (n & Hn & [= <-]). split.
        -- intros a' b' n' Hl. destruct (decide ((a, b) = (a', b'))) as [[= <- <-]|Hk].
           ++ rewrite lookup_insert_eq in Hl. injection Hl as <-. done.
           ++ rewrite lookup_insert_ne in Hl by done. by apply Hs.
        -- intros a' b' HD Hne.
           destruct (decide ((a, b) = (a', b'))) as [[= <- <-]|Hk];
             [rewrite lookup_insert_eq; eauto|].
           rewrite lookup_insert_ne by done.
           destruct HD as [?|[-> Hb']]; [apply Hc; [by left|done]|].
           apply elem_of_app in Hb' as [?|Hb']; [apply Hc; [by right|done]|].
           apply list_elem_of_singleton in Hb'. by subst.
Qed.

Lemma get_head_to_head_matrix_Ok (ballots : list Ballot.t) (candidates : list string) :
  Forall (fun b => ∀ c, c ∈ candidates → c ∈ Ballot.ranking b) ballots →
  ∃ h2h, get_head_to_head_matrix ballots candidates = Ok h2h.
Proof.
  intros Hall. unfold get_head_to_head_matrix.
  apply for_each_Ok. intros a m Ha. apply for_each_Ok. intros b m' Hb.
  destruct (decide (a = b)); [eauto|].
  destruct (count_prefers_Ok ballots a b) as (cnt & ->); [|simpl; eauto].
  eapply Forall_impl; [exact Hall|]. intros bl Hbl. split; by apply Hbl.
Qed.

(** C3. When every ballot is a strict total order ranking both [x] and [y],
    the two counts of the pair add up to the number of ballots; these counts
    are the entries of the pair in any matrix the builder returns, and the
    builder does return one when the ballots rank every listed candidate. *)
Theorem head_to_head_total (ballots : list Ballot.t) (x y : string) :
  Forall (fun b => Ballot.wf b ∧ ranks_both x y b) ballots → x ≠ y →
  ∃ n m, count_prefers ballots x y = Ok n ∧ count_prefers ballots y x = Ok m ∧
         n + m = length ballots ∧
         ∀ candidates, x ∈ candidates → y ∈ candidates →
           (∀ h2h, get_head_to_head_matrix ballots candidates = Ok h2h →
                   h2h !! (x, y) = Some n ∧ h2h !! (y, x) = Some m) ∧
           (Forall (fun b => ∀ c, c ∈ candidates → c ∈ Ballot.ranking b) ballots →
            ∃ h2h, get_head_to_head_matrix ballots candidates = Ok h2h).
Proof.
  intros Hall Hne.
  destruct (count_prefers_sum ballots x y) as (n & m & Hn & Hm & Hsum); [|done|].
  { eapply Forall_impl; [exact Hall|]. by intros b [_ ?]. }
  exists n, m. split_and!; [done..|].
  intros candidates Hx Hy. split; [|apply get_head_to_head_matrix_Ok].
  intros h2h Hrun.
  apply get_head_to_head_matrix_inv in Hrun as [Hs Hc].
  destruct (Hc x y) as [n' Hn']; [done..|].
  destruct (Hc y x) as [m' Hm']; [done..|].
  destruct (Hs _ _ _ Hn') as [_ ?], (Hs _ _ _ Hm') as [_ ?].
  split; congruence.
Qed.

Lemma head_to_head_total_witness :
  ∃ n m, count_prefers ballots_condorcet "A" "B" = Ok n ∧
         count_prefers ballots_condorcet "B" "A" = Ok m ∧
         n + m = length ballots_condorcet ∧
         ∀ candidates, "A" ∈ candidates → "B" ∈ candidates →
           (∀ h2h, get_head_to_head_matrix ballots_condorcet candidates = Ok h2h →
                   h2h !! ("A", "B") = Some n ∧ h2h !! ("B", "A") = Some m) ∧
           (Forall (fun b => ∀ c, c ∈ candidates → c ∈ Ballot.ranking b)
                   ballots_condorcet →
            ∃ h2h, get_head_to_head_matrix ballots_condorcet candidates = Ok h2h).
Proof.
  apply (head_to_head_total ballots_condorcet "A" "B"); [|done].
  unfold Ballot.wf, ranks_both. by_evaluation.
Defined.

(** * tactical_voting.py *)

Lemma gen_map_index (true_ranking ws : list string) :
  Forall (fun w => w ∈ true_ranking) ws →
  ∃ ps, gen_map (fun w => index w true_ranking) ws = Ok ps ∧
        Forall2 (fun w p => index w true_ranking = Ok p) ws ps.
Proof.
  induction 1 as [|w ws Hw _ (ps & Hps & Hall)]; [by exists []|].
  destruct (index_Ok w _ Hw) as (p & Hp & _).
  exists (p :: ps). simpl. rewrite Hp. simpl. rewrite Hps. split; [done|].
  by constructor.
Qed.

Lemma best_position_spec (true_ranking winners : list string) :
  winners ≠ [] → (∀ w, w ∈ winners → w ∈ true_ranking) →
  ∃ m, best_position true_ranking winners = Ok m ∧
       least_position true_ranking winners m.
Proof.
  intros Hne Hsub. unfold best_position.
  assert (filter (fun w => w ∈ true_ranking) winners = winners) as ->.
  { clear Hne. induction winners as [|w ws IH]; [done|].
    rewrite filter_cons_True by (apply Hsub; by left).
    f_equal. apply IH. intros w' Hw'. apply Hsub. by right. }
  destruct (gen_map_index true_ranking winners) as (ps & -> & Hall).
  { apply Forall_forall. intros w Hw. by apply Hsub. }
  simpl. destruct Hall as [|w p ws ps Hp Hall]; [done|]. simpl.
  exists (foldl Nat.min p ps). split; [done|].
  destruct (foldl_min_spec p ps) as [Hin Hle].
  assert (Hall' : Forall2 (fun w p => index w true_ranking = Ok p) (w :: ws) (p :: ps))
    by by constructor.
  split.
  - apply list_elem_of_lookup in Hin as [i Hi].
    destruct (Forall2_lookup_r _ _ _ _ _ Hall' Hi) as (w0 & Hw0 & Hidx).
    exists w0. split; [by eapply list_elem_of_lookup_2|]. by apply index_lookup.
  - intros m' w' Hw' Hm'.
    apply list_elem_of_lookup in Hw' as [i Hi].
    destruct (Forall2_lookup_l _ _ _ _ _ Hall' Hi) as (p0 & Hp0 & Hidx).
    destruct (index_Ok w' true_ranking) as (n & Hn & _ & Hmin);
      [by eapply list_elem_of_lookup_2|].
    assert (n = p0) as -> by congruence.
    specialize (Hle p0 ltac:(by eapply list_elem_of_lookup_2)).
    specialize (Hmin m' Hm'). lia.
Qed.

(** C5. With non-empty winner lists drawn from the true ranking,
    [is_better_outcome] answers whether the least true-ranking position held
    by a new winner is strictly below the least one held by an original
    winner. *)
Theorem is_better_outcome_spec (true_ranking original_winners new_winners : list string) :
  original_winners ≠ [] → new_winners ≠ [] →
  (∀ w, w ∈ original_winners → w ∈ true_ranking) →
  (∀ w, w ∈ new_winners → w ∈ true_ranking) →
  ∃ orig new r,
    least_position true_ranking original_winners orig ∧
    least_position true_ranking new_winners new ∧
    is_better_outcome true_ranking original_winners new_winners = Ok r ∧
    (r = true ↔ new < orig).
Proof.
  intros Ho Hn Hso Hsn.
  destruct (best_position_spec true_ranking original_winners Ho Hso) as (orig & Hbo & Hlo).
  destruct (best_position_spec true_ranking new_winners Hn Hsn) as (new & Hbn & Hln).
  exists orig, new, (bool_decide (new < orig)).
  unfold is_better_outcome. rewrite Hbo, Hbn. simpl.
  split_and!; [done | done | done |]. apply bool_decide_eq_true.
Qed.

Lemma is_better_outcome_spec_witness :
  ∃ orig new r,
    least_position ["A"; "B"; "C"] ["C"; "B"] orig ∧
    least_position ["A"; "B"; "C"] ["A"; "C"] new ∧
    is_better_outcome ["A"; "B"; "C"] ["C"; "B"] ["A"; "C"] = Ok r ∧
    (r = true ↔ new < orig).
Proof.
  apply (is_better_outcome_spec ["A"; "B"; "C"] ["C"; "B"] ["A"; "C"]);
    [done | done | |].
  - intros w Hw. by_evaluation_in Hw.
  - intros w Hw. by_evaluation_in Hw.
Defined.

Lemma aggregate_ballot_types_absent (ballots : list Ballot.t) (voter_type : Ballot.t) :
  default 0 (aggregate_ballot_types ballots !! voter_type) = 0 ↔ voter_type ∉ ballots.
Proof.
  unfold aggregate_ballot_types.
  assert (Hgen : ∀ m : gmap Ballot.t nat,
    default 0 (foldl (fun type_counts ballot =>
       <[ballot := default 0 (type_counts !! ballot) + 1]> type_counts) m ballots
       !! voter_type) = 0 ↔ default 0 (m !! voter_type) = 0 ∧ voter_type ∉ ballots).
  { induction ballots as [|b bs IH]; intros m; simpl.
    - split; [intros ?; split; [done|apply not_elem_of_nil] | by intros [? _]].
    - rewrite IH, not_elem_of_cons.
      destruct (decide (b = voter_type)) as [->|Hne].
      + rewrite lookup_insert_eq. simpl. split; [lia | intros (_ & ? & _); done].
      + rewrite lookup_insert_ne by done. split; [intros [? ?]|intros (? & ? & ?)];
          split_and!; done. }
  rewrite Hgen, lookup_empty. simpl. tauto.
Qed.

Lemma simulate_absent {R : Type} (original_ballots : list Ballot.t)
  (voter_type : Ballot.t) (new_ranking : list string)
  (voting_system : list Ballot.t → list string → result R) (candidates : list string) :
  voter_type ∉ original_ballots →
  simulate_election_with_modified_ballots
    original_ballots voter_type new_ranking voting_system candidates
  = voting_system original_ballots candidates.
Proof.
  intros Habs. unfold simulate_election_with_modified_ballots.
  apply aggregate_ballot_types_absent in Habs. by rewrite decide_True.
Qed.

Lemma simulate_present {R : Type} (original_ballots : list Ballot.t)
  (voter_type : Ballot.t) (new_ranking : list string)
  (voting_system : list Ballot.t → list string → result R) (candidates : list string) :
  voter_type ∈ original_ballots →
  simulate_election_with_modified_ballots
    original_ballots voter_type new_ranking voting_system candidates
  = new_ballot ← Ballot.init new_ranking;
    voting_system (replace_type voter_type new_ballot original_ballots) candidates.
Proof.
  intros Hin. unfold simulate_election_with_modified_ballots.
  rewrite decide_False; [done|].
  rewrite aggregate_ballot_types_absent. by intros ?.
Qed.

(** C6. When no ballot of the collection equals the voter type, the
    simulation returns what the voting rule returns on the original
    collection. *)
Theorem simulate_absent_type_is_honest {R : Type} (original_ballots : list Ballot.t)
  (voter_type : Ballot.t) (new_ranking : list string)
  (voting_system : list Ballot.t → list string → result R) (candidates : list string) :
  (∀ ballot, ballot ∈ original_ballots → ballot ≠ voter_type) →
  simulate_election_with_modified_ballots
    original_ballots voter_type new_ranking voting_system candidates
  = voting_system original_ballots candidates.
Proof.
  intros Hnone. apply simulate_absent. intros Hin. by apply (Hnone voter_type).
Qed.

Lemma simulate_absent_type_is_honest_witness :
  simulate_election_with_modified_ballots
    ballots_cycle (B ["X"; "Y"; "Z"]) ["A"; "B"; "C"] schulze candidates_abc
  = schulze ballots_cycle candidates_abc.
Proof.
  apply (simulate_absent_type_is_honest ballots_cycle (B ["X"; "Y"; "Z"])).
  intros ballot Hin. unfold ballots_cycle in Hin. by_evaluation_in Hin.
Defined.

(** C10. The new ranking is turned into a ballot only when the voter type
    occurs in the collection: with the type absent every new ranking, even an
    empty or repeating one, yields the rule's result on the original ballots;
    with the type present an invalid new ranking is rejected with an
    InvalidBallot error and a valid one replaces the ballots of that type. *)
Theorem simulate_validates_iff_present {R : Type} (original_ballots : list Ballot.t)
  (voter_type : Ballot.t) (new_ranking : list string)
  (voting_system : list Ballot.t → list string → result R) (candidates : list string) :
  (voter_type ∉ original_ballots →
     simulate_election_with_modified_ballots
       original_ballots voter_type new_ranking voting_system candidates
     = voting_system original_ballots candidates) ∧
  (voter_type ∈ original_ballots → new_ranking = [] ∨ ¬ NoDup new_ranking →
     ∃ e, Ballot.init new_ranking = Raise e ∧ Ballot.InvalidBallot e ∧
          simulate_election_with_modified_ballots
            original_ballots voter_type new_ranking voting_system candidates
          = Raise e) ∧
  (voter_type ∈ original_ballots → new_ranking ≠ [] → NoDup new_ranking →
     simulate_election_with_modified_ballots
       original_ballots voter_type new_ranking voting_system candidates
     = voting_system
         (replace_type voter_type (Ballot.mk new_ranking) original_ballots) candidates).
Proof.
  split_and!.
  - apply simulate_absent.
  - intros Hin Hbad. destruct (init_Raise new_ranking Hbad) as (e & He & Hinv).
    exists e. split_and!; [done | done |].
    rewrite simulate_present by done. by rewrite He.
  - intros Hin Hne Hnd. rewrite simulate_present by done.
    by rewrite (init_Ok new_ranking Hne Hnd).
Qed.

Lemma simulate_validates_iff_present_witness :
  simulate_election_with_modified_ballots
    ballots_cycle (B ["X"; "Y"; "Z"]) ["A"; "A"] schulze candidates_abc
  = schulze ballots_cycle candidates_abc ∧
  (∃ e, Ballot.init ["A"; "A"] = Raise e ∧ Ballot.InvalidBallot e ∧
        simulate_election_with_modified_ballots
          ballots_cycle (B ["A"; "B"; "C"]) ["A"; "A"] schulze candidates_abc
        = Raise e) ∧
  simulate_election_with_modified_ballots
    ballots_cycle (B ["A"; "B"; "C"]) ["C"; "B"; "A"] schulze candidates_abc
  = schulze (replace_type (B ["A"; "B"; "C"]) (B ["C"; "B"; "A"]) ballots_cycle)
            candidates_abc.
Proof.
  split_and!.
  - apply (proj1 (simulate_validates_iff_present
                    ballots_cycle (B ["X"; "Y"; "Z"]) ["A"; "A"] schulze candidates_abc)).
    by_evaluation.
  - apply (proj1 (proj2 (simulate_validates_iff_present
                    ballots_cycle (B ["A"; "B"; "C"]) ["A"; "A"] schulze candidates_abc))).
    + by_evaluation.
    + right. by_evaluation.
  - apply (proj2 (proj2 (simulate_validates_iff_present
                    ballots_cycle (B ["A"; "B"; "C"]) ["C"; "B"; "A"] schulze
                    candidates_abc))).
    + by_evaluation.
    + done.
    + by_evaluation.
Defined.

(** C7 (as the code stands). [find_condorcet_winner] is a stub: on the
    election of [test_condorcet_winner_exists], whose Condorcet winner is A,
    it raises NotImplementedError instead of returning A. *)
Theorem find_condorcet_winner_raises :
  find_condorcet_winner ballots_condorcet candidates_abc
  = Raise (NotImplementedError msg_condorcet) ∧
  ∀ ballots candidates,
    find_condorcet_winner ballots candidates ≠ Ok (Some "A") ∧
    find_condorcet_winner ballots candidates ≠ Ok None.
Proof. split; [reflexivity|]. intros ballots candidates. split; discriminate. Qed.

(** * algorithms.py: the Schulze closure *)

Lemma dget_pf (candidates : list string) (p : gmap (string * string) nat) (x y : string) :
  complete_keys candidates p → x ∈ candidates → y ∈ candidates → x ≠ y →
  dget p (x, y) = Ok (pf p x y).
Proof.
  intros Hk Hx Hy Hne. unfold dget, pf.
  destruct (Hk x y Hx Hy Hne) as [v ->]. done.
Qed.

Lemma pf_insert (p : gmap (string * string) nat) (i j x y : string) (v : nat) :
  pf (<[(i, j) := v]> p) x y = if decide ((i, j) = (x, y)) then v else pf p x y.
Proof.
  unfold pf. destruct (decide ((i, j) = (x, y))) as [<-|Hne].
  - by rewrite lookup_insert_eq.
  - by rewrite lookup_insert_ne.
Qed.

Lemma complete_keys_insert (candidates : list string) (p : gmap (string * string) nat)
  (i j : string) (v : nat) :
  complete_keys candidates p → complete_keys candidates (<[(i, j) := v]> p).
Proof.
  intros Hk x y Hx Hy Hne. destruct (decide ((i, j) = (x, y))) as [<-|Hd].
  - rewrite lookup_insert_eq. eauto.
  - rewrite lookup_insert_ne by done. by apply Hk.
Qed.

Lemma width_app (h2h : gmap (string * string) nat) (a k b : string) (v1 v2 : list string) :
  width h2h a (v1 ++ k :: v2) b = Nat.min (width h2h a v1 k) (width h2h k v2 b).
Proof.
  revert a. induction v1 as [|x v1 IH]; intros a; simpl; [done|].
  rewrite IH. lia.
Qed.

Lemma hops_distinct_app (a k b : string) (v1 v2 : list string) :
  hops_distinct a (v1 ++ k :: v2) b ↔ hops_distinct a v1 k ∧ hops_distinct k v2 b.
Proof.
  revert a. induction v1 as [|x v1 IH]; intros a; simpl; [done|].
  rewrite IH. tauto.
Qed.

Lemma is_path_app (candidates : list string) (a k b : string) (v1 v2 : list string) :
  is_path candidates a (v1 ++ k :: v2) b ↔
  is_path candidates a v1 k ∧ is_path candidates k v2 b.
Proof.
  unfold is_path. rewrite Forall_app, Forall_cons, hops_distinct_app. tauto.
Qed.

Section Closure.
Variable candidates : list string.
Variable h2h : gmap (string * string) nat.

Lemma pass_inv_weaken p0 k (D D' : string → string → Prop) p :
  (∀ x y, D' x y → D x y) →
  pass_inv candidates h2h p0 k D p → pass_inv candidates h2h p0 k D' p.
Proof. intros Hsub [? ? ? ? Hd ?]. split; try done. intros x y HD. by apply Hd, Hsub. Qed.

Lemma relax_inv p0 k D p i j :
  pass_inv candidates h2h p0 k D p →
  i ∈ candidates → j ∈ candidates → k ∈ candidates → i ≠ k → j ≠ i → j ≠ k →
  ∃ p', relax k i j p = Ok p' ∧
        pass_inv candidates h2h p0 k (fun x y => D x y ∨ (x = i ∧ y = j)) p'.
Proof.
  intros [Hk Hm Hc Hr Hd Ha] Hi Hj Hkc Hik Hji Hjk. unfold relax.
  rewrite (dget_pf candidates p i k), (dget_pf candidates p k j),
    (dget_pf candidates p i j) by done. simpl.
  eexists. split; [done|]. split.
  - by apply complete_keys_insert.
  - intros x y. rewrite pf_insert. case_decide as Heq; [|done].
    injection Heq as <- <-. specialize (Hm i j). lia.
  - intros x. rewrite pf_insert. case_decide as Heq; [|done]. congruence.
  - intros y. rewrite pf_insert. case_decide as Heq; [|done]. congruence.
  - intros x y HD. rewrite pf_insert. case_decide as Heq.
    + injection Heq as <- <-. rewrite <- Hc, <- Hr. lia.
    + destruct HD as [HD|[-> ->]]; [by apply Hd | done].
  - intros x y Hx Hy Hne. rewrite pf_insert. case_decide as Heq; [|by apply Ha].
    injection Heq as <- <-.
    destruct (Nat.max_spec (pf p i j) (Nat.min (pf p i k) (pf p k j)))
      as [[_ ->]|[_ ->]]; [|by apply Ha].
    destruct (Ha i k) as (v1 & Hp1 & Hw1); [done..|].
    destruct (Ha k j) as (v2 & Hp2 & Hw2); [done..|].
    exists (v1 ++ k :: v2). split; [by apply is_path_app|].
    by rewrite width_app, Hw1, Hw2.
Qed.

Lemma closure_row_inv p0 k D p i :
  pass_inv candidates h2h p0 k D p → i ∈ candidates → k ∈ candidates → i ≠ k →
  ∃ p', closure_row candidates k i p = Ok p' ∧
        pass_inv candidates h2h p0 k
          (fun x y => D x y ∨ (x = i ∧ y ∈ candidates ∧ y ≠ i ∧ y ≠ k)) p'.
Proof.
  intros Hinv Hi Hk Hik. unfold closure_row.
  destruct (for_each_total
    (fun p cand_j => if decide (cand_j = i ∨ cand_j = k) then Ok p
                     else relax k i cand_j p)
    (fun done p => pass_inv candidates h2h p0 k
       (fun x y => D x y ∨ (x = i ∧ y ∈ done ∧ y ≠ i ∧ y ≠ k)) p)
    candidates p) as (p' & Hrun & Hp').
  - eapply pass_inv_weaken; [|exact Hinv].
    intros x y [?|(_ & Hy & _)]; [done|]. by apply elem_of_nil in Hy.
  - intros done j q [rest Hsplit] Hq.
    assert (j ∈ candidates) as Hj by (rewrite Hsplit; apply elem_of_app; right; by left).
    case_decide as Hskip.
    + exists q. split; [done|]. eapply pass_inv_weaken; [|exact Hq].
      intros x y [?|(-> & Hy & ? & ?)]; [by left|]. right.
      apply elem_of_app in Hy as [?|Hy]; [done|].
      apply list_elem_of_singleton in Hy. subst. tauto.
    + destruct (relax_inv p0 k _ q i j Hq) as (q' & Hq' & Hinv'); try done;
        try tauto.
      exists q'. split; [done|]. eapply pass_inv_weaken; [|exact Hinv'].
      intros x y [?|(-> & Hy & ? & ?)]; [by left; left|].
      apply elem_of_app in Hy as [?|Hy]; [left; right; done|].
      apply list_elem_of_singleton in Hy. subst. by right.
  - by exists p'.
Qed.

Lemma closure_pass_inv p0 k :
  complete_keys candidates p0 → attained candidates h2h p0 → k ∈ candidates →
  ∃ p', closure_pass candidates k p0 = Ok p' ∧
        pass_inv candidates h2h p0 k (fun x y => x ∈ candidates ∧ x ≠ k ∧
                                   y ∈ candidates ∧ y ≠ x ∧ y ≠ k) p'.
Proof.
  intros Hkeys Hatt Hk. unfold closure_pass.
  destruct (for_each_total
    (fun p cand_i => if decide (cand_i = k) then Ok p
                     else closure_row candidates k cand_i p)
    (fun done p => pass_inv candidates h2h p0 k
       (fun x y => x ∈ done ∧ x ≠ k ∧ y ∈ candidates ∧ y ≠ x ∧ y ≠ k) p)
    candidates p0) as (p' & Hrun & Hp').
  - split; try done. intros x y [Hx _]. by apply elem_of_nil in Hx.
  - intros done i q [rest Hsplit] Hq.
    assert (i ∈ candidates) as Hi by (rewrite Hsplit; apply elem_of_app; right; by left).
    case_decide as Hskip.
    + exists q. split; [done|]. eapply pass_inv_weaken; [|exact Hq].
      intros x y (Hx & ? & ? & ? & ?).
      apply elem_of_app in Hx as [?|Hx]; [done|].
      apply list_elem_of_singleton in Hx. by subst.
    + destruct (closure_row_inv p0 k _ q i Hq) as (q' & Hq' & Hinv'); try done.
      exists q'. split; [done|]. eapply pass_inv_weaken; [|exact Hinv'].
      intros x y (Hx & ? & ? & ? & ?).
      apply elem_of_app in Hx as [?|Hx]; [by left|].
      apply list_elem_of_singleton in Hx. subst. by right.
  - by exists p'.
Qed.

End Closure.

Section Widest.
Variable candidates : list string.
Variable h2h : gmap (string * string) nat.

(** One pass through [k] extends the bound to the paths that may also go
    through [k] (the Floyd-Warshall step). *)
Lemma bounded_pass (K : list string) (k : string) (p0 p' : gmap (string * string) nat) :
  bounded candidates h2h K p0 →
  pass_inv candidates h2h p0 k
    (fun x y => x ∈ candidates ∧ x ≠ k ∧ y ∈ candidates ∧ y ≠ x ∧ y ≠ k) p' →
  bounded candidates h2h (K ++ [k]) p'.
Proof.
  intros Hb [_ Hmono _ Hrow Hdone _].
  assert (Hlen : ∀ n x y via, length via ≤ n →
            is_path candidates x via y → x ≠ y →
            Forall (fun z => z ∈ K ++ [k]) via → width h2h x via y ≤ pf p' x y).
  { induction n as [|n IH]; intros x y via Hn Hpath Hxy Hvia.
    - destruct via; [|simpl in Hn; lia].
      specialize (Hb x y [] Hpath Hxy (Forall_nil_2 _)). specialize (Hmono x y). lia.
    - destruct (decide (k ∈ via)) as [Hin|Hnin].
      + apply list_elem_of_split_l in Hin as (v1 & v2 & -> & Hk1).
        apply is_path_app in Hpath as [Hp1 Hp2].
        apply Forall_app in Hvia as [Hv1 Hv2]. apply Forall_cons in Hv2 as [_ Hv2].
        rewrite width_app. rewrite length_app in Hn. simpl in Hn.
        assert (Forall (fun z => z ∈ K) v1) as Hv1K.
        { apply Forall_forall. intros z Hz.
          rewrite Forall_forall in Hv1. specialize (Hv1 z Hz).
          apply elem_of_app in Hv1 as [?|Hzk]; [done|].
          apply list_elem_of_singleton in Hzk. by subst. }
        destruct (decide (x = k)) as [->|Hxk].
        * specialize (IH k y v2 ltac:(lia) Hp2 Hxy Hv2). lia.
        * specialize (Hb x k v1 Hp1 Hxk Hv1K).
          destruct (decide (y = k)) as [->|Hyk].
          -- specialize (Hmono x k). lia.
          -- assert (k ≠ y) as Hky by done.
             specialize (IH k y v2 ltac:(lia) Hp2 Hky Hv2).
             rewrite Hrow in IH.
             destruct Hp1 as (Hx & _), Hp2 as (_ & Hy & _).
             specialize (Hdone x y ltac:(done)). lia.
      + assert (Forall (fun z => z ∈ K) via) as HvK.
        { apply Forall_forall. intros z Hz.
          rewrite Forall_forall in Hvia. specialize (Hvia z Hz).
          apply elem_of_app in Hvia as [?|Hzk]; [done|].
          apply list_elem_of_singleton in Hzk. by subst. }
        specialize (Hb x y via Hpath Hxy HvK). specialize (Hmono x y). lia. }
  intros x y via. by apply (Hlen (length via)).
Qed.

Lemma closure_spec (p0 : gmap (string * string) nat) :
  complete_keys candidates p0 → attained candidates h2h p0 →
  bounded candidates h2h [] p0 →
  ∃ p, closure candidates p0 = Ok p ∧ complete_keys candidates p ∧
       attained candidates h2h p ∧ bounded candidates h2h candidates p ∧
       ∀ x y, pf p0 x y ≤ pf p x y.
Proof.
  intros Hkeys Hatt Hbound. unfold closure.
  destruct (for_each_total
    (fun p cand_k => closure_pass candidates cand_k p)
    (fun done p => complete_keys candidates p ∧ attained candidates h2h p ∧
                   bounded candidates h2h done p ∧ ∀ x y, pf p0 x y ≤ pf p x y)
    candidates p0) as (p & Hrun & Hp).
  - done.
  - intros done k q [rest Hsplit] (Hqk & Hqa & Hqb & Hqm).
    assert (k ∈ candidates) as Hk by (rewrite Hsplit; apply elem_of_app; right; by left).
    destruct (closure_pass_inv candidates h2h q k Hqk Hqa Hk) as (q' & Hq' & Hinv).
    exists q'. split; [done|].
    split_and!; [apply Hinv | apply Hinv | by eapply bounded_pass |].
    intros x y. pose proof (pass_mono _ _ _ _ _ _ Hinv x y). specialize (Hqm x y). lia.
  - by exists p.
Qed.

Lemma initial_strengths_spec :
  complete_keys candidates h2h →
  ∃ p0, initial_strengths h2h candidates = Ok p0 ∧ complete_keys candidates p0 ∧
        ∀ x y, x ∈ candidates → y ∈ candidates → x ≠ y → pf p0 x y = margin h2h x y.
Proof.
  intros Hh. unfold initial_strengths.
  pose (body := fun cand_i (p : gmap (string * string) nat) cand_j =>
      if decide (cand_i ≠ cand_j) then
        a ← dget h2h (cand_i, cand_j);
        b ← dget h2h (cand_j, cand_i);
        if decide (b < a) then
          a' ← dget h2h (cand_i, cand_j); Ok (<[(cand_i, cand_j) := a']> p)
        else Ok (<[(cand_i, cand_j) := 0]> p)
      else Ok p).
  pose (inv := fun (D : string → string → Prop) (p : gmap (string * string) nat) =>
      ∀ x y, D x y → x ≠ y → is_Some (p !! (x, y)) ∧ pf p x y = margin h2h x y).
  assert (Hstep : ∀ D p i j, inv D p → i ∈ candidates → j ∈ candidates →
            ∃ p', body i p j = Ok p' ∧ inv (fun x y => D x y ∨ (x = i ∧ y = j)) p').
  { intros D p i j Hinv Hi Hj. unfold body. case_decide as Hne.
    - rewrite (dget_pf candidates h2h i j), (dget_pf candidates h2h j i) by done.
      simpl. unfold inv, margin.
      destruct (decide (pf h2h j i < pf h2h i j)) as [Hlt|Hge].
      + eexists. split; [done|]. intros x y HD Hxy. rewrite pf_insert.
        destruct (decide ((i, j) = (x, y))) as [[= <- <-]|Hd].
        * rewrite lookup_insert_eq, decide_True by done. eauto.
        * rewrite lookup_insert_ne by done. destruct HD as [HD|[-> ->]]; [|done].
          by apply Hinv.
      + eexists. split; [done|]. intros x y HD Hxy. rewrite pf_insert.
        destruct (decide ((i, j) = (x, y))) as [[= <- <-]|Hd].
        * rewrite lookup_insert_eq, decide_False by done. eauto.
        * rewrite lookup_insert_ne by done. destruct HD as [HD|[-> ->]]; [|done].
          by apply Hinv.
    - exists p. split; [done|]. intros x y [HD|[-> ->]] Hxy; [by apply Hinv|].
      destruct Hne. done. }
  destruct (for_each_total
    (fun p cand_i => for_each (body cand_i) candidates p)
    (fun done p => inv (fun x y => x ∈ done ∧ y ∈ candidates) p)
    candidates ∅) as (p0 & Hrun & Hp0).
  - intros x y [Hx _]. by apply elem_of_nil in Hx.
  - intros done i p [rest Hsplit] Hp.
    assert (i ∈ candidates) as Hi by (rewrite Hsplit; apply elem_of_app; right; by left).
    destruct (for_each_total (body i)
      (fun doneb q => inv (fun x y => (x ∈ done ∧ y ∈ candidates) ∨
                                       (x = i ∧ y ∈ doneb)) q)
      candidates p) as (p' & Hrow & Hp').
    + intros x y [?|[_ Hy]]; [by apply Hp | by apply elem_of_nil in Hy].
    + intros doneb j q [restb Hsplitb] Hq.
      assert (j ∈ candidates) as Hj
        by (rewrite Hsplitb; apply elem_of_app; right; by left).
      destruct (Hstep _ q i j Hq Hi Hj) as (q' & Hq' & Hinv').
      exists q'. split; [done|]. intros x y HD. apply Hinv'.
      destruct HD as [?|[-> Hy]]; [by left; left|].
      apply elem_of_app in Hy as [?|Hy]; [left; right; done|].
      apply list_elem_of_singleton in Hy. by right.
    + exists p'. split; [done|]. intros x y [Hx Hy]. apply Hp'.
      apply elem_of_app in Hx as [?|Hx]; [by left|].
      apply list_elem_of_singleton in Hx. by right.
  - exists p0. split; [exact Hrun|]. split.
    + intros x y Hx Hy Hne. by apply Hp0.
    + intros x y Hx Hy Hne. by apply Hp0.
Qed.

End Widest.

Lemma valid_election_ranked (ballots : list Ballot.t) (candidates : list string) :
  valid_election ballots candidates →
  Forall (fun b => ∀ c, c ∈ candidates → c ∈ Ballot.ranking b) ballots.
Proof.
  intros [_ Hall]. eapply Forall_impl; [exact Hall|].
  intros b [_ Hperm] c Hc. by rewrite Hperm.
Qed.

Lemma beatpath_strengths_spec (ballots : list Ballot.t) (candidates : list string) :
  Forall (fun b => ∀ c, c ∈ candidates → c ∈ Ballot.ranking b) ballots →
  ∃ h2h p, get_head_to_head_matrix ballots candidates = Ok h2h ∧
           beatpath_strengths ballots candidates = Ok p ∧
           complete_keys candidates h2h ∧ complete_keys candidates p ∧
           attained candidates h2h p ∧ bounded candidates h2h candidates p.
Proof.
  intros Hranked.
  destruct (get_head_to_head_matrix_Ok ballots candidates Hranked) as [h2h Hh].
  pose proof (get_head_to_head_matrix_inv _ _ _ Hh) as [_ Hcov].
  assert (complete_keys candidates h2h) as Hkeys.
  { intros x y Hx Hy Hne. by apply Hcov. }
  destruct (initial_strengths_spec candidates h2h Hkeys) as (p0 & Hp0 & Hk0 & Hm0).
  destruct (closure_spec candidates h2h p0) as (p & Hp & Hkp & Hap & Hbp & _).
  - done.
  - intros x y Hx Hy Hne. exists []. split; [done|]. simpl. symmetry. by apply Hm0.
  - intros x y via (Hx & Hy & _ & _) Hne Hvia.
    destruct via as [|z via]; [simpl; by rewrite Hm0|].
    apply Forall_cons in Hvia as [Hz _]. by apply elem_of_nil in Hz.
  - exists h2h, p. unfold beatpath_strengths. rewrite Hh. simpl. rewrite Hp0. simpl.
    done.
Qed.

(** Cutting the loops out of a path does not make it narrower. *)
Lemma path_simplify (candidates : list string) (h2h : gmap (string * string) nat)
  (a b : string) (via : list string) :
  is_path candidates a via b → a ≠ b →
  ∃ via', is_path candidates a via' b ∧ NoDup (a :: via' ++ [b]) ∧
          width h2h a via b ≤ width h2h a via' b.
Proof.
  intros Hpath Hab.
  (* first cut the path at its first visit of [b] *)
  assert (∃ v, is_path candidates a v b ∧ (b ∉ v) ∧
               width h2h a via b ≤ width h2h a v b) as (v & Hv & Hbv & Hwv).
  { destruct (decide (b ∈ via)) as [Hin|Hnin]; [|by exists via].
    apply list_elem_of_split_l in Hin as (v1 & v2 & -> & Hb1).
    apply is_path_app in Hpath as [Hp1 _]. exists v1.
    split_and!; [done | done |]. rewrite width_app. lia. }
  set (w := width h2h a via b) in *. clearbody w. clear Hpath via.
  revert w a Hab Hv Hwv.
  induction v as [|x v IH]; intros w a Hab Hpath Hw.
  - exists []. split_and!; [done | | done]. simpl.
    apply NoDup_cons. split; [by rewrite list_elem_of_singleton|].
    apply NoDup_singleton.
  - apply not_elem_of_cons in Hbv as [Hbx Hbv]. simpl in Hw.
    destruct Hpath as (Ha & Hb & Hvia & Hax & Hhops).
    apply Forall_cons in Hvia as [Hx Hvia].
    destruct (IH Hbv (width h2h x v b) x) as (v' & Hp' & Hnd' & Hw');
      [done | done | done |].
    destruct (decide (a ∈ v')) as [Hin|Hnin].
    + apply list_elem_of_split in Hin as (v1 & v2 & ->).
      apply is_path_app in Hp' as [_ Hp2]. exists v2. split_and!; [done | |].
      * rewrite <- app_assoc in Hnd'. simpl in Hnd'.
        apply NoDup_cons in Hnd' as [_ Hnd']. by apply NoDup_app in Hnd' as (_ & _ & ?).
      * rewrite width_app in Hw'. lia.
    + exists (x :: v'). split_and!.
      * destruct Hp' as (_ & _ & Hvia' & Hhops'). split_and!; try done.
        by apply Forall_cons.
      * simpl. apply NoDup_cons. split; [|done].
        rewrite !not_elem_of_cons, not_elem_of_app, list_elem_of_singleton. tauto.
      * simpl. lia.
Qed.

(** C1. On a valid election the closure loop finishes, and the strength it
    leaves for each ordered pair of distinct candidates is the maximum, over
    all directed paths between them, of the least hop margin on the path: no
    path is wider, and a path without repeated candidates has that width. *)
Theorem schulze_closure_widest_paths (ballots : list Ballot.t) (candidates : list string) :
  valid_election ballots candidates →
  ∃ h2h p,
    get_head_to_head_matrix ballots candidates = Ok h2h ∧
    beatpath_strengths ballots candidates = Ok p ∧
    ∀ a b, a ∈ candidates → b ∈ candidates → a ≠ b →
      ∃ s, p !! (a, b) = Some s ∧
        (∀ via, is_path candidates a via b → width h2h a via b ≤ s) ∧
        (∃ via, is_path candidates a via b ∧ NoDup (a :: via ++ [b]) ∧
                width h2h a via b = s).
Proof.
  intros Hvalid. apply valid_election_ranked in Hvalid.
  destruct (beatpath_strengths_spec ballots candidates Hvalid)
    as (h2h & p & Hh & Hp & _ & Hkeys & Hatt & Hbound).
  exists h2h, p. split_and!; [done | done |].
  intros a b Ha Hb Hab. destruct (Hkeys a b Ha Hb Hab) as [s Hs].
  assert (pf p a b = s) as Hpf by (unfold pf; by rewrite Hs).
  exists s. split; [done|]. rewrite <- Hpf.
  assert (Hub : ∀ via, is_path candidates a via b → width h2h a via b ≤ pf p a b).
  { intros via Hpath. apply Hbound; [done | done |]. by destruct Hpath as (_ & _ & ? & _). }
  split; [done|].
  destruct (Hatt a b Ha Hb Hab) as (via & Hpath & Hw).
  destruct (path_simplify candidates h2h a b via Hpath Hab) as (via' & Hp' & Hnd & Hle).
  exists via'. split_and!; [done | done |]. specialize (Hub via' Hp'). lia.
Qed.

Lemma schulze_closure_widest_paths_witness :
  ∃ h2h p,
    get_head_to_head_matrix ballots_cycle candidates_abc = Ok h2h ∧
    beatpath_strengths ballots_cycle candidates_abc = Ok p ∧
    ∀ a b, a ∈ candidates_abc → b ∈ candidates_abc → a ≠ b →
      ∃ s, p !! (a, b) = Some s ∧
        (∀ via, is_path candidates_abc a via b → width h2h a via b ≤ s) ∧
        (∃ via, is_path candidates_abc a via b ∧ NoDup (a :: via ++ [b]) ∧
                width h2h a via b = s).
Proof.
  apply (schulze_closure_widest_paths ballots_cycle candidates_abc).
  split; [done|]. unfold Ballot.wf. by_evaluation.
Defined.

(** * algorithms.py: Schulze scores and winners *)

Lemma od_get_set_eq (k : string) (v : nat) (d : list (string * nat)) :
  od_get k (od_set k v d) = Ok v.
Proof.
  induction d as [|[k' v'] d IH]; simpl; [by rewrite decide_True|].
  destruct (decide (k' = k)) as [->|Hne]; simpl.
  - by rewrite decide_True.
  - by rewrite decide_False.
Qed.

Lemma od_get_set_ne (k k' : string) (v : nat) (d : list (string * nat)) :
  k ≠ k' → od_get k' (od_set k v d) = od_get k' d.
Proof.
  intros Hne. induction d as [|[k0 v0] d IH]; simpl; [by rewrite decide_False|].
  destruct (decide (k0 = k)) as [->|Hne0]; simpl.
  - by rewrite !decide_False.
  - by rewrite IH.
Qed.

Lemma od_set_keys (k : string) (v : nat) (d : list (string * nat)) :
  (od_set k v d).*1 = if decide (k ∈ d.*1) then d.*1 else d.*1 ++ [k].
Proof.
  induction d as [|[k0 v0] d IH]; [done|].
  cbn [od_set]. destruct (decide (k0 = k)) as [->|Hne].
  - rewrite !fmap_cons. cbn [fst]. rewrite decide_True; [done|]. by left.
  - rewrite !fmap_cons, IH. cbn [fst].
    destruct (decide (k ∈ d.*1)) as [Hin|Hnin].
    + rewrite decide_True; [done|]. by right.
    + rewrite decide_False; [done|]. rewrite not_elem_of_cons. by split.
Qed.

Lemma od_get_elem (k : string) (v : nat) (d : list (string * nat)) :
  od_get k d = Ok v → (k, v) ∈ d.
Proof.
  induction d as [|[k0 v0] d IH]; simpl; [done|].
  destruct (decide (k0 = k)) as [->|Hne].
  - intros [= ->]. by left.
  - intros H. right. by apply IH.
Qed.

Lemma od_get_Ok (k : string) (d : list (string * nat)) :
  k ∈ d.*1 → ∃ v, od_get k d = Ok v.
Proof.
  induction d as [|[k0 v0] d IH]; simpl; [intros H; by apply elem_of_nil in H|].
  intros Hin. destruct (decide (k0 = k)) as [->|Hne]; [eauto|].
  apply elem_of_cons in Hin as [?|Hin]; [done|]. by apply IH.
Qed.

Lemma od_elem_get (k : string) (v : nat) (d : list (string * nat)) :
  NoDup d.*1 → (k, v) ∈ d → od_get k d = Ok v.
Proof.
  induction d as [|[k0 v0] d IH]; simpl; [intros _ H; by apply elem_of_nil in H|].
  intros Hnd Hin. apply NoDup_cons in Hnd as [Hk0 Hnd].
  apply elem_of_cons in Hin as [Heq|Hin];
    [injection Heq as <- <-; by rewrite decide_True|].
  rewrite decide_False; [by apply IH|].
  intros ->. apply Hk0. apply list_elem_of_fmap. by exists (k, v).
Qed.

(** [{candidate: 0 for candidate in candidates}] *)
Lemma zero_scores_spec (candidates : list string) :
  let d := foldl (fun scores candidate => od_set candidate 0 scores) [] candidates in
  NoDup d.*1 ∧ (∀ c, c ∈ d.*1 ↔ c ∈ candidates) ∧
  (∀ c, c ∈ candidates → od_get c d = Ok 0).
Proof.
  induction candidates as [|c cs IH] using rev_ind; simpl.
  - split_and!; [constructor | done |]. intros c Hc. by apply elem_of_nil in Hc.
  - rewrite foldl_app. simpl. destruct IH as (Hnd & Hkeys & Hval).
    set (d := foldl (fun scores candidate => od_set candidate 0 scores) [] cs) in *.
    rewrite od_set_keys. split_and!.
    + destruct (decide (c ∈ d.*1)) as [Hin|Hnin]; [done|].
      apply NoDup_app. split_and!; [done | | apply NoDup_singleton].
      intros x Hx Hxc. apply list_elem_of_singleton in Hxc. by subst.
    + intros x. destruct (decide (c ∈ d.*1)) as [Hin|Hnin].
      * rewrite elem_of_app, list_elem_of_singleton, Hkeys.
        split; [tauto|]. intros [?| ->]; [done|]. by apply Hkeys.
      * by rewrite !elem_of_app, Hkeys.
    + intros x Hx. destruct (decide (c = x)) as [->|Hne].
      * apply od_get_set_eq.
      * rewrite od_get_set_ne by done. apply Hval.
        apply elem_of_app in Hx as [?|Hx]; [done|].
        apply list_elem_of_singleton in Hx. by subst.
Qed.

Lemma beatpath_scores_spec (candidates : list string) (p : gmap (string * string) nat) :
  complete_keys candidates p →
  ∃ d, beatpath_scores candidates p = Ok d ∧ NoDup d.*1 ∧
       (∀ c, c ∈ d.*1 ↔ c ∈ candidates) ∧
       (∀ c, c ∈ candidates →
          od_get c d = Ok (occurrences c candidates * wins p candidates c)).
Proof.
  intros Hkeys. unfold beatpath_scores.
  destruct (zero_scores_spec candidates) as (Hnd0 & Hkeys0 & Hval0). simpl in *.
  set (d0 := foldl (fun scores candidate => od_set candidate 0 scores) [] candidates) in *.
  pose (body := fun cand_i (scores : list (string * nat)) cand_j =>
      if decide (cand_i ≠ cand_j) then
        pij ← dget p (cand_i, cand_j);
        pji ← dget p (cand_j, cand_i);
        if decide (pji < pij) then
          s ← od_get cand_i scores; Ok (od_set cand_i (s + 1) scores)
        else Ok scores
      else Ok scores).
  pose (inv := fun (done : list string) (i : string) (doneb : list string)
                   (d : list (string * nat)) =>
      d.*1 = d0.*1 ∧
      ∀ c, c ∈ candidates →
        od_get c d = Ok (occurrences c done * wins p candidates c +
          if decide (c = i)
          then length (filter (fun j => i ≠ j ∧ pf p j i < pf p i j) doneb) else 0)).
  assert (Hstep : ∀ done i doneb j d, inv done i doneb d →
            i ∈ candidates → j ∈ candidates →
            ∃ d', body i d j = Ok d' ∧ inv done i (doneb ++ [j]) d').
  { intros done i doneb j d [Hk Hv] Hi Hj. unfold body, inv.
    assert (Hskip : ¬ (i ≠ j ∧ pf p j i < pf p i j) →
              d.*1 = d0.*1 ∧ ∀ c, c ∈ candidates →
                od_get c d = Ok (occurrences c done * wins p candidates c +
                  if decide (c = i)
                  then length (filter (fun j => i ≠ j ∧ pf p j i < pf p i j)
                                 (doneb ++ [j])) else 0)).
    { intros Hno. split; [done|]. intros c Hc.
      rewrite filter_app, filter_cons_False, filter_nil, app_nil_r by done.
      by apply Hv. }
    case_decide as Hne; [|exists d; split; [done|]; apply Hskip; tauto].
    rewrite (dget_pf candidates p i j), (dget_pf candidates p j i) by done. simpl.
    case_decide as Hlt; [|exists d; split; [done|]; apply Hskip; tauto].
    rewrite (Hv i Hi). simpl. eexists. split; [done|]. split.
    - rewrite od_set_keys, decide_True; [done|]. rewrite Hk. by apply Hkeys0.
    - intros c Hc. rewrite filter_app, filter_cons_True, filter_nil by done.
      rewrite length_app. simpl. destruct (decide (c = i)) as [->|Hci].
      + rewrite od_get_set_eq, decide_True by done. f_equal. lia.
      + rewrite od_get_set_ne by done. rewrite (Hv c Hc), decide_False by done. done. }
  destruct (for_each_total
    (fun scores cand_i => for_each (body cand_i) candidates scores)
    (fun done d => d.*1 = d0.*1 ∧ ∀ c, c ∈ candidates →
       od_get c d = Ok (occurrences c done * wins p candidates c))
    candidates d0) as (d & Hrun & Hk & Hv).
  - split; [done|]. intros c Hc. rewrite (Hval0 c Hc). done.
  - intros done i d [rest Hsplit] [Hk Hv].
    assert (i ∈ candidates) as Hi by (rewrite Hsplit; apply elem_of_app; right; by left).
    destruct (for_each_total (body i) (fun doneb d => inv done i doneb d) candidates d)
      as (d' & Hrow & Hk' & Hv').
    + split; [done|]. intros c Hc. rewrite (Hv c Hc). f_equal.
      rewrite filter_nil. simpl. destruct (decide (c = i)); lia.
    + intros doneb j d1 [restb Hsplitb] Hd1.
      assert (j ∈ candidates) as Hj
        by (rewrite Hsplitb; apply elem_of_app; right; by left).
      by apply Hstep.
    + exists d'. split; [done|]. split; [done|]. intros c Hc.
      rewrite (Hv' c Hc). f_equal. unfold occurrences, wins.
      rewrite filter_app, length_app.
      destruct (decide (c = i)) as [->|Hci].
      * rewrite filter_cons_True, filter_nil by done. simpl. lia.
      * rewrite filter_cons_False, filter_nil by done. simpl. lia.
  - exists d. split; [exact Hrun|]. rewrite Hk. split_and!; done.
Qed.

Lemma py_max_spec (l : list nat) :
  l ≠ [] → ∃ m, py_max l = Ok m ∧ m ∈ l ∧ ∀ y, y ∈ l → y ≤ m.
Proof.
  destruct l as [|x l]; [done|]. intros _. exists (foldl Nat.max x l).
  split; [done|]. apply foldl_max_spec.
Qed.

(** What a run of [schulze] on ballots ranking every candidate goes through. *)
Lemma schulze_run (ballots : list Ballot.t) (candidates : list string) :
  candidates ≠ [] →
  Forall (fun b => ∀ c, c ∈ candidates → c ∈ Ballot.ranking b) ballots →
  ∃ h2h p scores max_score,
    get_head_to_head_matrix ballots candidates = Ok h2h ∧
    beatpath_strengths ballots candidates = Ok p ∧
    beatpath_scores candidates p = Ok scores ∧
    py_max (scores.*2) = Ok max_score ∧
    schulze ballots candidates
    = Ok ((filter (fun cs => cs.2 = max_score) scores).*1, scores) ∧
    attained candidates h2h p ∧ bounded candidates h2h candidates p ∧
    NoDup scores.*1 ∧ (∀ c, c ∈ scores.*1 ↔ c ∈ candidates) ∧
    (∀ c, c ∈ candidates →
       od_get c scores = Ok (occurrences c candidates * wins p candidates c)) ∧
    max_score ∈ scores.*2 ∧ (∀ v, v ∈ scores.*2 → v ≤ max_score).
Proof.
  intros Hne Hranked.
  destruct (beatpath_strengths_spec ballots candidates Hranked)
    as (h2h & p & Hh & Hp & _ & Hkeys & Hatt & Hbound).
  destruct (beatpath_scores_spec candidates p Hkeys) as (d & Hd & Hnd & Hdk & Hdv).
  destruct (py_max_spec (d.*2)) as (m & Hm & Hin & Hle).
  { destruct candidates as [|c cs]; [done|].
    assert (c ∈ d.*1) as Hc by (apply Hdk; by left).
    intros Hnil. apply fmap_nil_inv in Hnil. subst d. by apply elem_of_nil in Hc. }
  exists h2h, p, d, m. unfold schulze. rewrite Hp. simpl. rewrite Hd. simpl.
  rewrite Hm. simpl. split_and!; done.
Qed.

(** C4. On a valid election [schulze] raises nothing and returns a non-empty
    list of winners: the scores are not empty, their maximum exists, and the
    winners are exactly the candidates whose score is that maximum. *)
Theorem schulze_returns_winners (ballots : list Ballot.t) (candidates : list string) :
  valid_election ballots candidates →
  ∃ winners scores max_score,
    schulze ballots candidates = Ok (winners, scores) ∧ winners ≠ [] ∧
    py_max (scores.*2) = Ok max_score ∧
    ∀ c, c ∈ winners ↔ (c, max_score) ∈ scores.
Proof.
  intros Hvalid. pose proof (valid_election_ranked _ _ Hvalid) as Hranked.
  destruct Hvalid as [Hne _].
  destruct (schulze_run ballots candidates Hne Hranked)
    as (h2h & p & d & m & _ & _ & _ & Hm & Hrun & _ & _ & _ & _ & _ & Hin & _).
  exists ((filter (fun cs => cs.2 = m) d).*1), d, m.
  assert (Hw : ∀ c, c ∈ (filter (fun cs => cs.2 = m) d).*1 ↔ (c, m) ∈ d).
  { intros c. rewrite list_elem_of_fmap. split.
    - intros ([k v] & -> & Hkv). apply list_elem_of_filter in Hkv as [Hv Hkv].
      simpl in *. by subst.
    - intros Hc. exists (c, m). split; [done|]. by apply list_elem_of_filter. }
  split_and!; [done | | done | done].
  apply list_elem_of_fmap in Hin as ([k v] & -> & Hkv). simpl in *.
  intros Hnil. apply (proj2 (Hw k)) in Hkv. rewrite Hnil in Hkv.
  by apply elem_of_nil in Hkv.
Qed.

Lemma schulze_returns_winners_witness :
  ∃ winners scores max_score,
    schulze ballots_cycle candidates_abc = Ok (winners, scores) ∧ winners ≠ [] ∧
    py_max (scores.*2) = Ok max_score ∧
    ∀ c, c ∈ winners ↔ (c, max_score) ∈ scores.
Proof.
  apply (schulze_returns_winners ballots_cycle candidates_abc).
  split; [done|]. unfold Ballot.wf. by_evaluation.
Defined.

(** * Condorcet consistency of [schulze] *)

Lemma filter_none {A : Type} (P : A → Prop) `{∀ x, Decision (P x)} (l : list A) :
  (∀ x, x ∈ l → ¬ P x) → filter P l = [].
Proof.
  induction l as [|x l IH]; intros Hno; [done|].
  rewrite filter_cons_False by (apply Hno; by left).
  apply IH. intros y Hy. apply Hno. by right.
Qed.

Lemma occurrences_NoDup (c : string) (l : list string) :
  NoDup l → c ∈ l → occurrences c l = 1.
Proof.
  unfold occurrences. induction 1 as [|x l Hx Hnd IH]; intros Hc.
  - by apply elem_of_nil in Hc.
  - destruct (decide (x = c)) as [->|Hne].
    + rewrite filter_cons_True by done. simpl. f_equal.
      rewrite filter_none; [done|]. intros y Hy ->. done.
    + rewrite filter_cons_False by done. apply IH.
      apply elem_of_cons in Hc as [?|?]; [by subst|done].
Qed.

Lemma length_filter_le_impl {A : Type} (P Q : A → Prop)
  `{∀ x, Decision (P x)} `{∀ x, Decision (Q x)} (l : list A) :
  (∀ x, x ∈ l → P x → Q x) → length (filter P l) ≤ length (filter Q l).
Proof.
  induction l as [|x l IH]; intros Himp; [done|].
  assert (length (filter P l) ≤ length (filter Q l)) as Hle.
  { apply IH. intros y Hy. apply Himp. by right. }
  rewrite !filter_cons. destruct (decide (P x)) as [HP|HP].
  - rewrite decide_True by (apply Himp; [by left|done]). simpl. lia.
  - destruct (decide (Q x)); simpl; lia.
Qed.

Lemma length_filter_lt_impl {A : Type} (P Q : A → Prop)
  `{∀ x, Decision (P x)} `{∀ x, Decision (Q x)} (l : list A) (x0 : A) :
  (∀ x, x ∈ l → P x → Q x) → x0 ∈ l → Q x0 → ¬ P x0 →
  length (filter P l) < length (filter Q l).
Proof.
  induction l as [|x l IH]; intros Himp Hin HQ HP; [by apply elem_of_nil in Hin|].
  assert (Himp' : ∀ y, y ∈ l → P y → Q y) by (intros y Hy; apply Himp; by right).
  pose proof (length_filter_le_impl P Q l Himp') as Hle.
  rewrite !filter_cons. apply elem_of_cons in Hin as [<-|Hin].
  - rewrite decide_False, decide_True by done. simpl. lia.
  - specialize (IH Himp' Hin HQ HP). destruct (decide (P x)) as [HPx|HPx].
    + rewrite decide_True by (apply Himp; [by left|done]). simpl. lia.
    + destruct (decide (Q x)); simpl; lia.
Qed.

Lemma winners_singleton (d : list (string * nat)) (C : string) (m : nat) :
  NoDup d.*1 → (C, m) ∈ d → (∀ k v, (k, v) ∈ d → v = m → k = C) →
  (filter (fun cs => cs.2 = m) d).*1 = [C].
Proof.
  induction d as [|[k0 v0] d IH]; intros Hnd Hin Honly; [by apply elem_of_nil in Hin|].
  rewrite fmap_cons in Hnd. apply NoDup_cons in Hnd as [Hk0 Hnd]. simpl in Hk0.
  assert (Hkey : ∀ k v, (k, v) ∈ d → k ∈ d.*1).
  { intros k v Hkv. apply list_elem_of_fmap. by exists (k, v). }
  apply elem_of_cons in Hin as [Heq|Hin].
  - injection Heq as <- <-. rewrite filter_cons_True by done.
    rewrite fmap_cons. simpl. f_equal.
    rewrite (filter_none (fun cs : string * nat => cs.2 = m) d); [done|].
    intros [k v] Hkv Hv. simpl in Hv. apply Hk0.
    rewrite <- (Honly k v); [by eapply Hkey | by right | done].
  - assert (v0 ≠ m) as Hv0.
    { intros ->. apply Hk0. rewrite (Honly k0 m); [by eapply Hkey | by left | done]. }
    rewrite filter_cons_False by done. apply IH; [done | done |].
    intros k v Hkv. apply Honly. by right.
Qed.

(** A path into a candidate that loses no pairwise contest has width 0. *)
Lemma width_into_unbeaten (candidates : list string) (h2h : gmap (string * string) nat)
  (C : string) :
  (∀ D, D ∈ candidates → D ≠ C → margin h2h D C = 0) →
  ∀ via a, is_path candidates a via C → width h2h a via C = 0.
Proof.
  intros Hzero. induction via as [|x via IH]; intros a (Ha & HC & Hvia & Hhops).
  - simpl in *. by apply Hzero.
  - simpl in *. destruct Hhops as [_ Hhops]. apply Forall_cons in Hvia as [Hx Hvia].
    rewrite (IH x); [lia|]. by split_and!.
Qed.

(** C2. On a valid election whose head-to-head matrix has a Condorcet winner
    [C], [schulze] returns exactly [[C]] as its winner list. *)
Theorem schulze_condorcet_consistent (ballots : list Ballot.t) (candidates : list string)
  (h2h : gmap (string * string) nat) (C : string) :
  valid_election ballots candidates →
  get_head_to_head_matrix ballots candidates = Ok h2h →
  C ∈ candidates →
  (∀ D, D ∈ candidates → D ≠ C →
     ∃ n m, h2h !! (C, D) = Some n ∧ h2h !! (D, C) = Some m ∧ m < n) →
  ∃ scores, schulze ballots candidates = Ok ([C], scores).
Proof.
  intros Hvalid Hh HC Hcond.
  pose proof (valid_election_ranked _ _ Hvalid) as Hranked.
  destruct Hvalid as [Hne Hall].
  destruct (schulze_run ballots candidates Hne Hranked)
    as (h2h' & p & d & m & Hh' & _ & _ & _ & Hrun & Hatt & Hbound & Hnd & Hdk & Hdv
        & Hmin & Hmle).
  assert (h2h' = h2h) as -> by congruence.
  exists d. rewrite Hrun. f_equal. f_equal.
  assert (Hpair : ∀ D, D ∈ candidates → D ≠ C → pf h2h D C < pf h2h C D).
  { intros D HD HDC. destruct (Hcond D HD HDC) as (n & k & Hn & Hk & Hlt).
    unfold pf. by rewrite Hn, Hk. }
  (* nobody has a beatpath into C, C has one to everybody *)
  assert (Hinto : ∀ D, D ∈ candidates → D ≠ C → pf p D C = 0).
  { intros D HD HDC. destruct (Hatt D C HD HC HDC) as (via & Hpath & <-).
    eapply width_into_unbeaten; [|exact Hpath].
    intros E HE HEC. unfold margin. specialize (Hpair E HE HEC).
    rewrite decide_False; [done|lia]. }
  assert (Hout : ∀ D, D ∈ candidates → D ≠ C → 0 < pf p C D).
  { intros D HD HDC. assert (C ≠ D) as HCD by done.
    assert (is_path candidates C [] D) as Hpath by done.
    pose proof (Hbound C D [] Hpath HCD (Forall_nil_2 _)) as Hle. simpl in Hle.
    unfold margin in Hle. specialize (Hpair D HD HDC).
    rewrite decide_True in Hle by done. lia. }
  assert (Hwins : ∀ D, D ∈ candidates → D ≠ C →
            wins p candidates D < wins p candidates C).
  { intros D HD HDC. unfold wins. apply (length_filter_lt_impl _ _ _ D); [|done| |tauto].
    - intros j Hj [HDj Hlt]. assert (C ≠ j) as HCj.
      { intros <-. rewrite (Hinto D HD HDC) in Hlt. lia. }
      split; [done|]. rewrite (Hinto j Hj) by done. by apply Hout.
    - split; [done|]. rewrite (Hinto D HD HDC). by apply Hout. }
  (* with a second candidate there is a ballot, so no candidate is listed twice *)
  assert (Huniq : ∀ D, D ∈ candidates → D ≠ C → NoDup candidates).
  { intros D HD HDC. destruct ballots as [|b bs].
    - destruct (Hcond D HD HDC) as (n & k & Hn & _ & Hlt).
      apply get_head_to_head_matrix_inv in Hh as [Hs _].
      destruct (Hs _ _ _ Hn) as [_ Hcnt]. unfold count_prefers in Hcnt.
      simpl in Hcnt. injection Hcnt as <-. lia.
    - apply Forall_cons in Hall as [[[_ Hndb] Hperm] _]. by rewrite <- Hperm. }
  pose (sC := occurrences C candidates * wins p candidates C).
  assert (HsC : (C, sC) ∈ d) by (apply od_get_elem; by apply Hdv).
  assert (Hless : ∀ k v, (k, v) ∈ d → k ≠ C → v < sC).
  { intros k v Hkv HkC.
    assert (k ∈ candidates) as Hk.
    { apply Hdk. apply list_elem_of_fmap. by exists (k, v). }
    pose proof (od_elem_get k v d Hnd Hkv) as Hget. rewrite (Hdv k Hk) in Hget.
    injection Hget as <-. unfold sC.
    pose proof (Huniq k Hk HkC) as Hu.
    rewrite !occurrences_NoDup by done. specialize (Hwins k Hk HkC). lia. }
  assert (m = sC) as ->.
  { apply list_elem_of_fmap in Hmin as ([k v] & -> & Hkv). simpl.
    destruct (decide (k = C)) as [->|HkC].
    - pose proof (od_elem_get C v d Hnd Hkv) as Hget.
      rewrite (od_elem_get C sC d Hnd HsC) in Hget. by injection Hget.
    - specialize (Hless k v Hkv HkC).
      assert (sC ≤ v); [|lia]. apply Hmle. apply list_elem_of_fmap. by exists (C, sC). }
  apply winners_singleton; [done | done |].
  intros k v Hkv ->. destruct (decide (k = C)) as [?|HkC]; [done|].
  specialize (Hless k sC Hkv HkC). lia.
Qed.

Lemma schulze_condorcet_consistent_witness :
  ∃ scores, schulze ballots_condorcet candidates_abc = Ok (["A"], scores).
Proof.
  apply (schulze_condorcet_consistent ballots_condorcet candidates_abc
           (<[("C", "B") := 2]> (<[("C", "A") := 1]> (<[("B", "C") := 3]>
            (<[("B", "A") := 1]> (<[("A", "C") := 4]> (<[("A", "B") := 4]> ∅)))))) "A").
  - split; [done|]. unfold Ballot.wf. by_evaluation.
  - vm_compute. reflexivity.
  - by_evaluation.
  - intros D HD HDA. unfold candidates_abc in HD.
    apply elem_of_cons in HD as [->|HD]; [done|].
    apply elem_of_cons in HD as [->|HD];
      [exists 4, 1; split_and!; [vm_compute; reflexivity.. | lia]|].
    apply elem_of_cons in HD as [->|HD];
      [exists 4, 1; split_and!; [vm_compute; reflexivity.. | lia]|].
    by apply elem_of_nil in HD.
Defined.


(** * Further properties of tactical_voting.py *)

Lemma index_Raise (x : string) (l : list string) :
  x ∉ l → ∃ e, index x l = Raise e.
Proof.
  induction l as [|y l IH]; intros Hx; simpl; [eauto|].
  apply not_elem_of_cons in Hx as [Hne Hx].
  rewrite decide_False by done. destruct (IH Hx) as [e ->]. simpl. eauto.
Qed.

Lemma index_Ok_elem (x : string) (l : list string) (n : nat) :
  index x l = Ok n → x ∈ l.
Proof. intros H. apply index_lookup in H. by eapply list_elem_of_lookup_2. Qed.

Lemma filter_all {A : Type} (P : A → Prop) `{∀ x, Decision (P x)} (l : list A) :
  (∀ x, x ∈ l → P x) → filter P l = l.
Proof.
  induction l as [|x l IH]; intros Hall; [done|].
  rewrite filter_cons_True by (apply Hall; by left).
  f_equal. apply IH. intros y Hy. apply Hall. by right.
Qed.

Lemma best_position_filter (true_ranking winners : list string) :
  best_position true_ranking winners
  = best_position true_ranking (filter (fun w => w ∈ true_ranking) winners).
Proof.
  unfold best_position. f_equal. f_equal. symmetry. apply filter_all.
  intros w Hw. by apply list_elem_of_filter in Hw as [? _].
Qed.

Lemma best_position_some_ranked (true_ranking winners : list string) :
  (∃ w, w ∈ winners ∧ w ∈ true_ranking) →
  ∃ m, best_position true_ranking winners = Ok m ∧
       least_position true_ranking winners m.
Proof.
  intros (w & Hw & Hr). rewrite best_position_filter.
  destruct (best_position_spec true_ranking
              (filter (fun w => w ∈ true_ranking) winners)) as (m & Hm & Hleast).
  - intros Hnil. assert (w ∈ filter (fun w => w ∈ true_ranking) winners) as Hin
      by by apply list_elem_of_filter.
    rewrite Hnil in Hin. by apply elem_of_nil in Hin.
  - intros w' Hw'. by apply list_elem_of_filter in Hw' as [? _].
  - exists m. split; [done|]. destruct Hleast as [(w0 & Hw0 & Hl0) Hmin]. split.
    + exists w0. split; [|done]. by apply list_elem_of_filter in Hw0 as [_ ?].
    + intros m' w' Hw' Hl'. apply (Hmin m' w'); [|done].
      apply list_elem_of_filter. split; [|done]. by eapply list_elem_of_lookup_2.
Qed.

Lemma best_position_none_ranked (true_ranking winners : list string) :
  (∀ w, w ∈ winners → w ∉ true_ranking) →
  best_position true_ranking winners
  = Raise (ValueError "min() arg is an empty sequence").
Proof.
  intros Hnone. unfold best_position. by rewrite filter_none.
Qed.

Lemma some_ranked_dec (true_ranking winners : list string) :
  (∃ w, w ∈ winners ∧ w ∈ true_ranking) ∨ (∀ w, w ∈ winners → w ∉ true_ranking).
Proof.
  induction winners as [|w ws [(w' & Hw' & Hr)|Hnone]].
  - right. intros w Hw. by apply elem_of_nil in Hw.
  - left. exists w'. split; [by right|done].
  - destruct (decide (w ∈ true_ranking)) as [Hr|Hr].
    + left. exists w. split; [by left|done].
    + right. intros w' Hw'. apply elem_of_cons in Hw' as [->|Hw']; [done|].
      by apply Hnone.
Qed.

(** X1. [is_better_outcome] looks only at the winners that occur in the true
    ranking: it returns a verdict exactly when each winner list has such a
    member, and otherwise raises the ValueError of [min] on an empty
    sequence. *)
Theorem is_better_outcome_defined (true_ranking original_winners new_winners : list string) :
  is_better_outcome true_ranking original_winners new_winners
  = is_better_outcome true_ranking
      (filter (fun w => w ∈ true_ranking) original_winners)
      (filter (fun w => w ∈ true_ranking) new_winners) ∧
  ((∃ r, is_better_outcome true_ranking original_winners new_winners = Ok r) ↔
   (∃ w, w ∈ original_winners ∧ w ∈ true_ranking) ∧
   (∃ w, w ∈ new_winners ∧ w ∈ true_ranking)) ∧
  (∀ e, is_better_outcome true_ranking original_winners new_winners = Raise e →
        e = ValueError "min() arg is an empty sequence").
Proof.
  split_and!.
  - unfold is_better_outcome.
    by rewrite <- !best_position_filter.
  - unfold is_better_outcome. split.
    + intros [r Hr].
      destruct (some_ranked_dec true_ranking original_winners) as [Ho|Ho];
        [|by rewrite (best_position_none_ranked _ _ Ho) in Hr].
      destruct (best_position_some_ranked _ _ Ho) as (mo & Hmo & _).
      rewrite Hmo in Hr. simpl in Hr.
      destruct (some_ranked_dec true_ranking new_winners) as [Hn|Hn];
        [done | by rewrite (best_position_none_ranked _ _ Hn) in Hr].
    + intros [Ho Hn].
      destruct (best_position_some_ranked _ _ Ho) as (mo & -> & _).
      destruct (best_position_some_ranked _ _ Hn) as (mn & -> & _).
      simpl. eauto.
  - intros e. unfold is_better_outcome.
    destruct (some_ranked_dec true_ranking original_winners) as [Ho|Ho];
      [|rewrite (best_position_none_ranked _ _ Ho); simpl; congruence].
    destruct (best_position_some_ranked _ _ Ho) as (mo & -> & _). simpl.
    destruct (some_ranked_dec true_ranking new_winners) as [Hn|Hn];
      [|rewrite (best_position_none_ranked _ _ Hn); simpl; congruence].
    destruct (best_position_some_ranked _ _ Hn) as (mn & -> & _). simpl. done.
Qed.

Lemma is_better_outcome_defined_witness :
  (∃ r, is_better_outcome ["A"; "B"; "C"] ["X"; "C"] ["B"; "Y"] = Ok r) ∧
  is_better_outcome ["A"; "B"; "C"] ["X"] ["B"]
  = Raise (ValueError "min() arg is an empty sequence").
Proof.
  split.
  - apply (proj1 (proj2 (is_better_outcome_defined
                           ["A"; "B"; "C"] ["X"; "C"] ["B"; "Y"]))).
    split; [exists "C" | exists "B"]; split; by_evaluation.
  - pose proof (proj2 (proj2 (is_better_outcome_defined
                                ["A"; "B"; "C"] ["X"] ["B"]))) as Hraise.
    destruct (is_better_outcome ["A"; "B"; "C"] ["X"] ["B"]) as [r|e] eqn:Hrun;
      [by vm_compute in Hrun|].
    by rewrite (Hraise e eq_refl).
Defined.

(** X2. "Strictly better" is a strict order on winner lists: no outcome is
    better than itself, two outcomes are never each better than the other,
    and better-than chains compose. *)
Theorem is_better_outcome_strict_order (true_ranking a b c : list string) :
  is_better_outcome true_ranking a a ≠ Ok true ∧
  (is_better_outcome true_ranking a b = Ok true →
   is_better_outcome true_ranking b a = Ok false) ∧
  (is_better_outcome true_ranking a b = Ok true →
   is_better_outcome true_ranking b c = Ok true →
   is_better_outcome true_ranking a c = Ok true).
Proof.
  unfold is_better_outcome.
  destruct (best_position true_ranking a) as [pa|ea]; simpl;
    [|split_and!; intros; discriminate].
  destruct (best_position true_ranking b) as [pb|eb]; simpl.
  - split_and!.
    + intros [= Hlt]. apply bool_decide_eq_true in Hlt. lia.
    + intros [= Hlt]. apply bool_decide_eq_true in Hlt.
      f_equal. apply bool_decide_eq_false. lia.
    + intros [= Hab].
      destruct (best_position true_ranking c) as [pc|ec]; simpl; [|done].
      intros [= Hbc]. apply bool_decide_eq_true in Hab, Hbc.
      f_equal. apply bool_decide_eq_true. lia.
  - split_and!; [|done..]. intros [= Hlt]. apply bool_decide_eq_true in Hlt. lia.
Qed.

Lemma is_better_outcome_strict_order_witness :
  is_better_outcome ["A"; "B"; "C"] ["B"] ["C"] = Ok false ∧
  is_better_outcome ["A"; "B"; "C"] ["C"] ["A"] = Ok true.
Proof.
  pose proof (is_better_outcome_strict_order
                ["A"; "B"; "C"] ["C"] ["B"] ["A"]) as (_ & Hasym & Htrans).
  split; [apply Hasym | apply Htrans]; reflexivity.
Defined.

Lemma min_by_from_index (true_ranking rest : list string) (best : string) (bk : nat) :
  index best true_ranking = Ok bk →
  Forall (fun w => w ∈ true_ranking) rest →
  ∃ r m, min_by_from (fun c => index c true_ranking) best bk rest = Ok r ∧
         r ∈ best :: rest ∧ index r true_ranking = Ok m ∧ m ≤ bk ∧
         ∀ w k, w ∈ rest → index w true_ranking = Ok k → m ≤ k.
Proof.
  intros Hbest Hall. revert best bk Hbest.
  induction Hall as [|x rest Hx _ IH]; intros best bk Hbest.
  - exists best, bk. simpl. split_and!; [done | by left | done | lia |].
    intros w k Hw. by apply elem_of_nil in Hw.
  - destruct (index_Ok x _ Hx) as (kx & Hkx & _). simpl. rewrite Hkx. simpl.
    destruct (decide (kx < bk)) as [Hlt|Hge].
    + destruct (IH x kx Hkx) as (r & m & Hrun & Hin & Hidx & Hle & Hmin).
      exists r, m. split_and!; [done | | done | lia |].
      * right. done.
      * intros w k Hw Hk. apply elem_of_cons in Hw as [->|Hw]; [|by eapply Hmin].
        assert (k = kx) as -> by congruence. done.
    + destruct (IH best bk Hbest) as (r & m & Hrun & Hin & Hidx & Hle & Hmin).
      exists r, m. split_and!; [done | | done | lia |].
      * apply elem_of_cons in Hin as [->|Hin]; [by left | right; by right].
      * intros w k Hw Hk. apply elem_of_cons in Hw as [->|Hw]; [|by eapply Hmin].
        assert (k = kx) as -> by congruence. lia.
Qed.

Lemma py_min_by_index (true_ranking l : list string) :
  l ≠ [] → Forall (fun w => w ∈ true_ranking) l →
  ∃ r m, py_min_by (fun c => index c true_ranking) l = Ok r ∧ r ∈ l ∧
         index r true_ranking = Ok m ∧ least_position true_ranking l m.
Proof.
  intros Hne Hall. destruct l as [|x rest]; [done|].
  apply Forall_cons in Hall as [Hx Hall].
  destruct (index_Ok x _ Hx) as (kx & Hkx & _).
  destruct (min_by_from_index true_ranking rest x kx Hkx Hall)
    as (r & m & Hrun & Hin & Hidx & Hle & Hmin).
  exists r, m. simpl. rewrite Hkx. simpl. split_and!; [done | done | done |].
  split.
  - exists r. split; [done|]. by apply index_lookup.
  - intros m' w' Hw' Hl'.
    destruct (index_Ok w' true_ranking) as (k & Hk & _ & Hfirst);
      [by eapply list_elem_of_lookup_2|].
    specialize (Hfirst m' Hl').
    apply elem_of_cons in Hw' as [->|Hw'].
    + assert (k = kx) as -> by congruence. lia.
    + specialize (Hmin w' k Hw' Hk). lia.
Qed.

Lemma min_by_from_Ok_ranked (true_ranking rest : list string) (best r : string) (bk : nat) :
  min_by_from (fun c => index c true_ranking) best bk rest = Ok r →
  Forall (fun w => w ∈ true_ranking) rest.
Proof.
  revert best bk. induction rest as [|x rest IH]; intros best bk Hrun; [constructor|].
  simpl in Hrun. apply bind_Ok in Hrun as (k & Hk & Hrun).
  constructor; [by eapply index_Ok_elem|].
  destruct (decide (k < bk)); by eapply IH.
Qed.

Lemma py_min_by_Ok_ranked (true_ranking l : list string) (r : string) :
  py_min_by (fun c => index c true_ranking) l = Ok r →
  l ≠ [] ∧ Forall (fun w => w ∈ true_ranking) l.
Proof.
  destruct l as [|x rest]; [done|]. simpl. intros Hrun.
  apply bind_Ok in Hrun as (k & Hk & Hrun). split; [done|].
  constructor; [by eapply index_Ok_elem | by eapply min_by_from_Ok_ranked].
Qed.

Lemma least_position_unique (true_ranking winners : list string) (m m' : nat) :
  least_position true_ranking winners m → least_position true_ranking winners m' →
  m = m'.
Proof.
  intros [(w & Hw & Hl) Hmin] [(w' & Hw' & Hl') Hmin'].
  specialize (Hmin m' w' Hw' Hl'). specialize (Hmin' m w Hw Hl). lia.
Qed.

Lemma describe_benefit_Ok_iff (true_ranking original_winners new_winners : list string) :
  (∃ text, describe_benefit true_ranking original_winners new_winners = Ok text) ↔
  original_winners ≠ [] ∧ new_winners ≠ [] ∧
  (∀ w, w ∈ original_winners ∨ w ∈ new_winners → w ∈ true_ranking).
Proof.
  unfold describe_benefit. split.
  - intros [text Hrun].
    apply bind_Ok in Hrun as (nb & Hnb & Hrun).
    apply bind_Ok in Hrun as (np & _ & Hrun).
    apply bind_Ok in Hrun as (ob & Hob & _).
    apply py_min_by_Ok_ranked in Hnb as [Hnne Hnall].
    apply py_min_by_Ok_ranked in Hob as [Hone Hoall].
    split_and!; [done | done |].
    rewrite Forall_forall in Hnall, Hoall. intros w [Hw|Hw]; eauto.
  - intros (Hone & Hnne & Hall).
    destruct (py_min_by_index true_ranking new_winners Hnne)
      as (nb & np & -> & _ & Hnp & _).
    { apply Forall_forall. intros w Hw. apply Hall. by right. }
    destruct (py_min_by_index true_ranking original_winners Hone)
      as (ob & op & -> & _ & Hop & _).
    { apply Forall_forall. intros w Hw. apply Hall. by left. }
    simpl. rewrite Hnp. simpl. rewrite Hop. simpl. eauto.
Qed.

(** X3. [describe_benefit] produces a text exactly when both winner lists are
    non-empty and every winner occurs in the true ranking; unlike
    [is_better_outcome] it does not skip winners missing from the ranking. *)
Theorem describe_benefit_defined (true_ranking original_winners new_winners : list string) :
  (∃ text, describe_benefit true_ranking original_winners new_winners = Ok text) ↔
  original_winners ≠ [] ∧ new_winners ≠ [] ∧
  (∀ w, w ∈ original_winners ∨ w ∈ new_winners → w ∈ true_ranking).
Proof. apply describe_benefit_Ok_iff. Qed.

Lemma describe_benefit_defined_witness :
  (∃ text, describe_benefit ["A"; "B"; "C"] ["C"; "B"] ["A"; "C"] = Ok text) ∧
  ¬ (∃ text, describe_benefit ["A"; "B"; "C"] ["C"; "X"] ["A"] = Ok text).
Proof.
  split.
  - apply (proj2 (describe_benefit_defined ["A"; "B"; "C"] ["C"; "B"] ["A"; "C"])).
    split_and!; [done | done |]. intros w [Hw|Hw]; by_evaluation_in Hw.
  - intros Hok.
    apply (proj1 (describe_benefit_defined ["A"; "B"; "C"] ["C"; "X"] ["A"])) in Hok
      as (_ & _ & Hall).
    assert ("X" ∈ ["A"; "B"; "C"]) as Hin.
    { apply Hall. left. by_evaluation. }
    revert Hin. by_evaluation.
Defined.

(** X4. When [describe_benefit] answers, the candidates it names are the
    winners the voter ranks highest in each list, and the ranks it prints are
    one more than the positions [is_better_outcome] compares. *)
Theorem describe_benefit_text (true_ranking original_winners new_winners : list string)
  (text : string) :
  describe_benefit true_ranking original_winners new_winners = Ok text →
  ∃ orig new orig_best new_best,
    best_position true_ranking original_winners = Ok orig ∧
    best_position true_ranking new_winners = Ok new ∧
    orig_best ∈ original_winners ∧ true_ranking !! orig = Some orig_best ∧
    new_best ∈ new_winners ∧ true_ranking !! new = Some new_best ∧
    text = ("Voter's " ++ _ordinal (Z.of_nat new + 1) ++ " choice (" ++ new_best
            ++ ") wins instead of " ++ _ordinal (Z.of_nat orig + 1)
            ++ " choice (" ++ orig_best ++ ")")%string.
Proof.
  intros Hrun.
  destruct (proj1 (describe_benefit_Ok_iff _ _ _) (ex_intro _ text Hrun))
    as (Hone & Hnne & Hall).
  assert (Hoall : ∀ w, w ∈ original_winners → w ∈ true_ranking) by (intros; eauto).
  assert (Hnall : ∀ w, w ∈ new_winners → w ∈ true_ranking) by (intros; eauto).
  destruct (py_min_by_index true_ranking new_winners Hnne)
    as (nb & np & Hnb & Hnbin & Hnp & Hnleast); [by apply Forall_forall|].
  destruct (py_min_by_index true_ranking original_winners Hone)
    as (ob & op & Hob & Hobin & Hop & Holeast); [by apply Forall_forall|].
  destruct (best_position_spec true_ranking original_winners Hone Hoall)
    as (orig & Horig & Holeast').
  destruct (best_position_spec true_ranking new_winners Hnne Hnall)
    as (new & Hnew & Hnleast').
  assert (op = orig) as -> by by eapply least_position_unique.
  assert (np = new) as -> by by eapply least_position_unique.
  exists orig, new, ob, nb.
  split_and!; [done | done | done | by apply index_lookup | done
               | by apply index_lookup |].
  unfold describe_benefit in Hrun. rewrite Hnb in Hrun. simpl in Hrun.
  rewrite Hnp in Hrun. simpl in Hrun. rewrite Hob in Hrun. simpl in Hrun.
  rewrite Hop in Hrun. simpl in Hrun. by injection Hrun as <-.
Qed.

Lemma describe_benefit_text_witness :
  ∃ orig new orig_best new_best,
    best_position ["A"; "B"; "C"] ["C"; "B"] = Ok orig ∧
    best_position ["A"; "B"; "C"] ["A"; "C"] = Ok new ∧
    orig_best ∈ ["C"; "B"] ∧ ["A"; "B"; "C"] !! orig = Some orig_best ∧
    new_best ∈ ["A"; "C"] ∧ ["A"; "B"; "C"] !! new = Some new_best ∧
    "Voter's 1st choice (A) wins instead of 2nd choice (B)"
    = ("Voter's " ++ _ordinal (Z.of_nat new + 1) ++ " choice (" ++ new_best
       ++ ") wins instead of " ++ _ordinal (Z.of_nat orig + 1)
       ++ " choice (" ++ orig_best ++ ")")%string.
Proof.
  apply (describe_benefit_text ["A"; "B"; "C"] ["C"; "B"] ["A"; "C"]).
  vm_compute. reflexivity.
Defined.

Lemma Z_match_other {A : Type} (z : Z) (a b c d : A) :
  z ≠ 1%Z → z ≠ 2%Z → z ≠ 3%Z →
  match z with 1%Z => a | 2%Z => b | 3%Z => c | _ => d end = d.
Proof.
  intros H1 H2 H3. destruct z as [|p|p]; [done| |done].
  destruct p as [[p|p|]|[p|p|]|]; done.
Qed.

(** X5. [_ordinal] appends "st", "nd" or "rd" to the decimal of [n] when the
    last digit is 1, 2 or 3 and the last two digits are not 11, 12 or 13, and
    "th" in every other case. *)
Theorem ordinal_suffix (n : Z) :
  _ordinal n
  = (pretty n ++
     if decide (n `mod` 10 = 1 ∧ n `mod` 100 ≠ 11)%Z then "st"
     else if decide (n `mod` 10 = 2 ∧ n `mod` 100 ≠ 12)%Z then "nd"
     else if decide (n `mod` 10 = 3 ∧ n `mod` 100 ≠ 13)%Z then "rd"
     else "th")%string.
Proof.
  unfold _ordinal. f_equal.
  assert (Hmod : ((n `mod` 100) `mod` 10 = n `mod` 10)%Z).
  { apply Z.mod_mod_divide. by exists 10%Z. }
  pose proof (Z.mod_pos_bound n 100 ltac:(lia)) as Hr.
  pose proof (Z.mod_pos_bound (n `mod` 100) 10 ltac:(lia)) as Hq.
  pose proof (Z.div_mod (n `mod` 100) 10 ltac:(lia)) as Hdm.
  rewrite Hmod in Hq, Hdm.
  destruct (decide (10 ≤ n `mod` 100 ∧ n `mod` 100 ≤ 20)%Z) as [Hteen|Hnot].
  - rewrite !decide_False; [done|lia..].
  - destruct (decide (n `mod` 10 = 1)%Z) as [H1|H1].
    { rewrite H1, decide_True; [done|]. split; [done|lia]. }
    destruct (decide (n `mod` 10 = 2)%Z) as [H2|H2].
    { rewrite H2, decide_False, decide_True by lia. done. }
    destruct (decide (n `mod` 10 = 3)%Z) as [H3|H3].
    { rewrite H3, !decide_False, decide_True by lia. done. }
    rewrite Z_match_other, !decide_False by lia. done.
Qed.

(** * Further properties of ballot.py *)

(** X6. Rebuilding a ballot from its own ranking gives the same ballot, and a
    ballot built from a list hands that list back. *)
Theorem ballot_round_trip (l : list string) (b : Ballot.t) :
  (Ballot.init l = Ok b → Ballot.get_ranking b = l) ∧
  (Ballot.init l = Ok b → Ballot.init (Ballot.get_ranking b) = Ok b).
Proof.
  split; intros Hinit; apply init_wf in Hinit as [[Hne Hnd] Hr].
  - done.
  - unfold Ballot.get_ranking. rewrite (init_Ok _ Hne Hnd). by destruct b.
Qed.

Lemma ballot_round_trip_witness :
  Ballot.get_ranking (B ["B"; "C"; "A"]) = ["B"; "C"; "A"] ∧
  Ballot.init (Ballot.get_ranking (B ["B"; "C"; "A"])) = Ok (B ["B"; "C"; "A"]).
Proof.
  split; apply (ballot_round_trip ["B"; "C"; "A"] (B ["B"; "C"; "A"])); reflexivity.
Defined.

Lemma prefers_Raise_unknown (b : Ballot.t) (x y : string) (e : exn) :
  Ballot.prefers b x y = Raise e → Ballot.UnknownCandidate e.
Proof.
  intros He. destruct (decide (x ∈ Ballot.ranking b)) as [Hx|Hx];
    [destruct (decide (y ∈ Ballot.ranking b)) as [Hy|Hy]|].
  - destruct (prefers_Ok b x y Hx Hy) as (i & j & _ & _ & Hp). congruence.
  - destruct (prefers_Raise b x y (or_intror Hy)) as (e' & He' & HU). congruence.
  - destruct (prefers_Raise b x y (or_introl Hx)) as (e' & He' & HU). congruence.
Qed.

Lemma prefers_Ok_ranked (b : Ballot.t) (x y : string) (r : bool) :
  Ballot.prefers b x y = Ok r → ranks_both x y b.
Proof.
  intros Hr. unfold ranks_both.
  destruct (decide (x ∈ Ballot.ranking b)) as [Hx|Hx];
    [destruct (decide (y ∈ Ballot.ranking b)) as [Hy|Hy]|]; [done | |].
  - destruct (prefers_Raise b x y (or_intror Hy)) as (e' & He' & _). congruence.
  - destruct (prefers_Raise b x y (or_introl Hx)) as (e' & He' & _). congruence.
Qed.

(** X7. On the candidates a ballot ranks, [prefers] is a strict total order:
    nobody is preferred to themselves, of two different candidates exactly
    one is preferred to the other, and preferences chain. *)
Theorem prefers_strict_total_order (b : Ballot.t) (x y z : string) :
  (x ∈ Ballot.ranking b → Ballot.prefers b x x = Ok false) ∧
  (x ∈ Ballot.ranking b → y ∈ Ballot.ranking b → x ≠ y →
     (Ballot.prefers b x y = Ok true ∧ Ballot.prefers b y x = Ok false) ∨
     (Ballot.prefers b x y = Ok false ∧ Ballot.prefers b y x = Ok true)) ∧
  (Ballot.prefers b x y = Ok true → Ballot.prefers b y z = Ok true →
     Ballot.prefers b x z = Ok true).
Proof.
  split_and!.
  - intros Hx. destruct (prefers_Ok b x x Hx Hx) as (i & j & Hi & Hj & ->).
    f_equal. apply bool_decide_eq_false. assert (i = j) by congruence. lia.
  - intros Hx Hy Hne. destruct (prefers_flip b x y Hx Hy Hne) as ([] & -> & ->);
      [by left | by right].
  - intros Hxy Hyz.
    pose proof (prefers_Ok_ranked _ _ _ _ Hxy) as [Hx Hy].
    pose proof (prefers_Ok_ranked _ _ _ _ Hyz) as [_ Hz].
    destruct (prefers_Ok b x y Hx Hy) as (i & j & Hi & Hj & Hp1).
    destruct (prefers_Ok b y z Hy Hz) as (j' & k & Hj' & Hk & Hp2).
    destruct (prefers_Ok b x z Hx Hz) as (i' & k' & Hi' & Hk' & ->).
    assert (j' = j) as -> by congruence. assert (i' = i) as -> by congruence.
    assert (k' = k) as -> by congruence.
    rewrite Hp1 in Hxy. rewrite Hp2 in Hyz.
    injection Hxy as Hxy. injection Hyz as Hyz.
    apply bool_decide_eq_true in Hxy, Hyz. f_equal. apply bool_decide_eq_true. lia.
Qed.

Lemma prefers_strict_total_order_witness :
  Ballot.prefers (B ["B"; "C"; "A"]) "C" "C" = Ok false ∧
  ((Ballot.prefers (B ["B"; "C"; "A"]) "A" "B" = Ok true ∧
    Ballot.prefers (B ["B"; "C"; "A"]) "B" "A" = Ok false) ∨
   (Ballot.prefers (B ["B"; "C"; "A"]) "A" "B" = Ok false ∧
    Ballot.prefers (B ["B"; "C"; "A"]) "B" "A" = Ok true)) ∧
  Ballot.prefers (B ["B"; "C"; "A"]) "B" "A" = Ok true.
Proof.
  split_and!.
  - apply (prefers_strict_total_order (B ["B"; "C"; "A"]) "C" "C" "C"). by_evaluation.
  - apply (prefers_strict_total_order (B ["B"; "C"; "A"]) "A" "B" "B");
      [by_evaluation | by_evaluation | done].
  - apply (prefers_strict_total_order (B ["B"; "C"; "A"]) "B" "C" "A"); reflexivity.
Defined.

Lemma aggregate_fold_lookup (ballots : list Ballot.t) (b : Ballot.t)
  (m : gmap Ballot.t nat) :
  foldl (fun type_counts ballot =>
           <[ballot := default 0 (type_counts !! ballot) + 1]> type_counts) m ballots
    !! b
  = if decide (b ∈ ballots)
    then Some (default 0 (m !! b) + length (filter (fun x => x = b) ballots))
    else m !! b.
Proof.
  revert m. induction ballots as [|x bs IH]; intros m; cbn [foldl].
  - rewrite decide_False; [done|]. apply not_elem_of_nil.
  - rewrite IH. destruct (decide (x = b)) as [->|Hne].
    + rewrite filter_cons_True by done. rewrite lookup_insert_eq. simpl.
      rewrite (decide_True (P := b ∈ b :: bs)) by by left.
      destruct (decide (b ∈ bs)) as [Hin|Hnin]; [f_equal; lia|].
      rewrite (filter_none (fun x => x = b) bs); [simpl; f_equal; lia|].
      intros y Hy ->. done.
    + rewrite filter_cons_False by done. rewrite lookup_insert_ne by done.
      destruct (decide (b ∈ bs)) as [Hin|Hnin].
      * rewrite decide_True; [done|]. by right.
      * rewrite decide_False; [done|]. rewrite not_elem_of_cons. by split.
Qed.

(** X8. [aggregate_ballot_types] maps each ballot that occurs to the number of
    ballots equal to it, and has no entry for a ballot that does not occur. *)
Theorem aggregate_ballot_types_counts (ballots : list Ballot.t) (b : Ballot.t) :
  aggregate_ballot_types ballots !! b
  = if decide (b ∈ ballots)
    then Some (length (filter (fun x => x = b) ballots))
    else None.
Proof.
  unfold aggregate_ballot_types. rewrite aggregate_fold_lookup, lookup_empty. done.
Qed.

Lemma total_count_insert (m : gmap Ballot.t nat) (k : Ballot.t) (v : nat) :
  total_count (<[k := v]> m) + default 0 (m !! k) = v + total_count m.
Proof.
  unfold total_count.
  destruct (m !! k) as [x|] eqn:Hk; simpl.
  - rewrite <- (insert_delete_eq m k v).
    rewrite <- (insert_delete_id m k x Hk) at 2.
    rewrite !map_fold_insert_L; [lia | | | |]; try apply lookup_delete_eq;
      intros; lia.
  - rewrite map_fold_insert_L; [lia | intros; lia | done].
Qed.

(** X9. The counts of the voter types add up to the number of ballots, and
    there are at most as many types as ballots. *)
Theorem aggregate_ballot_types_total (ballots : list Ballot.t) :
  total_count (aggregate_ballot_types ballots) = length ballots ∧
  size (aggregate_ballot_types ballots) ≤ length ballots.
Proof.
  unfold aggregate_ballot_types.
  assert (Hgen : ∀ m : gmap Ballot.t nat,
    total_count (foldl (fun type_counts ballot =>
        <[ballot := default 0 (type_counts !! ballot) + 1]> type_counts) m ballots)
    = total_count m + length ballots ∧
    size (foldl (fun type_counts ballot =>
        <[ballot := default 0 (type_counts !! ballot) + 1]> type_counts) m ballots)
    ≤ size m + length ballots).
  { induction ballots as [|b bs IH]; intros m; simpl; [split; lia|].
    destruct (IH (<[b := default 0 (m !! b) + 1]> m)) as [Ht Hs].
    rewrite Ht. pose proof (total_count_insert m b (default 0 (m !! b) + 1)) as Hi.
    pose proof (map_size_insert b (default 0 (m !! b) + 1) m) as Hsz.
    destruct (m !! b); simpl in *; split; lia. }
  destruct (Hgen ∅) as [Ht Hs]. rewrite Ht. rewrite map_size_empty in Hs.
  unfold total_count. rewrite map_fold_empty. split; lia.
Qed.

(** * Further properties of algorithms.py: the head-to-head matrix *)

Lemma for_each_Raise {S A : Type} (body : S → A → result S) (xs : list A) (s : S)
  (e : exn) :
  for_each body xs s = Raise e → ∃ x s', x ∈ xs ∧ body s' x = Raise e.
Proof.
  revert s. induction xs as [|x xs IH]; intros s; simpl; [done|].
  destruct (body s x) as [s1|e1] eqn:Hb; simpl.
  - intros Hrun. destruct (IH s1 Hrun) as (y & s' & Hy & Hs').
    exists y, s'. split; [by right|done].
  - intros [= ->]. exists x, s. split; [by left|done].
Qed.

Lemma count_prefers_Ok_inv (ballots : list Ballot.t) (x y : string) (n : nat) :
  count_prefers ballots x y = Ok n →
  Forall (ranks_both x y) ballots ∧ n = length (supporters ballots x y).
Proof.
  unfold count_prefers, supporters.
  assert (Hgen : ∀ c,
    for_each (fun count ballot => pr ← Ballot.prefers ballot x y;
                Ok (if pr : bool then count + 1 else count)) ballots c = Ok n →
    Forall (ranks_both x y) ballots ∧
    n = c + length (filter (fun b => Ballot.prefers b x y = Ok true) ballots)).
  { induction ballots as [|b bs IH]; intros c Hrun.
    - simpl in Hrun. injection Hrun as <-. split; [constructor|simpl; lia].
    - cbn [for_each] in Hrun. apply bind_Ok in Hrun as (c' & Hstep & Hrun).
      apply bind_Ok in Hstep as (r & Hr & Hc'). injection Hc' as <-.
      destruct (IH _ Hrun) as [Hall ->].
      split; [constructor; [by eapply prefers_Ok_ranked|done]|].
      destruct r.
      + rewrite filter_cons_True by done. simpl. lia.
      + rewrite filter_cons_False by congruence. lia. }
  intros Hrun. destruct (Hgen 0 Hrun) as [? ->]. done.
Qed.

Lemma count_prefers_Raise (ballots : list Ballot.t) (x y : string) (e : exn) :
  count_prefers ballots x y = Raise e → Ballot.UnknownCandidate e.
Proof.
  unfold count_prefers. intros Hrun.
  apply for_each_Raise in Hrun as (b & c & _ & Hstep).
  destruct (Ballot.prefers b x y) as [r|e'] eqn:Hp; simpl in Hstep; [done|].
  injection Hstep as <-. by eapply prefers_Raise_unknown.
Qed.

Lemma get_head_to_head_matrix_keys (ballots : list Ballot.t) (candidates : list string)
  (h2h : gmap (string * string) nat) (a b : string) :
  get_head_to_head_matrix ballots candidates = Ok h2h →
  is_Some (h2h !! (a, b)) → a ∈ candidates ∧ b ∈ candidates.
Proof.
  intros Hrun. revert a b. unfold get_head_to_head_matrix in Hrun.
  apply (for_each_partial _
    (fun _ (m : gmap (string * string) nat) =>
       ∀ a b, is_Some (m !! (a, b)) → a ∈ candidates ∧ b ∈ candidates)
    _ _ _ Hrun).
  - intros a b [n Hn]. by rewrite lookup_empty in Hn.
  - clear Hrun h2h. intros done a m m1 [rest Hsplit] Hinv Hrow.
    assert (a ∈ candidates) as Ha by (rewrite Hsplit; apply elem_of_app; right; by left).
    apply (for_each_partial _
      (fun _ (m : gmap (string * string) nat) =>
         ∀ a b, is_Some (m !! (a, b)) → a ∈ candidates ∧ b ∈ candidates)
      _ _ _ Hrow); [done|].
    clear Hrow Hinv m m1. intros doneb b m m1 [restb Hsplitb] Hinv Hstep.
    assert (b ∈ candidates) as Hb
      by (rewrite Hsplitb; apply elem_of_app; right; by left).
    destruct (decide (a = b)) as [->|Hab]; [by injection Hstep as <-|].
    apply bind_Ok in Hstep as (n & _ & [= <-]).
    intros a' b' Hsome. destruct (decide ((a, b) = (a', b'))) as [[= <- <-]|Hk]; [done|].
    rewrite lookup_insert_ne in Hsome by done. by apply Hinv.
Qed.

(** X10. The matrix the builder returns has an entry exactly for the ordered
    pairs of two different listed candidates, and the entry of (a, b) is the
    number of ballots that rank a above b, hence at most the number of
    ballots. *)
Theorem head_to_head_entries (ballots : list Ballot.t) (candidates : list string)
  (h2h : gmap (string * string) nat) (a b : string) :
  get_head_to_head_matrix ballots candidates = Ok h2h →
  h2h !! (a, b)
  = (if decide (a ∈ candidates ∧ b ∈ candidates ∧ a ≠ b)
     then Some (length (supporters ballots a b)) else None) ∧
  length (supporters ballots a b) ≤ length ballots.
Proof.
  intros Hrun. split; [|apply length_filter].
  pose proof (get_head_to_head_matrix_inv _ _ _ Hrun) as [Hs Hc].
  destruct (decide (a ∈ candidates ∧ b ∈ candidates ∧ a ≠ b)) as [(Ha & Hb & Hne)|Hno].
  - destruct (Hc a b) as [n Hn]; [done | done |].
    destruct (Hs _ _ _ Hn) as [_ Hcnt].
    apply count_prefers_Ok_inv in Hcnt as [_ ->]. done.
  - destruct (h2h !! (a, b)) as [n|] eqn:Hn; [|done]. destruct Hno.
    destruct (Hs _ _ _ Hn) as [Hne _].
    destruct (get_head_to_head_matrix_keys _ _ _ a b Hrun) as [Ha Hb]; [eauto|].
    done.
Qed.

Lemma head_to_head_entries_witness :
  (<[("B", "A") := 1]> (<[("A", "B") := 4]> ∅) : gmap (string * string) nat)
    !! ("A", "B")
  = (if decide ("A" ∈ ["A"; "B"] ∧ "B" ∈ ["A"; "B"] ∧ "A" ≠ "B")
     then Some (length (supporters ballots_condorcet "A" "B")) else None) ∧
  length (supporters ballots_condorcet "A" "B") ≤ length ballots_condorcet.
Proof.
  apply (head_to_head_entries ballots_condorcet ["A"; "B"]).
  vm_compute. reflexivity.
Defined.

Lemma get_head_to_head_matrix_cases (ballots : list Ballot.t) (candidates : list string) :
  ((∃ h2h, get_head_to_head_matrix ballots candidates = Ok h2h) ↔
   (∀ a b, a ∈ candidates → b ∈ candidates → a ≠ b →
           Forall (ranks_both a b) ballots)) ∧
  (∀ e, get_head_to_head_matrix ballots candidates = Raise e →
        Ballot.UnknownCandidate e).
Proof.
  split; [split|].
  - intros [h2h Hrun] a b Ha Hb Hne.
    pose proof (get_head_to_head_matrix_inv _ _ _ Hrun) as [Hs Hc].
    destruct (Hc a b) as [n Hn]; [done | done |].
    destruct (Hs _ _ _ Hn) as [_ Hcnt].
    by apply count_prefers_Ok_inv in Hcnt as [? _].
  - intros Hall. unfold get_head_to_head_matrix.
    apply for_each_Ok. intros a m Ha. apply for_each_Ok. intros b m' Hb.
    destruct (decide (a = b)); [eauto|].
    destruct (count_prefers_Ok ballots a b) as (cnt & ->); [by apply Hall|].
    simpl. eauto.
  - intros e Hrun. unfold get_head_to_head_matrix in Hrun.
    apply for_each_Raise in Hrun as (a & m & _ & Hrow).
    apply for_each_Raise in Hrow as (b & m' & _ & Hstep).
    destruct (decide (a = b)) as [?|Hab]; [done|].
    destruct (count_prefers ballots a b) as [cnt|e'] eqn:Hcnt; simpl in Hstep; [done|].
    injection Hstep as <-. by eapply count_prefers_Raise.
Qed.

(** X11. The builder returns a matrix exactly when every ballot ranks both
    candidates of every pair of different listed candidates; every error it
    raises is the UnknownCandidate error of [prefers].  With fewer than two
    different candidates the ballots are not looked at. *)
Theorem head_to_head_defined (ballots : list Ballot.t) (candidates : list string) :
  ((∃ h2h, get_head_to_head_matrix ballots candidates = Ok h2h) ↔
   (∀ a b, a ∈ candidates → b ∈ candidates → a ≠ b →
           Forall (ranks_both a b) ballots)) ∧
  (∀ e, get_head_to_head_matrix ballots candidates = Raise e →
        Ballot.UnknownCandidate e).
Proof. apply get_head_to_head_matrix_cases. Qed.

Lemma head_to_head_defined_witness :
  (∃ h2h, get_head_to_head_matrix [B ["A"; "B"]; B ["X"]] ["A"; "A"] = Ok h2h) ∧
  (∀ h2h, get_head_to_head_matrix [B ["A"; "B"]; B ["B"]] ["A"; "B"] ≠ Ok h2h).
Proof.
  split.
  - apply (proj1 (head_to_head_defined [B ["A"; "B"]; B ["X"]] ["A"; "A"])).
    intros a b Ha Hb Hne. exfalso. apply Hne.
    apply elem_of_cons in Ha as [->|Ha];
      [|apply elem_of_cons in Ha as [->|Ha]; [|by apply elem_of_nil in Ha]];
      (apply elem_of_cons in Hb as [->|Hb];
        [|apply elem_of_cons in Hb as [->|Hb]; [|by apply elem_of_nil in Hb]]);
      done.
  - intros h2h Hrun.
    pose proof (proj1 (proj1 (head_to_head_defined
                                [B ["A"; "B"]; B ["B"]] ["A"; "B"]))
                  (ex_intro _ h2h Hrun) "A" "B") as Hall.
    assert (Forall (ranks_both "A" "B") [B ["A"; "B"]; B ["B"]]) as Hf.
    { apply Hall; [by_evaluation | by_evaluation | done]. }
    revert Hf. unfold ranks_both. by_evaluation.
Defined.

(** * Further properties of algorithms.py: [schulze] *)

Lemma beatpath_strengths_matrix (ballots : list Ballot.t) (candidates : list string)
  (h2h : gmap (string * string) nat) :
  get_head_to_head_matrix ballots candidates = Ok h2h →
  ∃ p, beatpath_strengths ballots candidates = Ok p ∧
       complete_keys candidates h2h ∧ complete_keys candidates p ∧
       attained candidates h2h p ∧ bounded candidates h2h candidates p.
Proof.
  intros Hh.
  pose proof (get_head_to_head_matrix_inv _ _ _ Hh) as [_ Hcov].
  assert (complete_keys candidates h2h) as Hkeys.
  { intros x y Hx Hy Hne. by apply Hcov. }
  destruct (initial_strengths_spec candidates h2h Hkeys) as (p0 & Hp0 & Hk0 & Hm0).
  destruct (closure_spec candidates h2h p0) as (p & Hp & Hkp & Hap & Hbp & _).
  - done.
  - intros x y Hx Hy Hne. exists []. split; [done|]. simpl. symmetry. by apply Hm0.
  - intros x y via (Hx & Hy & _ & _) Hne Hvia.
    destruct via as [|z via]; [simpl; by rewrite Hm0|].
    apply Forall_cons in Hvia as [Hz _]. by apply elem_of_nil in Hz.
  - exists p. unfold beatpath_strengths. rewrite Hh. simpl. rewrite Hp0. simpl. done.
Qed.

Lemma schulze_run_matrix (ballots : list Ballot.t) (candidates : list string)
  (h2h : gmap (string * string) nat) :
  candidates ≠ [] →
  get_head_to_head_matrix ballots candidates = Ok h2h →
  ∃ p scores max_score,
    beatpath_strengths ballots candidates = Ok p ∧
    beatpath_scores candidates p = Ok scores ∧
    py_max (scores.*2) = Ok max_score ∧
    schulze ballots candidates
    = Ok ((filter (fun cs => cs.2 = max_score) scores).*1, scores) ∧
    complete_keys candidates p ∧
    attained candidates h2h p ∧ bounded candidates h2h candidates p ∧
    NoDup scores.*1 ∧ (∀ c, c ∈ scores.*1 ↔ c ∈ candidates) ∧
    (∀ c, c ∈ candidates →
       od_get c scores = Ok (occurrences c candidates * wins p candidates c)) ∧
    max_score ∈ scores.*2 ∧ (∀ v, v ∈ scores.*2 → v ≤ max_score).
Proof.
  intros Hne Hh.
  destruct (beatpath_strengths_matrix ballots candidates h2h Hh)
    as (p & Hp & _ & Hkeys & Hatt & Hbound).
  destruct (beatpath_scores_spec candidates p Hkeys) as (d & Hd & Hnd & Hdk & Hdv).
  destruct (py_max_spec (d.*2)) as (m & Hm & Hin & Hle).
  { destruct candidates as [|c cs]; [done|].
    assert (c ∈ d.*1) as Hc by (apply Hdk; by left).
    intros Hnil. apply fmap_nil_inv in Hnil. subst d. by apply elem_of_nil in Hc. }
  exists p, d, m. unfold schulze. rewrite Hp. simpl. rewrite Hd. simpl.
  rewrite Hm. simpl. split_and!; done.
Qed.

Lemma schulze_Raise_matrix (ballots : list Ballot.t) (candidates : list string)
  (e : exn) :
  get_head_to_head_matrix ballots candidates = Raise e →
  schulze ballots candidates = Raise e.
Proof. intros Hh. unfold schulze, beatpath_strengths. by rewrite Hh. Qed.

(** X12. [schulze] returns a result exactly when the candidate list is not
    empty and the head-to-head matrix can be built.  With no candidates it
    raises the ValueError of [max] on an empty sequence, whatever the ballots;
    every other error is the UnknownCandidate error of a ballot that does not
    rank a listed candidate. *)
Theorem schulze_defined (ballots : list Ballot.t) (candidates : list string) :
  ((∃ r, schulze ballots candidates = Ok r) ↔
   candidates ≠ [] ∧
   ∀ a b, a ∈ candidates → b ∈ candidates → a ≠ b → Forall (ranks_both a b) ballots) ∧
  (candidates = [] →
   schulze ballots candidates = Raise (ValueError "max() arg is an empty sequence")) ∧
  (∀ e, candidates ≠ [] → schulze ballots candidates = Raise e →
        Ballot.UnknownCandidate e).
Proof.
  assert (Hempty : candidates = [] →
    schulze ballots candidates = Raise (ValueError "max() arg is an empty sequence")).
  { intros ->. reflexivity. }
  destruct (get_head_to_head_matrix_cases ballots candidates) as [Hiff Herr].
  split_and!; [split| done |].
  - intros [r Hrun]. split.
    + intros Hnil. rewrite (Hempty Hnil) in Hrun. done.
    + apply Hiff. destruct (get_head_to_head_matrix ballots candidates) as [h2h|e] eqn:Hh;
        [eauto|]. by rewrite (schulze_Raise_matrix _ _ _ Hh) in Hrun.
  - intros [Hne Hall]. apply Hiff in Hall as [h2h Hh].
    destruct (schulze_run_matrix ballots candidates h2h Hne Hh)
      as (p & d & m & _ & _ & _ & Hrun & _). eauto.
  - intros e Hne Hrun.
    destruct (get_head_to_head_matrix ballots candidates) as [h2h|e'] eqn:Hh.
    + destruct (schulze_run_matrix ballots candidates h2h Hne Hh)
        as (p & d & m & _ & _ & _ & Hrun' & _). congruence.
    + rewrite (schulze_Raise_matrix _ _ _ Hh) in Hrun. injection Hrun as <-.
      by apply Herr.
Qed.

Lemma schulze_defined_witness :
  schulze ballots_cycle [] = Raise (ValueError "max() arg is an empty sequence") ∧
  (∃ e, schulze [B ["A"; "B"]; B ["B"]] ["A"; "B"] = Raise e ∧
        Ballot.UnknownCandidate e).
Proof.
  split.
  - by apply (proj1 (proj2 (schulze_defined ballots_cycle []))).
  - destruct (schulze [B ["A"; "B"]; B ["B"]] ["A"; "B"]) as [r|e] eqn:Hrun;
      [by vm_compute in Hrun|].
    exists e. split; [done|].
    by apply (proj2 (proj2 (schulze_defined [B ["A"; "B"]; B ["B"]] ["A"; "B"])) e).
Defined.

(** X13. With a single candidate [schulze] elects that candidate with score 0
    and never looks at the ballots, which may even fail to rank the
    candidate. *)
Theorem schulze_single_candidate (ballots : list Ballot.t) (c : string) :
  schulze ballots [c] = Ok ([c], [(c, 0)]).
Proof.
  unfold schulze, beatpath_strengths, get_head_to_head_matrix, initial_strengths,
    closure, closure_pass, closure_row, beatpath_scores.
  cbn [for_each foldl od_set mbind result_bind].
  repeat (case_decide; try done; try tauto; cbn [for_each mbind result_bind]).
Qed.

Lemma for_each_fixed {S A : Type} (body : S → A → result S) (xs : list A) (s : S) :
  (∀ x, x ∈ xs → body s x = Ok s) → for_each body xs s = Ok s.
Proof.
  induction xs as [|x xs IH]; intros Hfix; simpl; [done|].
  rewrite Hfix by by left. simpl. apply IH. intros y Hy. apply Hfix. by right.
Qed.

Lemma strengths_triangle (candidates : list string) (h2h p : gmap (string * string) nat)
  (i k j : string) :
  attained candidates h2h p → bounded candidates h2h candidates p →
  i ∈ candidates → k ∈ candidates → j ∈ candidates → i ≠ k → k ≠ j → i ≠ j →
  Nat.min (pf p i k) (pf p k j) ≤ pf p i j.
Proof.
  intros Hatt Hbound Hi Hk Hj Hik Hkj Hij.
  destruct (Hatt i k Hi Hk Hik) as (v1 & Hp1 & <-).
  destruct (Hatt k j Hk Hj Hkj) as (v2 & Hp2 & <-).
  rewrite <- width_app. apply Hbound; [by apply is_path_app | done |].
  destruct Hp1 as (_ & _ & Hv1 & _), Hp2 as (_ & _ & Hv2 & _).
  apply Forall_app. split; [done|]. by apply Forall_cons.
Qed.

(** X14. The strengths left by the closure loop are a fixed point: they obey
    min(p[i,k], p[k,j]) <= p[i,j] for any three different candidates, and
    running the closure loop on them again changes nothing. *)
Theorem closure_fixed_point (ballots : list Ballot.t) (candidates : list string)
  (p : gmap (string * string) nat) :
  beatpath_strengths ballots candidates = Ok p →
  closure candidates p = Ok p ∧
  ∀ i k j, i ∈ candidates → k ∈ candidates → j ∈ candidates →
           i ≠ k → k ≠ j → i ≠ j →
           ∃ pik pkj pij, p !! (i, k) = Some pik ∧ p !! (k, j) = Some pkj ∧
                          p !! (i, j) = Some pij ∧ Nat.min pik pkj ≤ pij.
Proof.
  intros Hp.
  assert (∃ h2h, get_head_to_head_matrix ballots candidates = Ok h2h) as [h2h Hh].
  { unfold beatpath_strengths in Hp. apply bind_Ok in Hp as (h2h & Hh & _). eauto. }
  destruct (beatpath_strengths_matrix ballots candidates h2h Hh)
    as (p' & Hp' & _ & Hkeys & Hatt & Hbound).
  assert (p' = p) as -> by congruence.
  assert (Hlook : ∀ x y, x ∈ candidates → y ∈ candidates → x ≠ y →
            p !! (x, y) = Some (pf p x y)).
  { intros x y Hx Hy Hne. unfold pf. by destruct (Hkeys x y Hx Hy Hne) as [v ->]. }
  split.
  - unfold closure. apply for_each_fixed. intros k Hk.
    unfold closure_pass. apply for_each_fixed. intros i Hi.
    case_decide as Hik; [done|].
    unfold closure_row. apply for_each_fixed. intros j Hj.
    case_decide as Hskip; [done|]. unfold relax.
    assert (k ≠ j) as Hkj by (intros ->; tauto).
    assert (i ≠ j) as Hij by (intros ->; tauto).
    rewrite (dget_pf candidates p i k), (dget_pf candidates p k j),
      (dget_pf candidates p i j) by done. simpl. f_equal.
    apply insert_id. rewrite Hlook by done. f_equal.
    pose proof (strengths_triangle candidates h2h p i k j Hatt Hbound
                  Hi Hk Hj Hik Hkj Hij) as Htri.
    lia.
  - intros i k j Hi Hk Hj Hik Hkj Hij.
    exists (pf p i k), (pf p k j), (pf p i j).
    split_and!; [by apply Hlook.. |]. by eapply strengths_triangle.
Qed.

Lemma closure_fixed_point_witness :
  closure candidates_abc strengths_condorcet = Ok strengths_condorcet ∧
  ∃ pik pkj pij, strengths_condorcet !! ("B", "A") = Some pik ∧
                 strengths_condorcet !! ("A", "C") = Some pkj ∧
                 strengths_condorcet !! ("B", "C") = Some pij ∧ Nat.min pik pkj ≤ pij.
Proof.
  assert (beatpath_strengths ballots_condorcet candidates_abc = Ok strengths_condorcet)
    as Hp by (vm_compute; reflexivity).
  pose proof (closure_fixed_point ballots_condorcet candidates_abc
                strengths_condorcet Hp) as [Hfix Htri].
  split; [done|]. apply Htri; by_evaluation.
Defined.

Lemma margin_range (ballots : list Ballot.t) (candidates : list string)
  (h2h : gmap (string * string) nat) (x y : string) :
  get_head_to_head_matrix ballots candidates = Ok h2h →
  x ∈ candidates → y ∈ candidates → x ≠ y →
  margin h2h x y ≤ length ballots ∧
  (0 < margin h2h x y → length ballots < 2 * margin h2h x y).
Proof.
  intros Hh Hx Hy Hne.
  pose proof (get_head_to_head_matrix_inv _ _ _ Hh) as [Hs Hc].
  destruct (Hc x y) as [n Hn]; [done | done |].
  destruct (Hc y x) as [m Hm]; [done | done |].
  destruct (Hs _ _ _ Hn) as [_ Hcn], (Hs _ _ _ Hm) as [_ Hcm].
  pose proof (count_prefers_Ok_inv _ _ _ _ Hcn) as [Hall _].
  destruct (count_prefers_sum ballots x y Hall Hne) as (n' & m' & Hn' & Hm' & Hsum).
  assert (n' = n) as -> by congruence. assert (m' = m) as -> by congruence.
  unfold margin, pf. rewrite Hn, Hm. simpl. case_decide; split; lia.
Qed.

Lemma width_range (ballots : list Ballot.t) (candidates : list string)
  (h2h : gmap (string * string) nat) (via : list string) (a b : string) :
  get_head_to_head_matrix ballots candidates = Ok h2h →
  is_path candidates a via b →
  width h2h a via b ≤ length ballots ∧
  (0 < width h2h a via b → length ballots < 2 * width h2h a via b).
Proof.
  intros Hh. revert a. induction via as [|x via IH]; intros a (Ha & Hb & Hvia & Hhops).
  - simpl in *. by eapply margin_range.
  - simpl in *. destruct Hhops as [Hax Hhops]. apply Forall_cons in Hvia as [Hx Hvia].
    destruct (IH x) as [IH1 IH2]; [by split_and!|].
    destruct (margin_range ballots candidates h2h a x Hh Ha Hx Hax) as [Hm1 Hm2].
    split; [lia|]. intros Hpos.
    destruct (Nat.min_spec (margin h2h a x) (width h2h x via b)) as [[_ ->]|[_ ->]];
      [apply Hm2 | apply IH2]; lia.
Qed.

(** X15. On any election [schulze] accepts, the strength of an ordered pair
    of different candidates is at least the pair's direct margin and at most
    the number of ballots, and a non-zero strength is a strict majority of
    the ballots. *)
Theorem strengths_range (ballots : list Ballot.t) (candidates : list string)
  (h2h p : gmap (string * string) nat) (a b : string) :
  get_head_to_head_matrix ballots candidates = Ok h2h →
  beatpath_strengths ballots candidates = Ok p →
  a ∈ candidates → b ∈ candidates → a ≠ b →
  ∃ s, p !! (a, b) = Some s ∧ margin h2h a b ≤ s ∧ s ≤ length ballots ∧
       (0 < s → length ballots < 2 * s).
Proof.
  intros Hh Hp Ha Hb Hne.
  destruct (beatpath_strengths_matrix ballots candidates h2h Hh)
    as (p' & Hp' & _ & Hkeys & Hatt & Hbound).
  assert (p' = p) as -> by congruence.
  destruct (Hkeys a b Ha Hb Hne) as [s Hs]. exists s. split; [done|].
  assert (pf p a b = s) as <- by (unfold pf; by rewrite Hs).
  split.
  - assert (is_path candidates a [] b) as Hpath by done.
    apply (Hbound a b [] Hpath Hne). constructor.
  - destruct (Hatt a b Ha Hb Hne) as (via & Hpath & <-).
    by eapply width_range.
Qed.

Lemma strengths_range_witness :
  ∃ s, strengths_cycle !! ("C", "B") = Some s ∧ margin h2h_cycle "C" "B" ≤ s ∧
       s ≤ length ballots_cycle ∧ (0 < s → length ballots_cycle < 2 * s).
Proof.
  apply (strengths_range ballots_cycle candidates_abc h2h_cycle strengths_cycle "C" "B");
    [vm_compute; reflexivity | vm_compute; reflexivity | by_evaluation | by_evaluation
     | done].
Defined.

Lemma zero_scores_keys (candidates : list string) :
  NoDup candidates →
  (foldl (fun scores candidate => od_set candidate 0 scores) [] candidates).*1
  = candidates.
Proof.
  induction candidates as [|c cs IH] using rev_ind; intros Hnd; [done|].
  apply NoDup_app in Hnd as (Hcs & Hdisj & _).
  rewrite foldl_app. simpl. rewrite od_set_keys, (IH Hcs).
  rewrite decide_False; [done|]. intros Hin. apply (Hdisj c Hin). by left.
Qed.

Lemma beatpath_scores_keys (candidates : list string) (p : gmap (string * string) nat)
  (scores : list (string * nat)) :
  beatpath_scores candidates p = Ok scores →
  scores.*1
  = (foldl (fun scores candidate => od_set candidate 0 scores) [] candidates).*1.
Proof.
  unfold beatpath_scores.
  set (d0 := foldl (fun scores candidate => od_set candidate 0 scores) [] candidates).
  intros Hrun.
  apply (for_each_partial _ (fun _ (d : list (string * nat)) => d.*1 = d0.*1)
           _ _ _ Hrun); [done|].
  intros done i d d1 _ Hd Hrow.
  apply (for_each_partial _ (fun _ (d : list (string * nat)) => d.*1 = d0.*1)
           _ _ _ Hrow); [done|].
  clear. intros doneb j d d1 _ Hd Hstep.
  case_decide; [|by injection Hstep as <-].
  apply bind_Ok in Hstep as (pij & _ & Hstep).
  apply bind_Ok in Hstep as (pji & _ & Hstep).
  case_decide; [|by injection Hstep as <-].
  apply bind_Ok in Hstep as (s & Hs & [= <-]).
  rewrite od_set_keys, decide_True; [done|].
  apply od_get_elem in Hs. apply list_elem_of_fmap. by exists (i, s).
Qed.

Lemma wins_lt (p : gmap (string * string) nat) (candidates : list string) (c : string) :
  c ∈ candidates → wins p candidates c < length candidates.
Proof.
  intros Hc. unfold wins. apply (length_filter_lt _ _ c); [done|]. tauto.
Qed.

Lemma assoc_of_keys (f : string → nat) (d : list (string * nat)) :
  (∀ c s, (c, s) ∈ d → s = f c) → d = (fun c => (c, f c)) <$> d.*1.
Proof.
  induction d as [|[c s] d IH]; intros Hval; [done|].
  rewrite !fmap_cons. simpl. f_equal.
  - f_equal. apply Hval. by left.
  - apply IH. intros c' s' Hin. apply Hval. by right.
Qed.

Lemma schulze_shape (ballots : list Ballot.t) (candidates winners : list string)
  (p : gmap (string * string) nat) (scores : list (string * nat)) :
  NoDup candidates →
  beatpath_strengths ballots candidates = Ok p →
  schulze ballots candidates = Ok (winners, scores) →
  scores = (fun c => (c, wins p candidates c)) <$> candidates ∧
  ∃ max_score,
    winners = (filter (fun cs => cs.2 = max_score) scores).*1 ∧
    max_score ∈ scores.*2 ∧ (∀ v, v ∈ scores.*2 → v ≤ max_score).
Proof.
  intros Hnd Hp Hrun.
  assert (candidates ≠ []) as Hne.
  { intros ->. unfold beatpath_strengths in Hp. by vm_compute in Hrun. }
  assert (∃ h2h, get_head_to_head_matrix ballots candidates = Ok h2h) as [h2h Hh].
  { unfold beatpath_strengths in Hp. apply bind_Ok in Hp as (h2h & Hh & _). eauto. }
  destruct (schulze_run_matrix ballots candidates h2h Hne Hh)
    as (p' & d & m & Hp' & Hd & _ & Hrun' & _ & _ & _ & Hdnd & _ & Hdv & Hmin & Hmle).
  assert (p' = p) as -> by congruence.
  rewrite Hrun' in Hrun. injection Hrun as <- <-.
  assert (d.*1 = candidates) as Hkeys.
  { rewrite (beatpath_scores_keys _ _ _ Hd). by apply zero_scores_keys. }
  split; [|by exists m].
  rewrite (assoc_of_keys (wins p candidates) d), Hkeys; [done|].
  intros c s Hcs. assert (c ∈ candidates) as Hc.
  { rewrite <- Hkeys. apply list_elem_of_fmap. by exists (c, s). }
  pose proof (od_elem_get c s d Hdnd Hcs) as Hget.
  rewrite (Hdv c Hc), (occurrences_NoDup c candidates Hnd Hc) in Hget.
  injection Hget as <-. lia.
Qed.

(** X16. For a list of distinct candidates, the score dictionary [schulze]
    returns lists the candidates in the order given, each with the number of
    candidates it beats on beatpath strength (fewer than there are
    candidates), and the winners appear in that same order. *)
Theorem schulze_scores_shape (ballots : list Ballot.t) (candidates winners : list string)
  (p : gmap (string * string) nat) (scores : list (string * nat)) :
  NoDup candidates →
  beatpath_strengths ballots candidates = Ok p →
  schulze ballots candidates = Ok (winners, scores) →
  scores = (fun c => (c, wins p candidates c)) <$> candidates ∧
  (∀ c s, (c, s) ∈ scores → s < length candidates) ∧
  winners `sublist_of` candidates.
Proof.
  intros Hnd Hp Hrun.
  destruct (schulze_shape _ _ _ _ _ Hnd Hp Hrun) as (Hscores & m & Hw & _ & _).
  split_and!; [done | |].
  - intros c s Hcs. rewrite Hscores in Hcs.
    apply list_elem_of_fmap in Hcs as (c' & [= -> ->] & Hc). by apply wins_lt.
  - assert (scores.*1 = candidates) as Hk.
    { rewrite Hscores, <- list_fmap_compose.
      transitivity (id <$> candidates); [|apply list_fmap_id].
      by apply list_fmap_ext. }
    rewrite Hw, <- Hk. apply fmap_sublist, sublist_filter.
Qed.

Lemma schulze_scores_shape_witness :
  [("A", 2); ("B", 1); ("C", 0)]
  = (fun c => (c, wins strengths_condorcet candidates_abc c)) <$> candidates_abc ∧
  (∀ c s, (c, s) ∈ [("A", 2); ("B", 1); ("C", 0)] → s < length candidates_abc) ∧
  ["A"] `sublist_of` candidates_abc.
Proof.
  apply (schulze_scores_shape ballots_condorcet candidates_abc ["A"]
           strengths_condorcet [("A", 2); ("B", 1); ("C", 0)]).
  - by_evaluation.
  - vm_compute. reflexivity.
  - vm_compute. reflexivity.
Defined.

(** X17. With no ballots at all, every one of a non-empty list of distinct
    candidates wins, each with score 0. *)
Theorem schulze_no_ballots (candidates : list string) :
  candidates ≠ [] → NoDup candidates →
  schulze [] candidates = Ok (candidates, (fun c => (c, 0)) <$> candidates).
Proof.
  intros Hne Hnd.
  assert (∃ h2h, get_head_to_head_matrix [] candidates = Ok h2h) as [h2h Hh].
  { apply get_head_to_head_matrix_cases. intros; constructor. }
  destruct (schulze_run_matrix [] candidates h2h Hne Hh)
    as (p & d & m & Hp & Hd & _ & Hrun & Hkeys & Hatt & _ & Hdnd & _ & Hdv & Hmin & _).
  assert (Hzero : ∀ x y, x ∈ candidates → y ∈ candidates → x ≠ y → pf p x y = 0).
  { intros x y Hx Hy Hxy. destruct (Hatt x y Hx Hy Hxy) as (via & Hpath & <-).
    pose proof (width_range [] candidates h2h via x y Hh Hpath) as [Hle _].
    simpl in Hle. lia. }
  assert (Hwins : ∀ c, c ∈ candidates → wins p candidates c = 0).
  { intros c Hc. unfold wins. rewrite filter_none; [done|].
    intros j Hj [Hcj Hlt]. rewrite (Hzero c j) in Hlt by done. lia. }
  assert (d.*1 = candidates) as Hdk.
  { rewrite (beatpath_scores_keys _ _ _ Hd). by apply zero_scores_keys. }
  assert (Hval : ∀ c s, (c, s) ∈ d → s = 0).
  { intros c s Hcs. assert (c ∈ candidates) as Hc.
    { rewrite <- Hdk. apply list_elem_of_fmap. by exists (c, s). }
    pose proof (od_elem_get c s d Hdnd Hcs) as Hget.
    rewrite (Hdv c Hc), (Hwins c Hc) in Hget. injection Hget as <-. lia. }
  assert (m = 0) as ->.
  { apply list_elem_of_fmap in Hmin as ([c s] & -> & Hcs). by apply (Hval c s). }
  rewrite Hrun. f_equal. f_equal.
  - rewrite filter_all; [done|]. intros [c s] Hcs. by apply (Hval c s).
  - rewrite (assoc_of_keys (fun _ => 0) d), Hdk; [done|]. done.
Qed.

Lemma schulze_no_ballots_witness :
  schulze [] candidates_abc = Ok (candidates_abc, [("A", 0); ("B", 0); ("C", 0)]).
Proof.
  apply (schulze_no_ballots candidates_abc); [done | by_evaluation].
Defined.

Lemma for_each_ext {S A : Type} (f g : S → A → result S) (xs : list A) (s : S) :
  (∀ s x, x ∈ xs → f s x = g s x) → for_each f xs s = for_each g xs s.
Proof.
  revert s. induction xs as [|x xs IH]; intros s Hext; simpl; [done|].
  rewrite Hext by by left. destruct (g s x) as [s'|e]; simpl; [|done].
  apply IH. intros s1 y Hy. apply Hext. by right.
Qed.

Lemma count_prefers_Permutation (ballots ballots' : list Ballot.t) (x y : string)
  (n : nat) :
  ballots ≡ₚ ballots' → count_prefers ballots x y = Ok n →
  count_prefers ballots' x y = Ok n.
Proof.
  intros Hperm Hcnt. apply count_prefers_Ok_inv in Hcnt as [Hall ->].
  rewrite Hperm in Hall. destruct (count_prefers_Ok ballots' x y Hall) as [n' Hn'].
  rewrite Hn'. apply count_prefers_Ok_inv in Hn' as [_ ->].
  f_equal. unfold supporters. by rewrite Hperm.
Qed.

(** X18. [schulze] is anonymous: when it returns a result for some ballots,
    it returns the same result for these ballots in any other order. *)
Theorem schulze_anonymous (ballots ballots' : list Ballot.t) (candidates : list string)
  (r : list string * list (string * nat)) :
  ballots ≡ₚ ballots' →
  schulze ballots candidates = Ok r → schulze ballots' candidates = Ok r.
Proof.
  intros Hperm Hrun.
  assert (∃ h2h, get_head_to_head_matrix ballots candidates = Ok h2h) as [h2h Hh].
  { unfold schulze, beatpath_strengths in Hrun.
    apply bind_Ok in Hrun as (p & Hp & _). apply bind_Ok in Hp as (h2h & Hh & _).
    eauto. }
  assert (get_head_to_head_matrix ballots' candidates
          = get_head_to_head_matrix ballots candidates) as Heq.
  { pose proof (get_head_to_head_matrix_inv _ _ _ Hh) as [Hs Hc].
    unfold get_head_to_head_matrix. apply for_each_ext. intros m a Ha.
    apply for_each_ext. intros m' b Hb.
    destruct (decide (a = b)) as [?|Hab]; [done|].
    destruct (Hc a b) as [n Hn]; [done | done |].
    destruct (Hs _ _ _ Hn) as [_ Hcnt].
    by rewrite (count_prefers_Permutation _ _ _ _ _ Hperm Hcnt), Hcnt. }
  unfold schulze, beatpath_strengths in *. by rewrite Heq.
Qed.

Lemma schulze_anonymous_witness :
  schulze (reverse ballots_condorcet) candidates_abc
  = Ok (["A"], [("A", 2); ("B", 1); ("C", 0)]).
Proof.
  apply (schulze_anonymous ballots_condorcet (reverse ballots_condorcet)).
  - symmetry. apply reverse_Permutation.
  - vm_compute. reflexivity.
Defined.

Lemma beats_all_sole_winner (ballots : list Ballot.t) (candidates : list string)
  (h2h : gmap (string * string) nat) (C : string) :
  candidates ≠ [] →
  get_head_to_head_matrix ballots candidates = Ok h2h →
  C ∈ candidates →
  (∀ D, D ∈ candidates → D ≠ C → pf h2h D C < pf h2h C D) →
  (∀ D, D ∈ candidates → D ≠ C → NoDup candidates) →
  ∃ scores, schulze ballots candidates = Ok ([C], scores).
Proof.
  intros Hne Hh HC Hpair Huniq.
  destruct (schulze_run_matrix ballots candidates h2h Hne Hh)
    as (p & d & m & _ & _ & _ & Hrun & _ & Hatt & Hbound & Hnd & Hdk & Hdv
        & Hmin & Hmle).
  exists d. rewrite Hrun. f_equal. f_equal.
  assert (Hinto : ∀ D, D ∈ candidates → D ≠ C → pf p D C = 0).
  { intros D HD HDC. destruct (Hatt D C HD HC HDC) as (via & Hpath & <-).
    eapply width_into_unbeaten; [|exact Hpath].
    intros E HE HEC. unfold margin. specialize (Hpair E HE HEC).
    rewrite decide_False; [done|lia]. }
  assert (Hout : ∀ D, D ∈ candidates → D ≠ C → 0 < pf p C D).
  { intros D HD HDC. assert (C ≠ D) as HCD by done.
    assert (is_path candidates C [] D) as Hpath by done.
    pose proof (Hbound C D [] Hpath HCD (Forall_nil_2 _)) as Hle. simpl in Hle.
    unfold margin in Hle. specialize (Hpair D HD HDC).
    rewrite decide_True in Hle by done. lia. }
  assert (Hwins : ∀ D, D ∈ candidates → D ≠ C →
            wins p candidates D < wins p candidates C).
  { intros D HD HDC. unfold wins. apply (length_filter_lt_impl _ _ _ D); [|done| |tauto].
    - intros j Hj [HDj Hlt]. assert (C ≠ j) as HCj.
      { intros <-. rewrite (Hinto D HD HDC) in Hlt. lia. }
      split; [done|]. rewrite (Hinto j Hj) by done. by apply Hout.
    - split; [done|]. rewrite (Hinto D HD HDC). by apply Hout. }
  pose (sC := occurrences C candidates * wins p candidates C).
  assert (HsC : (C, sC) ∈ d) by (apply od_get_elem; by apply Hdv).
  assert (Hless : ∀ k v, (k, v) ∈ d → k ≠ C → v < sC).
  { intros k v Hkv HkC.
    assert (k ∈ candidates) as Hk.
    { apply Hdk. apply list_elem_of_fmap. by exists (k, v). }
    pose proof (od_elem_get k v d Hnd Hkv) as Hget. rewrite (Hdv k Hk) in Hget.
    injection Hget as <-. unfold sC.
    pose proof (Huniq k Hk HkC) as Hu.
    rewrite !occurrences_NoDup by done. specialize (Hwins k Hk HkC). lia. }
  assert (m = sC) as ->.
  { apply list_elem_of_fmap in Hmin as ([k v] & -> & Hkv). simpl.
    destruct (decide (k = C)) as [->|HkC].
    - pose proof (od_elem_get C v d Hnd Hkv) as Hget.
      rewrite (od_elem_get C sC d Hnd HsC) in Hget. by injection Hget.
    - specialize (Hless k v Hkv HkC).
      assert (sC ≤ v); [|lia]. apply Hmle. apply list_elem_of_fmap. by exists (C, sC). }
  apply winners_singleton; [done | done |].
  intros k v Hkv ->. destruct (decide (k = C)) as [?|HkC]; [done|].
  specialize (Hless k sC Hkv HkC). lia.
Qed.

Lemma prefers_first_choice (b : Ballot.t) (c d : string) :
  head (Ballot.ranking b) = Some c → d ∈ Ballot.ranking b → d ≠ c →
  Ballot.prefers b c d = Ok true.
Proof.
  intros Hhead Hd Hne. destruct b as [r]. simpl in *.
  destruct r as [|x r]; [done|]. injection Hhead as ->.
  assert (c ∈ c :: r) as Hc by by left.
  destruct (prefers_Ok (Ballot.mk (c :: r)) c d Hc Hd) as (i & j & Hi & Hj & ->).
  simpl in Hi, Hj. rewrite decide_True in Hi by done. injection Hi as <-.
  rewrite decide_False in Hj by done. apply bind_Ok in Hj as (k & _ & [= <-]).
  rewrite bool_decide_eq_true_2 by lia. done.
Qed.

(** X19. Majority criterion: on a valid election, a candidate who is the
    first choice on more than half of the ballots is the only winner
    [schulze] returns. *)
Theorem schulze_majority (ballots : list Ballot.t) (candidates : list string) (C : string) :
  valid_election ballots candidates →
  C ∈ candidates →
  length ballots < 2 * length (first_choices ballots C) →
  ∃ scores, schulze ballots candidates = Ok ([C], scores).
Proof.
  intros Hvalid HC Hmaj.
  pose proof (valid_election_ranked _ _ Hvalid) as Hranked.
  destruct Hvalid as [Hne Hall].
  destruct (get_head_to_head_matrix_Ok ballots candidates Hranked) as [h2h Hh].
  apply (beats_all_sole_winner ballots candidates h2h C Hne Hh HC).
  - intros D HD HDC.
    pose proof (get_head_to_head_matrix_inv _ _ _ Hh) as [Hs Hc].
    destruct (Hc C D) as [n Hn]; [done | done |].
    destruct (Hc D C) as [m Hm]; [done | done |].
    destruct (Hs _ _ _ Hn) as [HCD Hcn], (Hs _ _ _ Hm) as [_ Hcm].
    pose proof (count_prefers_Ok_inv _ _ _ _ Hcn) as [Hboth Hnval].
    destruct (count_prefers_sum ballots C D Hboth HCD) as (n' & m' & Hn' & Hm' & Hsum).
    assert (n' = n) as -> by congruence. assert (m' = m) as -> by congruence.
    assert (length (first_choices ballots C) ≤ n) as Hfirst.
    { rewrite Hnval. unfold first_choices, supporters.
      apply length_filter_le_impl. intros b Hb Hhead.
      apply prefers_first_choice; [done | | done].
      rewrite Forall_forall in Hranked. by apply Hranked. }
    unfold pf. rewrite Hn, Hm. simpl. lia.
  - intros D HD HDC. destruct ballots as [|b bs]; [simpl in Hmaj; lia|].
    apply Forall_cons in Hall as [[[_ Hndb] Hperm] _]. by rewrite <- Hperm.
Qed.

Lemma schulze_majority_witness :
  ∃ scores, schulze ballots_condorcet candidates_abc = Ok (["A"], scores).
Proof.
  apply (schulze_majority ballots_condorcet candidates_abc "A").
  - split; [done|]. unfold Ballot.wf. by_evaluation.
  - by_evaluation.
  - vm_compute. lia.
Defined.

Lemma width_out_of_loser (candidates : list string) (h2h : gmap (string * string) nat)
  (L : string) :
  (∀ D, D ∈ candidates → D ≠ L → margin h2h L D = 0) →
  ∀ via b, is_path candidates L via b → width h2h L via b = 0.
Proof.
  intros Hzero via b (HL & Hb & Hvia & Hhops). destruct via as [|x via]; simpl in *.
  - apply Hzero; [done|]. by intros ->.
  - destruct Hhops as [HLx _]. apply Forall_cons in Hvia as [Hx _].
    rewrite (Hzero x Hx) by (by intros ->). lia.
Qed.

Lemma length_filter_pos {A : Type} (P : A → Prop) `{∀ x, Decision (P x)}
  (l : list A) (x : A) :
  x ∈ l → P x → 0 < length (filter P l).
Proof.
  intros Hx HP. assert (x ∈ filter P l) as Hin by by apply list_elem_of_filter.
  destruct (filter P l); [by apply elem_of_nil in Hin | simpl; lia].
Qed.

(** X20. Condorcet loser criterion: a candidate who loses the head-to-head
    contest against every other candidate is never among the winners of
    [schulze], as soon as there is another candidate. *)
Theorem schulze_condorcet_loser (ballots : list Ballot.t) (candidates winners : list string)
  (h2h : gmap (string * string) nat) (scores : list (string * nat)) (L : string) :
  get_head_to_head_matrix ballots candidates = Ok h2h →
  L ∈ candidates →
  (∃ D, D ∈ candidates ∧ D ≠ L) →
  (∀ D, D ∈ candidates → D ≠ L →
     ∃ n m, h2h !! (L, D) = Some n ∧ h2h !! (D, L) = Some m ∧ n < m) →
  schulze ballots candidates = Ok (winners, scores) →
  L ∉ winners.
Proof.
  intros Hh HL (D & HD & HDL) Hloses Hrun.
  assert (candidates ≠ []) as Hne by (intros ->; by apply elem_of_nil in HL).
  destruct (schulze_run_matrix ballots candidates h2h Hne Hh)
    as (p & d & m & _ & _ & _ & Hrun' & _ & Hatt & Hbound & Hnd & Hdk & Hdv
        & Hmin & Hmle).
  rewrite Hrun' in Hrun. injection Hrun as <- <-.
  assert (Hpair : ∀ E, E ∈ candidates → E ≠ L → pf h2h L E < pf h2h E L).
  { intros E HE HEL. destruct (Hloses E HE HEL) as (n & k & Hn & Hk & Hlt).
    unfold pf. by rewrite Hn, Hk. }
  assert (Hout : ∀ E, E ∈ candidates → E ≠ L → pf p L E = 0).
  { intros E HE HEL. assert (L ≠ E) as HLE by done.
    destruct (Hatt L E HL HE HLE) as (via & Hpath & <-).
    eapply width_out_of_loser; [|exact Hpath].
    intros F HF HFL. unfold margin. specialize (Hpair F HF HFL).
    rewrite decide_False; [done|lia]. }
  assert (wins p candidates L = 0) as HwL.
  { unfold wins. rewrite filter_none; [done|].
    intros j Hj [HLj Hlt]. rewrite (Hout j Hj) in Hlt by done. lia. }
  assert (0 < wins p candidates D) as HwD.
  { unfold wins. apply (length_filter_pos _ _ L HL). split; [done|].
    rewrite (Hout D HD HDL).
    assert (is_path candidates D [] L) as Hpath by done.
    pose proof (Hbound D L [] Hpath HDL (Forall_nil_2 _)) as Hle. simpl in Hle.
    unfold margin in Hle. specialize (Hpair D HD HDL).
    rewrite decide_True in Hle by done. lia. }
  assert (0 < occurrences D candidates) as HoD.
  { unfold occurrences. by apply (length_filter_pos _ _ D HD). }
  assert (0 < m) as Hm.
  { assert (occurrences D candidates * wins p candidates D ≤ m); [|nia].
    apply Hmle. apply list_elem_of_fmap.
    exists (D, occurrences D candidates * wins p candidates D).
    split; [done|]. apply od_get_elem. by apply Hdv. }
  intros Hin. apply list_elem_of_fmap in Hin as ([k v] & -> & Hkv).
  apply list_elem_of_filter in Hkv as [Hv Hkv]. simpl in *. subst v.
  pose proof (od_elem_get k m d Hnd Hkv) as Hget.
  rewrite (Hdv k HL), HwL in Hget. injection Hget as <-. lia.
Qed.

Lemma schulze_condorcet_loser_witness : "C" ∉ ["A"].
Proof.
  apply (schulze_condorcet_loser ballots_condorcet candidates_abc ["A"]
           h2h_condorcet [("A", 2); ("B", 1); ("C", 0)] "C").
  - vm_compute. reflexivity.
  - by_evaluation.
  - exists "A". split; by_evaluation.
  - intros D HD HDC. unfold candidates_abc in HD.
    apply elem_of_cons in HD as [->|HD];
      [exists 1, 4; split_and!; [vm_compute; reflexivity.. | lia]|].
    apply elem_of_cons in HD as [->|HD];
      [exists 2, 3; split_and!; [vm_compute; reflexivity.. | lia]|].
    apply elem_of_cons in HD as [->|HD]; [done|].
    by apply elem_of_nil in HD.
  - vm_compute. reflexivity.
Defined.

(** * Further properties of tactical_voting.py: the simulation *)

Lemma replace_type_fmap (voter_type new_ballot : Ballot.t) (ballots : list Ballot.t) :
  replace_type voter_type new_ballot ballots
  = (fun b => if decide (b = voter_type) then new_ballot else b) <$> ballots.
Proof.
  unfold replace_type.
  assert (Hgen : ∀ acc,
    foldl (fun modified_ballots ballot =>
             if decide (ballot = voter_type) then modified_ballots ++ [new_ballot]
             else modified_ballots ++ [ballot]) acc ballots
    = acc ++ ((fun b => if decide (b = voter_type) then new_ballot else b) <$> ballots)).
  { induction ballots as [|b bs IH]; intros acc; simpl; [by rewrite app_nil_r|].
    rewrite IH. destruct (decide (b = voter_type)); by rewrite <- app_assoc. }
  apply (Hgen []).
Qed.

(** X21. Resubmitting the voter type's own ranking changes nothing: the
    simulation returns the rule's result on the original ballots. *)
Theorem simulate_same_ranking {R : Type} (original_ballots : list Ballot.t)
  (voter_type : Ballot.t)
  (voting_system : list Ballot.t → list string → result R) (candidates : list string) :
  Ballot.wf voter_type →
  simulate_election_with_modified_ballots
    original_ballots voter_type (Ballot.get_ranking voter_type) voting_system candidates
  = voting_system original_ballots candidates.
Proof.
  intros [Hne Hnd].
  destruct (decide (voter_type ∈ original_ballots)) as [Hin|Hnin];
    [|by apply simulate_absent].
  rewrite simulate_present by done. unfold Ballot.get_ranking.
  rewrite (init_Ok _ Hne Hnd). simpl. f_equal.
  rewrite replace_type_fmap. destruct voter_type as [r]. simpl.
  rewrite <- (list_fmap_id original_ballots) at 2.
  apply list_fmap_ext. intros i b _. by case_decide; subst.
Qed.

Lemma simulate_same_ranking_witness :
  simulate_election_with_modified_ballots
    ballots_tactical (B ["A"; "B"; "C"]) ["A"; "B"; "C"] schulze candidates_abc
  = schulze ballots_tactical candidates_abc.
Proof.
  apply (simulate_same_ranking ballots_tactical (B ["A"; "B"; "C"])).
  unfold Ballot.wf. by_evaluation.
Defined.

Lemma count_type_fmap (voter_type new_ballot b : Ballot.t) (ballots : list Ballot.t) :
  new_ballot ≠ voter_type →
  length (filter (fun x => x = b)
            ((fun x => if decide (x = voter_type) then new_ballot else x) <$> ballots))
  = if decide (b = new_ballot)
    then length (filter (fun x => x = new_ballot) ballots)
         + length (filter (fun x => x = voter_type) ballots)
    else if decide (b = voter_type) then 0
    else length (filter (fun x => x = b) ballots).
Proof.
  intros Hne. induction ballots as [|x bs IH]; [simpl; by repeat case_decide|].
  rewrite fmap_cons, !filter_cons.
  repeat case_decide; subst; rewrite ?length_cons, ?IH; repeat case_decide;
    try done; try lia; try congruence.
Qed.

(** X22. When the voter type occurs and the new ranking is valid and
    different, the simulation runs the rule on a collection with as many
    ballots as before, in which the voter type no longer occurs, the new
    ballot has gained the voter type's count, and every other type keeps its
    count. *)
Theorem simulate_moves_type {R : Type} (original_ballots : list Ballot.t)
  (voter_type new_ballot : Ballot.t) (new_ranking : list string)
  (voting_system : list Ballot.t → list string → result R) (candidates : list string) :
  voter_type ∈ original_ballots →
  Ballot.init new_ranking = Ok new_ballot →
  new_ballot ≠ voter_type →
  ∃ modified_ballots,
    simulate_election_with_modified_ballots
      original_ballots voter_type new_ranking voting_system candidates
    = voting_system modified_ballots candidates ∧
    length modified_ballots = length original_ballots ∧
    ∀ b, default 0 (aggregate_ballot_types modified_ballots !! b)
         = if decide (b = new_ballot)
           then default 0 (aggregate_ballot_types original_ballots !! new_ballot)
                + default 0 (aggregate_ballot_types original_ballots !! voter_type)
           else if decide (b = voter_type) then 0
           else default 0 (aggregate_ballot_types original_ballots !! b).
Proof.
  intros Hin Hinit Hne.
  exists (replace_type voter_type new_ballot original_ballots).
  split_and!.
  - rewrite simulate_present by done. by rewrite Hinit.
  - by rewrite replace_type_fmap, length_fmap.
  - assert (Hcnt : ∀ (bs : list Ballot.t) x,
      default 0 (aggregate_ballot_types bs !! x) = length (filter (fun y => y = x) bs)).
    { intros bs x. unfold aggregate_ballot_types.
      rewrite aggregate_fold_lookup, lookup_empty. simpl.
      case_decide as Hx; [done|]. simpl. rewrite filter_none; [done|].
      intros y Hy ->. done. }
    intros b. rewrite !Hcnt, replace_type_fmap. by apply count_type_fmap.
Qed.

Lemma simulate_moves_type_witness :
  ∃ modified_ballots,
    simulate_election_with_modified_ballots
      ballots_tactical (B ["A"; "B"; "C"]) ["B"; "C"; "A"] schulze candidates_abc
    = schulze modified_ballots candidates_abc ∧
    length modified_ballots = length ballots_tactical ∧
    ∀ b, default 0 (aggregate_ballot_types modified_ballots !! b)
         = if decide (b = B ["B"; "C"; "A"])
           then default 0 (aggregate_ballot_types ballots_tactical !! B ["B"; "C"; "A"])
                + default 0 (aggregate_ballot_types ballots_tactical !! B ["A"; "B"; "C"])
           else if decide (b = B ["A"; "B"; "C"]) then 0
           else default 0 (aggregate_ballot_types ballots_tactical !! b).
Proof.
  apply (simulate_moves_type ballots_tactical (B ["A"; "B"; "C"]) (B ["B"; "C"; "A"])).
  - by_evaluation.
  - vm_compute. reflexivity.
  - by_evaluation.
Defined.

(** * Properties of experiments.py: [print_line_wrap] *)

Section LineWrapFacts.
Context {char : Type} `{EqDecision char} (space : char) (isspace : char → bool).
Hypothesis isspace_space : isspace space = true.

Lemma py_upto_from (s : list char) (n : Z) : py_upto s n ++ py_from s n = s.
Proof. unfold py_upto, py_from. case_decide; apply take_drop. Qed.

Lemma py_upto_nonneg (s : list char) (n : Z) :
  (0 ≤ n)%Z → py_upto s n = take (Z.to_nat n) s.
Proof. intros Hn. unfold py_upto. by rewrite decide_True. Qed.

Lemma py_from_nonneg (s : list char) (n : Z) :
  (0 ≤ n)%Z → py_from s n = drop (Z.to_nat n) s.
Proof. intros Hn. unfold py_from. by rewrite decide_True. Qed.

Lemma rfind_spec (s : list char) :
  rfind space s = (-1)%Z ∨
  ((0 ≤ rfind space s < Z.of_nat (length s))%Z ∧
   s !! Z.to_nat (rfind space s) = Some space).
Proof.
  induction s as [|x s IH]; [by left|]. cbn [rfind length].
  destruct IH as [->|[Hr Hl]].
  - rewrite decide_True by done. destruct (decide (x = space)) as [->|Hx]; [|by left].
    right. split; [lia|done].
  - rewrite decide_False by lia. right. split; [lia|].
    replace (Z.to_nat (rfind space s + 1)) with (S (Z.to_nat (rfind space s))) by lia.
    done.
Qed.

Lemma lstrip_length (s : list char) : length (lstrip isspace s) ≤ length s.
Proof.
  induction s as [|x s IH]; simpl; [done|]. destruct (isspace x); simpl; lia.
Qed.

Lemma lstrip_head (s : list char) (x : char) :
  head (lstrip isspace s) = Some x → isspace x = false.
Proof.
  induction s as [|y s IH]; simpl; [done|].
  destruct (isspace y) eqn:Hy; [done|]. simpl. by intros [= <-].
Qed.

Lemma lstrip_filter (s : list char) :
  filter (fun c => isspace c = false) (lstrip isspace s)
  = filter (fun c => isspace c = false) s.
Proof.
  induction s as [|x s IH]; simpl; [done|].
  destruct (isspace x) eqn:Hx; [|done].
  rewrite filter_cons_False by congruence. done.
Qed.

Lemma pad_filter (indent : Z) :
  filter (fun c => isspace c = false) (pad space indent) = [].
Proof.
  unfold pad. apply filter_none. intros c Hc.
  apply elem_of_replicate in Hc as [-> _]. congruence.
Qed.

(** The break point of a line that is too long for a positive width [w] and
    does not start with white space lies in 1..w. *)
Lemma break_point_range (s : list char) (w : Z) :
  (0 < w)%Z → (w < Z.of_nat (length s))%Z →
  (∀ x, head s = Some x → isspace x = false) →
  let r := rfind space (py_upto s w) in
  let bp := if decide (r = -1)%Z then w else r in
  (1 ≤ bp ≤ w)%Z.
Proof.
  intros Hw Hlen Hhead. cbn zeta. rewrite py_upto_nonneg by lia.
  destruct (rfind_spec (take (Z.to_nat w) s)) as [->|[Hr Hl]];
    [rewrite decide_True by done; lia|].
  rewrite length_take in Hr. rewrite decide_False by lia.
  split; [|lia].
  destruct (decide (rfind space (take (Z.to_nat w) s) = 0)%Z) as [H0|]; [|lia].
  rewrite H0 in Hl. destruct s as [|x s]; [simpl in Hlen; lia|].
  destruct (Z.to_nat w) eqn:Hn; [lia|]. simpl in Hl. injection Hl as ->.
  rewrite (Hhead space) in isspace_space by done. done.
Qed.

Lemma wrap_remaining_lines (indent max_length : Z) (n : nat) (remaining : list char) :
  (0 ≤ indent < max_length)%Z →
  length remaining ≤ n →
  (∀ x, head remaining = Some x → isspace x = false) →
  ∃ lines,
    (∀ fuel, n < fuel →
       wrap_remaining space isspace fuel indent max_length remaining = Some lines) ∧
    Forall (fun l => (Z.of_nat (length l) ≤ max_length)%Z) lines.
Proof.
  intros Hwidth. revert remaining.
  induction n as [|n IH]; intros remaining Hlen Hhead.
  - destruct remaining; [|simpl in Hlen; lia]. exists []. split; [|constructor].
    intros [|fuel] Hf; [lia|done].
  - destruct (decide (remaining = [])) as [->|Hne].
    { exists []. split; [|constructor]. intros [|fuel] Hf; [lia|done]. }
    destruct (decide (Z.of_nat (length remaining) ≤ max_length - indent)%Z)
      as [Hfit|Hlong].
    { exists [pad space indent ++ remaining]. split.
      - intros [|fuel] Hf; [lia|]. simpl.
        by rewrite decide_False, decide_True by done.
      - constructor; [|constructor]. unfold pad.
        rewrite length_app, length_replicate. lia. }
    pose proof (break_point_range remaining (max_length - indent)
                  ltac:(lia) ltac:(lia) Hhead) as Hbp. cbn zeta in Hbp.
    set (bp := if decide (rfind space (py_upto remaining (max_length - indent)) = -1)%Z
               then (max_length - indent)%Z
               else rfind space (py_upto remaining (max_length - indent))) in *.
    destruct (IH (lstrip isspace (py_from remaining bp))) as (lines & Hrun & Hall).
    + pose proof (lstrip_length (py_from remaining bp)) as Hl.
      rewrite py_from_nonneg in * by lia. rewrite length_drop in Hl. lia.
    + apply lstrip_head.
    + exists ((pad space indent ++ py_upto remaining bp) :: lines). split.
      * intros [|fuel] Hf; [lia|]. simpl.
        rewrite decide_False, decide_False by done. fold bp.
        rewrite Hrun by lia. done.
      * constructor; [|done]. unfold pad. rewrite py_upto_nonneg by lia.
        rewrite length_app, length_replicate, length_take. lia.
Qed.

(** X23. With 0 <= indent < max_length, [print_line_wrap] terminates on every
    text (fuel beyond the length of the text is enough), and no line it
    prints is longer than [max_length]. *)
Theorem print_line_wrap_lines (text : list char) (indent max_length : Z) :
  (0 ≤ indent < max_length)%Z →
  ∃ lines,
    (∀ fuel, length text < fuel →
       print_line_wrap space isspace fuel text indent max_length = Some lines) ∧
    Forall (fun l => (Z.of_nat (length l) ≤ max_length)%Z) lines.
Proof.
  intros Hwidth. unfold print_line_wrap.
  destruct (decide (Z.of_nat (length text) ≤ max_length)%Z) as [Hfit|Hlong].
  { exists [text]. split; [done|]. by repeat constructor. }
  set (bp := if decide (rfind space (py_upto text max_length) = -1)%Z
             then max_length else rfind space (py_upto text max_length)).
  assert (0 ≤ bp ≤ max_length)%Z as Hbp.
  { unfold bp. rewrite py_upto_nonneg by lia.
    destruct (rfind_spec (take (Z.to_nat max_length) text)) as [->|[Hr _]];
      [rewrite decide_True by done; lia|].
    rewrite length_take in Hr. rewrite decide_False by lia. lia. }
  destruct (wrap_remaining_lines indent max_length (length text)
              (lstrip isspace (py_from text bp)) Hwidth) as (lines & Hrun & Hall).
  - pose proof (lstrip_length (py_from text bp)) as Hl.
    rewrite py_from_nonneg in * by lia. rewrite length_drop in Hl. lia.
  - apply lstrip_head.
  - exists (py_upto text bp :: lines). split.
    + intros fuel Hf. rewrite Hrun by done. done.
    + constructor; [|done]. rewrite py_upto_nonneg by lia.
      rewrite length_take. lia.
Qed.

Lemma wrap_remaining_content (fuel : nat) (indent max_length : Z)
  (remaining : list char) (lines : list (list char)) :
  wrap_remaining space isspace fuel indent max_length remaining = Some lines →
  filter (fun c => isspace c = false) (concat lines)
  = filter (fun c => isspace c = false) remaining.
Proof.
  revert remaining lines. induction fuel as [|fuel IH]; intros remaining lines; [done|].
  simpl. destruct (decide (remaining = [])) as [->|Hne]; [by intros [= <-]|].
  case_decide.
  - intros [= <-]. simpl. rewrite app_nil_r, filter_app, pad_filter. done.
  - set (bp := if decide (rfind space (py_upto remaining (max_length - indent)) = -1)%Z
               then (max_length - indent)%Z
               else rfind space (py_upto remaining (max_length - indent))).
    destruct (wrap_remaining space isspace fuel indent max_length
                (lstrip isspace (py_from remaining bp))) as [rest|] eqn:Hrest;
      simpl; [|done].
    intros [= <-]. simpl. rewrite !filter_app, pad_filter, (IH _ _ Hrest).
    rewrite app_nil_l, lstrip_filter, <- filter_app, py_upto_from. done.
Qed.

(** X24. Whenever [print_line_wrap] finishes, the printed lines hold exactly
    the non-white-space characters of the text, in order: only white space is
    added (the indentation) or dropped (at the line breaks). *)
Theorem print_line_wrap_content (fuel : nat) (text : list char) (indent max_length : Z)
  (lines : list (list char)) :
  print_line_wrap space isspace fuel text indent max_length = Some lines →
  filter (fun c => isspace c = false) (concat lines)
  = filter (fun c => isspace c = false) text.
Proof.
  unfold print_line_wrap. case_decide.
  - intros [= <-]. simpl. by rewrite app_nil_r.
  - set (bp := if decide (rfind space (py_upto text max_length) = -1)%Z
               then max_length else rfind space (py_upto text max_length)).
    destruct (wrap_remaining space isspace fuel indent max_length
                (lstrip isspace (py_from text bp))) as [rest|] eqn:Hrest;
      simpl; [|done].
    intros [= <-]. simpl. rewrite filter_app, (wrap_remaining_content _ _ _ _ _ Hrest).
    rewrite lstrip_filter, <- filter_app, py_upto_from. done.
Qed.

Lemma lstrip_stripped (s : list char) :
  (∀ x, head s = Some x → isspace x = false) → lstrip isspace s = s.
Proof.
  destruct s as [|x s]; [done|]. intros Hhead. simpl.
  by rewrite (Hhead x eq_refl).
Qed.

Lemma wrap_remaining_stuck (fuel : nat) (width : Z) (remaining : list char) :
  (0 ≤ width)%Z → remaining ≠ [] →
  (∀ x, head remaining = Some x → isspace x = false) →
  wrap_remaining space isspace fuel width width remaining = None.
Proof.
  intros Hw Hne Hhead. induction fuel as [|fuel IH]; [done|]. simpl.
  rewrite decide_False by done.
  rewrite decide_False by (destruct remaining; [done|simpl; lia]).
  replace (width - width)%Z with 0%Z by lia.
  rewrite (py_upto_nonneg remaining 0) by lia.
  change (take (Z.to_nat 0) remaining) with (@nil char). cbn [rfind].
  rewrite (decide_True (P := (-1 = -1)%Z)) by done.
  rewrite (py_from_nonneg remaining 0) by lia.
  change (drop (Z.to_nat 0) remaining) with remaining.
  rewrite (lstrip_stripped remaining Hhead), IH. done.
Qed.

Lemma lstrip_nonempty (s : list char) (c : char) :
  c ∈ s → isspace c = false → lstrip isspace s ≠ [].
Proof.
  intros Hc Hns Hnil.
  assert (c ∈ filter (fun c => isspace c = false) s) as Hin
    by by apply list_elem_of_filter.
  rewrite <- lstrip_filter, Hnil in Hin. by apply elem_of_nil in Hin.
Qed.

(** X25. With the indentation equal to a non-negative [max_length], the loop
    of [print_line_wrap] never ends on a text that has a non-white-space
    character at index [max_length] or later: no amount of fuel gives a
    result. *)
Theorem print_line_wrap_stuck (fuel : nat) (text : list char) (width : Z) (c : char) :
  (0 ≤ width)%Z → c ∈ drop (Z.to_nat width) text → isspace c = false →
  print_line_wrap space isspace fuel text width width = None.
Proof.
  intros Hw Hc Hns. unfold print_line_wrap.
  assert (Z.to_nat width < length text) as Hlen.
  { destruct (decide (Z.to_nat width < length text)) as [?|Hge]; [done|].
    rewrite drop_ge in Hc by lia. by apply elem_of_nil in Hc. }
  rewrite decide_False by lia.
  set (bp := if decide (rfind space (py_upto text width) = -1)%Z
             then width else rfind space (py_upto text width)).
  assert (0 ≤ bp ≤ width)%Z as Hbp.
  { unfold bp. rewrite py_upto_nonneg by lia.
    destruct (rfind_spec (take (Z.to_nat width) text)) as [->|[Hr _]];
      [rewrite decide_True by done; lia|].
    rewrite length_take in Hr. rewrite decide_False by lia. lia. }
  rewrite wrap_remaining_stuck; [done | done | | apply lstrip_head].
  apply (lstrip_nonempty _ c); [|done]. rewrite py_from_nonneg by lia.
  replace (Z.to_nat width) with (Z.to_nat bp + (Z.to_nat width - Z.to_nat bp)) in Hc
    by lia.
  rewrite <- drop_drop in Hc. eapply elem_of_sublist; [exact Hc|apply sublist_drop].
Qed.

End LineWrapFacts.

Lemma print_line_wrap_lines_witness :
  ∃ lines,
    (∀ fuel, length (chars "  Scores:  {'A': 2, 'B': 1, 'C': 0}") < fuel →
       print_line_wrap " "%char ascii_isspace fuel
         (chars "  Scores:  {'A': 2, 'B': 1, 'C': 0}") 11 20 = Some lines) ∧
    Forall (fun l => (Z.of_nat (length l) ≤ 20)%Z) lines.
Proof.
  apply (print_line_wrap_lines " "%char ascii_isspace eq_refl
           (chars "  Scores:  {'A': 2, 'B': 1, 'C': 0}") 11 20).
  lia.
Defined.

Lemma print_line_wrap_content_witness :
  filter (fun c => ascii_isspace c = false)
    (concat [chars "  Scores:  {'A': 2,"; chars "           'B': 1,";
             chars "           'C': 0}"])
  = filter (fun c => ascii_isspace c = false)
      (chars "  Scores:  {'A': 2, 'B': 1, 'C': 0}").
Proof.
  apply (print_line_wrap_content " "%char ascii_isspace eq_refl 36
           (chars "  Scores:  {'A': 2, 'B': 1, 'C': 0}") 11 20).
  vm_compute. reflexivity.
Defined.

Lemma print_line_wrap_stuck_witness :
  print_line_wrap " "%char ascii_isspace 1000 (chars "abcdefgh") 4 4 = None.
Proof.
  apply (print_line_wrap_stuck " "%char ascii_isspace 1000
           (chars "abcdefgh") 4 "e"%char).
  - lia.
  - by_evaluation.
  - reflexivity.
Defined.

(** * Beatpath defeat is a strict partial order *)

Lemma defeat_transitive (candidates : list string) (h2h p : gmap (string * string) nat)
  (a b c : string) :
  attained candidates h2h p → bounded candidates h2h candidates p →
  a ∈ candidates → b ∈ candidates → c ∈ candidates →
  pf p b a < pf p a b → pf p c b < pf p b c → pf p c a < pf p a c.
Proof.
  intros Hatt Hbound Ha Hb Hc Hab Hbc.
  assert (a ≠ b) as Hnab by (intros ->; lia).
  assert (b ≠ c) as Hnbc by (intros ->; lia).
  assert (a ≠ c) as Hnac by (intros ->; lia).
  pose proof (strengths_triangle candidates h2h p a b c Hatt Hbound
                Ha Hb Hc Hnab Hnbc Hnac) as T1.
  pose proof (strengths_triangle candidates h2h p b c a Hatt Hbound
                Hb Hc Ha Hnbc (not_eq_sym Hnac) (not_eq_sym Hnab)) as T2.
  pose proof (strengths_triangle candidates h2h p c a b Hatt Hbound
                Hc Ha Hb (not_eq_sym Hnac) Hnab (not_eq_sym Hnbc)) as T3.
  lia.
Qed.

(** X26. Beatpath defeat, p[a,b] > p[b,a] on the strengths left by the
    closure loop, is transitive (and so, being irreflexive, has no cycles). *)
Theorem beatpath_defeat_transitive (ballots : list Ballot.t) (candidates : list string)
  (p : gmap (string * string) nat) (a b c : string) :
  beatpath_strengths ballots candidates = Ok p →
  a ∈ candidates → b ∈ candidates → c ∈ candidates →
  pf p b a < pf p a b → pf p c b < pf p b c → pf p c a < pf p a c.
Proof.
  intros Hp.
  assert (∃ h2h, get_head_to_head_matrix ballots candidates = Ok h2h) as [h2h Hh].
  { unfold beatpath_strengths in Hp. apply bind_Ok in Hp as (h2h & Hh & _). eauto. }
  destruct (beatpath_strengths_matrix ballots candidates h2h Hh)
    as (p' & Hp' & _ & _ & Hatt & Hbound).
  assert (p' = p) as -> by congruence.
  by apply (defeat_transitive candidates h2h).
Qed.

Lemma beatpath_defeat_transitive_witness :
  pf strengths_condorcet "C" "A" < pf strengths_condorcet "A" "C".
Proof.
  apply (beatpath_defeat_transitive ballots_condorcet candidates_abc
           strengths_condorcet "A" "B" "C").
  - vm_compute. reflexivity.
  - by_evaluation.
  - by_evaluation.
  - by_evaluation.
  - vm_compute. lia.
  - vm_compute. lia.
Defined.

(** X27. For distinct candidates, no winner returned by [schulze] is defeated
    on beatpath strength by any candidate: the candidates of maximum score
    are among the undefeated ones the docstring speaks of. *)
Theorem schulze_winners_undefeated (ballots : list Ballot.t)
  (candidates winners : list string) (p : gmap (string * string) nat)
  (scores : list (string * nat)) (w D : string) :
  NoDup candidates →
  beatpath_strengths ballots candidates = Ok p →
  schulze ballots candidates = Ok (winners, scores) →
  w ∈ winners → D ∈ candidates →
  ¬ pf p w D < pf p D w.
Proof.
  intros Hnd Hp Hrun Hw HD Hdefeat.
  destruct (schulze_shape _ _ _ _ _ Hnd Hp Hrun) as (Hscores & m & Hwin & _ & Hmle).
  assert (∃ h2h, get_head_to_head_matrix ballots candidates = Ok h2h) as [h2h Hh].
  { unfold beatpath_strengths in Hp. apply bind_Ok in Hp as (h2h & Hh & _). eauto. }
  destruct (beatpath_strengths_matrix ballots candidates h2h Hh)
    as (p' & Hp' & _ & _ & Hatt & Hbound).
  assert (p' = p) as -> by congruence.
  rewrite Hwin in Hw. apply list_elem_of_fmap in Hw as ([k v] & -> & Hkv).
  apply list_elem_of_filter in Hkv as [Hv Hkv]. simpl in *. subst v.
  rewrite Hscores in Hkv.
  apply list_elem_of_fmap in Hkv as (k' & [= <- Hm] & Hk).
  assert (wins p candidates D ≤ m) as HDm.
  { apply Hmle. rewrite Hscores. apply list_elem_of_fmap.
    exists (D, wins p candidates D). split; [done|].
    apply list_elem_of_fmap. by exists D. }
  assert (wins p candidates k < wins p candidates D); [|lia].
  unfold wins. apply (length_filter_lt_impl _ _ _ k); [|done| |].
  - intros j Hj [Hkj Hlt]. split.
    + intros <-. lia.
    + by apply (defeat_transitive candidates h2h p D k j).
  - split; [|done]. intros ->. lia.
  - intros [Hkk _]. done.
Qed.

Lemma schulze_winners_undefeated_witness :
  ¬ pf strengths_condorcet "A" "B" < pf strengths_condorcet "B" "A".
Proof.
  apply (schulze_winners_undefeated ballots_condorcet candidates_abc ["A"]
           strengths_condorcet [("A", 2); ("B", 1); ("C", 0)] "A" "B").
  - by_evaluation.
  - vm_compute. reflexivity.
  - vm_compute. reflexivity.
  - by_evaluation.
  - by_evaluation.
Defined.

(** * The order of the candidate list *)

Lemma get_head_to_head_matrix_lookup (ballots : list Ballot.t) (candidates : list string)
  (h2h : gmap (string * string) nat) (a b : string) :
  get_head_to_head_matrix ballots candidates = Ok h2h →
  h2h !! (a, b)
  = if decide (a ∈ candidates ∧ b ∈ candidates ∧ a ≠ b)
    then Some (length (supporters ballots a b)) else None.
Proof.
  intros Hrun.
  pose proof (get_head_to_head_matrix_inv _ _ _ Hrun) as [Hs Hc].
  destruct (decide (a ∈ candidates ∧ b ∈ candidates ∧ a ≠ b)) as [(Ha & Hb & Hne)|Hno].
  - destruct (Hc a b) as [n Hn]; [done | done |].
    destruct (Hs _ _ _ Hn) as [_ Hcnt].
    apply count_prefers_Ok_inv in Hcnt as [_ ->]. done.
  - destruct (h2h !! (a, b)) as [n|] eqn:Hn; [|done]. destruct Hno.
    destruct (Hs _ _ _ Hn) as [Hne _].
    destruct (get_head_to_head_matrix_keys _ _ _ a b Hrun) as [Ha Hb]; [eauto|].
    done.
Qed.

Lemma get_head_to_head_matrix_Permutation (ballots : list Ballot.t)
  (candidates candidates' : list string) (h2h : gmap (string * string) nat) :
  candidates ≡ₚ candidates' →
  get_head_to_head_matrix ballots candidates = Ok h2h →
  get_head_to_head_matrix ballots candidates' = Ok h2h.
Proof.
  intros Hperm Hh.
  destruct (get_head_to_head_matrix_cases ballots candidates) as [Hiff _].
  destruct (get_head_to_head_matrix_cases ballots candidates') as [Hiff' _].
  destruct (proj2 Hiff') as [h2h' Hh'].
  { intros a b Ha Hb. rewrite <- Hperm in Ha, Hb. apply (proj1 Hiff); eauto. }
  rewrite Hh'. f_equal. apply map_eq. intros [a b].
  rewrite (get_head_to_head_matrix_lookup _ _ _ a b Hh),
    (get_head_to_head_matrix_lookup _ _ _ a b Hh').
  destruct (decide (a ∈ candidates ∧ b ∈ candidates ∧ a ≠ b)) as [Hin|Hout].
  - rewrite decide_True; [done|]. by rewrite <- Hperm.
  - rewrite decide_False; [done|]. by rewrite <- Hperm.
Qed.

Lemma beatpath_strengths_keys (ballots : list Ballot.t) (candidates : list string)
  (p : gmap (string * string) nat) (a b : string) :
  beatpath_strengths ballots candidates = Ok p →
  is_Some (p !! (a, b)) → a ∈ candidates ∧ b ∈ candidates ∧ a ≠ b.
Proof.
  intros Hp. revert a b. unfold beatpath_strengths in Hp.
  apply bind_Ok in Hp as (h2h & _ & Hp). apply bind_Ok in Hp as (p0 & Hp0 & Hp).
  pose (K := fun (m : gmap (string * string) nat) =>
          ∀ a b, is_Some (m !! (a, b)) → a ∈ candidates ∧ b ∈ candidates ∧ a ≠ b).
  assert (Hins : ∀ m i j v, K m → i ∈ candidates → j ∈ candidates → i ≠ j →
            K (<[(i, j) := v]> m)).
  { intros m i j v Hm Hi Hj Hij a b Hsome.
    destruct (decide ((i, j) = (a, b))) as [[= <- <-]|Hk]; [done|].
    rewrite lookup_insert_ne in Hsome by done. by apply Hm. }
  assert (K p0) as HK0.
  { unfold initial_strengths in Hp0.
    apply (for_each_partial _ (fun _ m => K m) _ _ _ Hp0).
    - intros a b [v Hv]. by rewrite lookup_empty in Hv.
    - intros done i m m1 [rest Hsplit] Hm Hrow.
      assert (i ∈ candidates) as Hi
        by (rewrite Hsplit; apply elem_of_app; right; by left).
      apply (for_each_partial _ (fun _ m => K m) _ _ _ Hrow); [done|].
      intros doneb j q q1 [restb Hsplitb] Hq Hstep.
      assert (j ∈ candidates) as Hj
        by (rewrite Hsplitb; apply elem_of_app; right; by left).
      case_decide as Hij; [|by injection Hstep as <-].
      apply bind_Ok in Hstep as (x & _ & Hstep).
      apply bind_Ok in Hstep as (y & _ & Hstep).
      case_decide.
      + apply bind_Ok in Hstep as (x' & _ & [= <-]). by apply Hins.
      + injection Hstep as <-. by apply Hins. }
  unfold closure in Hp.
  apply (for_each_partial _ (fun _ m => K m) _ _ _ Hp); [done|].
  intros done k m m1 [rest Hsplit] Hm Hpass. unfold closure_pass in Hpass.
  apply (for_each_partial _ (fun _ m => K m) _ _ _ Hpass); [done|].
  intros donei i q q1 [resti Hspliti] Hq Hrow.
  assert (i ∈ candidates) as Hi
    by (rewrite Hspliti; apply elem_of_app; right; by left).
  case_decide; [by injection Hrow as <-|]. unfold closure_row in Hrow.
  apply (for_each_partial _ (fun _ m => K m) _ _ _ Hrow); [done|].
  intros donej j r r1 [restj Hsplitj] Hr Hstep.
  assert (j ∈ candidates) as Hj
    by (rewrite Hsplitj; apply elem_of_app; right; by left).
  case_decide as Hskip; [by injection Hstep as <-|]. unfold relax in Hstep.
  apply bind_Ok in Hstep as (x & _ & Hstep).
  apply bind_Ok in Hstep as (y & _ & Hstep).
  apply bind_Ok in Hstep as (z & _ & [= <-]).
  apply Hins; [done | done | done |]. intros ->. tauto.
Qed.

Lemma beatpath_strengths_Permutation (ballots : list Ballot.t)
  (candidates candidates' : list string) (p : gmap (string * string) nat) :
  candidates ≡ₚ candidates' →
  beatpath_strengths ballots candidates = Ok p →
  beatpath_strengths ballots candidates' = Ok p.
Proof.
  intros Hperm Hp.
  assert (∃ h2h, get_head_to_head_matrix ballots candidates = Ok h2h) as [h2h Hh].
  { unfold beatpath_strengths in Hp. apply bind_Ok in Hp as (h2h & Hh & _). eauto. }
  pose proof (get_head_to_head_matrix_Permutation _ _ _ _ Hperm Hh) as Hh'.
  destruct (beatpath_strengths_matrix ballots candidates h2h Hh)
    as (q & Hq & _ & Hkeys & Hatt & Hbound).
  assert (q = p) as -> by congruence.
  destruct (beatpath_strengths_matrix ballots candidates' h2h Hh')
    as (p' & Hp' & _ & Hkeys' & Hatt' & Hbound').
  rewrite Hp'. f_equal. apply map_eq. intros [a b].
  assert (Hpath : ∀ x via y, is_path candidates x via y ↔ is_path candidates' x via y).
  { intros x via y. unfold is_path. rewrite !Forall_forall.
    setoid_rewrite Hperm. done. }
  destruct (decide (a ∈ candidates ∧ b ∈ candidates ∧ a ≠ b)) as [(Ha & Hb & Hne)|Hout].
  - assert (a ∈ candidates' ∧ b ∈ candidates') as [Ha' Hb'] by by rewrite <- Hperm.
    destruct (Hkeys a b Ha Hb Hne) as [s Hs], (Hkeys' a b Ha' Hb' Hne) as [s' Hs'].
    rewrite Hs, Hs'. f_equal.
    assert (pf p a b = s) as <- by (unfold pf; by rewrite Hs).
    assert (pf p' a b = s') as <- by (unfold pf; by rewrite Hs').
    destruct (Hatt a b Ha Hb Hne) as (via & Hvia & Hw).
    destruct (Hatt' a b Ha' Hb' Hne) as (via' & Hvia' & Hw').
    assert (width h2h a via b ≤ pf p' a b) as H1.
    { apply Hbound'; [by apply Hpath | done |].
      apply Hpath in Hvia. by destruct Hvia as (_ & _ & ? & _). }
    assert (width h2h a via' b ≤ pf p a b) as H2.
    { apply Hbound; [by apply Hpath | done |].
      apply Hpath in Hvia'. by destruct Hvia' as (_ & _ & ? & _). }
    lia.
  - destruct (p !! (a, b)) as [s|] eqn:Hs.
    { destruct Hout. apply (beatpath_strengths_keys _ _ _ a b Hp). eauto. }
    destruct (p' !! (a, b)) as [s'|] eqn:Hs'; [|done].
    destruct Hout. rewrite Hperm.
    apply (beatpath_strengths_keys _ _ _ a b Hp'). eauto.
Qed.

(** X28. The strengths left by the closure loop do not depend on the order in
    which the candidates are listed: listing them in another order gives the
    same dictionary. *)
Theorem beatpath_strengths_order (ballots : list Ballot.t)
  (candidates candidates' : list string) (p : gmap (string * string) nat) :
  candidates ≡ₚ candidates' →
  beatpath_strengths ballots candidates = Ok p →
  beatpath_strengths ballots candidates' = Ok p.
Proof. apply beatpath_strengths_Permutation. Qed.

Lemma beatpath_strengths_order_witness :
  beatpath_strengths ballots_condorcet ["C"; "A"; "B"] = Ok strengths_condorcet.
Proof.
  apply (beatpath_strengths_order ballots_condorcet candidates_abc ["C"; "A"; "B"]).
  - by_evaluation.
  - vm_compute. reflexivity.
Defined.

Lemma wins_Permutation (p : gmap (string * string) nat)
  (candidates candidates' : list string) (c : string) :
  candidates ≡ₚ candidates' → wins p candidates c = wins p candidates' c.
Proof. intros Hperm. unfold wins. by rewrite Hperm. Qed.

(** X29. Listing distinct candidates in another order only reorders the
    answer of [schulze]: the same candidates win and every candidate keeps
    its score. *)
Theorem schulze_candidate_order (ballots : list Ballot.t)
  (candidates candidates' winners : list string) (scores : list (string * nat)) :
  NoDup candidates → candidates ≡ₚ candidates' →
  schulze ballots candidates = Ok (winners, scores) →
  ∃ winners' scores',
    schulze ballots candidates' = Ok (winners', scores') ∧
    winners' ≡ₚ winners ∧ scores' ≡ₚ scores.
Proof.
  intros Hnd Hperm Hrun.
  assert (NoDup candidates') as Hnd' by by rewrite <- Hperm.
  assert (∃ p, beatpath_strengths ballots candidates = Ok p) as [p Hp].
  { unfold schulze in Hrun. apply bind_Ok in Hrun as (p & Hp & _). eauto. }
  pose proof (beatpath_strengths_Permutation _ _ _ _ Hperm Hp) as Hp_order.
  assert (∃ h2h, get_head_to_head_matrix ballots candidates = Ok h2h) as [h2h Hh].
  { unfold beatpath_strengths in Hp. apply bind_Ok in Hp as (h2h & Hh & _). eauto. }
  pose proof (get_head_to_head_matrix_Permutation _ _ _ _ Hperm Hh) as Hh'.
  assert (candidates' ≠ []) as Hne'.
  { intros Hnil. rewrite Hnil in Hperm. apply Permutation_nil_r in Hperm.
    subst candidates. by vm_compute in Hrun. }
  destruct (schulze_run_matrix ballots candidates' h2h Hne' Hh')
    as (p' & d' & m' & Hp' & _ & _ & Hrun' & _ & _ & _ & _ & _ & _ & Hin' & Hle').
  exists ((filter (fun cs => cs.2 = m') d').*1), d'. split; [done|].
  destruct (schulze_shape _ _ _ _ _ Hnd Hp Hrun) as (Hsc & m & Hw & Hmin & Hmle).
  destruct (schulze_shape _ _ _ _ _ Hnd' Hp' Hrun')
    as (Hsc' & m0 & Hw' & Hmin' & Hmle').
  assert (p' = p) as -> by congruence.
  assert (d' ≡ₚ scores) as Hscores.
  { rewrite Hsc, Hsc', <- Hperm. apply Permutation_refl'.
    apply list_fmap_ext. intros i c _. f_equal. symmetry.
    by apply wins_Permutation. }
  assert (m' = m) as ->.
  { assert (m' ≤ m) by (apply Hmle; by rewrite <- Hscores).
    assert (m ≤ m') by (apply Hle'; by rewrite Hscores). lia. }
  split; [|done]. rewrite Hw. by rewrite Hscores.
Qed.

Lemma schulze_candidate_order_witness :
  ∃ winners' scores',
    schulze ballots_condorcet ["C"; "A"; "B"] = Ok (winners', scores') ∧
    winners' ≡ₚ ["A"] ∧ scores' ≡ₚ [("A", 2); ("B", 1); ("C", 0)].
Proof.
  apply (schulze_candidate_order ballots_condorcet candidates_abc ["C"; "A"; "B"]).
  - by_evaluation.
  - by_evaluation.
  - vm_compute. reflexivity.
Defined.
